(** * Low-rank quaternion matrix completion: quaternion algebra, the
      complex embedding and the LRQMC loop of [image_recovery/linalg.py]

    The development follows the Python module function by function.
    NumPy arrays are modelled as a shape together with an indexing
    function.  The arrays are of float dtype, read as exact reals ([R]),
    and complex numbers are pairs of reals: rounding, overflow and
    underflow are outside the model, and so are arrays of an integer
    dtype, whose arithmetic wraps around.  A float division by zero does
    not raise in NumPy; the quotients the loop forms are modelled with
    the infinities and NaN they can be ([xfloat]).
    Every place where NumPy raises (shape checks, an index past the end
    of an array, [argmax] of an empty array) is written out in an error
    monad.  The three library routines that are not elementary
    ([scipy.linalg.pinv], [scipy.linalg.eigvalsh] and the global
    generator behind [np.random]) are an interface, [NumLib]; the
    theorems hold for every implementation of it, some of them under its
    shape contracts [lib_shapes]. *)

From Stdlib Require Import Reals Lra Lia List ZArith Bool Arith PeanoNat Sorted.
Import ListNotations.

Local Open Scope R_scope.

(** ** Exceptions *)

Inductive exn : Set := ValueError | IndexError | TypeError.

Inductive result (A : Type) : Type :=
| Ok (a : A)
| Raise (e : exn).

Arguments Ok {A} a.
Arguments Raise {A} e.

Definition bind {A B : Type} (m : result A) (k : A -> result B) : result B :=
  match m with
  | Ok a => k a
  | Raise e => Raise e
  end.

Notation "x <- m ;; k" := (bind m (fun x => k))
  (at level 61, m at next level, right associativity).
Notation "' p <- m ;; k" := (bind m (fun x => let p := x in k))
  (at level 61, p pattern, m at next level, right associativity).

(** ** Complex numbers (complex128 read as exact pairs of reals) *)

Record C : Type := mkC { Re : R; Im : R }.

Definition RtoC (x : R) : C := mkC x 0.
Definition Ci : C := mkC 0 1.
Definition Cadd (a b : C) : C := mkC (Re a + Re b) (Im a + Im b).
Definition Csub (a b : C) : C := mkC (Re a - Re b) (Im a - Im b).
Definition Cneg (a : C) : C := mkC (- Re a) (- Im a).
Definition Cmul (a b : C) : C :=
  mkC (Re a * Re b - Im a * Im b) (Re a * Im b + Im a * Re b).
Definition Cconj (a : C) : C := mkC (Re a) (- Im a).
Definition Cabs2 (a : C) : R := Re a * Re a + Im a * Im a.

(** ** Arrays: a shape and an indexing function *)

Record ndarray (A : Type) : Type :=
  Arr2 { rows : nat; cols : nat; at2 : nat -> nat -> A }.

Arguments Arr2 {A} rows cols at2.
Arguments rows {A} n.
Arguments cols {A} n.
Arguments at2 {A} n i j.

Record tensor : Type :=
  Arr3 { dim0 : nat; dim1 : nat; dim2 : nat; at3 : nat -> nat -> nat -> R }.

(** [(P == Q).all()] of NumPy on arrays of one shape: same shape, same
    entries. *)
Definition tensor_equal (P Q : tensor) : Prop :=
  dim0 P = dim0 Q /\ dim1 P = dim1 Q /\ dim2 P = dim2 Q /\
  forall i j k, (i < dim0 P)%nat -> (j < dim1 P)%nat -> (k < dim2 P)%nat ->
                at3 P i j k = at3 Q i j k.

Definition amap {A B : Type} (f : A -> B) (X : ndarray A) : ndarray B :=
  Arr2 (rows X) (cols X) (fun i j => f (at2 X i j)).

Definition tmap (f : R -> R) (Q : tensor) : tensor :=
  Arr3 (dim0 Q) (dim1 Q) (dim2 Q) (fun i j k => f (at3 Q i j k)).

(** Building arrays from literals, for examples. *)
Definition of_rows {A : Type} (d : A) (n m : nat) (l : list (list A)) : ndarray A :=
  Arr2 n m (fun i j => nth j (nth i l []) d).

Definition of_pixels (n m c : nat) (l : list (list (list R))) : tensor :=
  Arr3 n m c (fun i j k => nth k (nth j (nth i l []) []) 0).

Definition full {A : Type} (n m : nat) (a : A) : ndarray A :=
  Arr2 n m (fun _ _ => a).

(** Finite sums, [sum_n f n = f 0 + ... + f (n-1)]. *)
Fixpoint sum_n (f : nat -> R) (n : nat) : R :=
  match n with
  | O => 0
  | S n' => sum_n f n' + f n'
  end.

(** [ndarray.sum()] over every axis. *)
Definition tsum (Q : tensor) : R :=
  sum_n (fun i => sum_n (fun j => sum_n (fun k => at3 Q i j k) (dim2 Q)) (dim1 Q)) (dim0 Q).

(** Broadcasting of one axis: equal lengths, or one of them is 1. *)
Definition bshape (a b : nat) : option nat :=
  if (a =? b)%nat then Some a
  else if (a =? 1)%nat then Some b
  else if (b =? 1)%nat then Some a
  else None.

Definition bidx (len i : nat) : nat := if (len =? 1)%nat then O else i.

(** An elementwise binary operation on two 2-d arrays, with NumPy's
    broadcasting; shapes that do not broadcast raise [ValueError]. *)
Definition zip_with {A B D : Type} (f : A -> B -> D)
           (X : ndarray A) (Y : ndarray B) : result (ndarray D) :=
  match bshape (rows X) (rows Y), bshape (cols X) (cols Y) with
  | Some r, Some c =>
      Ok (Arr2 r c (fun i j => f (at2 X (bidx (rows X) i) (bidx (cols X) j))
                                 (at2 Y (bidx (rows Y) i) (bidx (cols Y) j))))
  | _, _ => Raise ValueError
  end.

(** [np.hstack([X, Y])] and [np.vstack([X, Y])] of 2-d arrays. *)
Definition hstack {A : Type} (X Y : ndarray A) : result (ndarray A) :=
  if (rows X =? rows Y)%nat then
    Ok (Arr2 (rows X) (cols X + cols Y)
             (fun i j => if (j <? cols X)%nat then at2 X i j else at2 Y i (j - cols X)))
  else Raise ValueError.

Definition vstack {A : Type} (X Y : ndarray A) : result (ndarray A) :=
  if (cols X =? cols Y)%nat then
    Ok (Arr2 (rows X + rows Y) (cols X)
             (fun i j => if (i <? rows X)%nat then at2 X i j else at2 Y (i - rows X) j))
  else Raise ValueError.

(** [np.tile(m, (a, b))]. *)
Definition tile {A : Type} (m : ndarray A) (a b : nat) : ndarray A :=
  Arr2 (a * rows m) (b * cols m)
       (fun i j => at2 m (i mod rows m) (j mod cols m)).

(** Slices [X[:a, :b]] and [X[:a, b:]]; a slice never raises. *)
Definition slice_tl {A : Type} (X : ndarray A) (a b : nat) : ndarray A :=
  Arr2 (Nat.min a (rows X)) (Nat.min b (cols X)) (at2 X).

Definition slice_tr {A : Type} (X : ndarray A) (a b : nat) : ndarray A :=
  Arr2 (Nat.min a (rows X)) (cols X - b) (fun i j => at2 X i (b + j)).

(** [Q[:, :, k]], [Q[:, :, :n]] and [Q[:, :, n:]]. *)
Definition chan (Q : tensor) (k : nat) : ndarray R :=
  Arr2 (dim0 Q) (dim1 Q) (fun i j => at3 Q i j k).

Definition upto2 (Q : tensor) (n : nat) : tensor :=
  Arr3 (dim0 Q) (dim1 Q) (Nat.min n (dim2 Q)) (at3 Q).

Definition from2 (Q : tensor) (n : nat) : tensor :=
  Arr3 (dim0 Q) (dim1 Q) (dim2 Q - n) (fun i j k => at3 Q i j (n + k)).

(** [np.concatenate([P, Q], axis=2)]. *)
Definition concatenate2 (P Q : tensor) : result tensor :=
  if ((dim0 P =? dim0 Q) && (dim1 P =? dim1 Q))%nat then
    Ok (Arr3 (dim0 P) (dim1 P) (dim2 P + dim2 Q)
             (fun i j k => if (k <? dim2 P)%nat then at3 P i j k
                           else at3 Q i j (k - dim2 P)))
  else Raise ValueError.

Definition same_shape {A : Type} (X Y : ndarray A) : bool :=
  ((rows X =? rows Y) && (cols X =? cols Y))%nat.

(** [np.stack([X0, X1, X2, X3], axis=2)]. *)
Definition stack4 (X0 X1 X2 X3 : ndarray R) : result tensor :=
  if same_shape X0 X1 && same_shape X0 X2 && same_shape X0 X3 then
    Ok (Arr3 (rows X0) (cols X0) 4
             (fun i j k => match k with
                           | 0%nat => at2 X0 i j
                           | 1%nat => at2 X1 i j
                           | 2%nat => at2 X2 i j
                           | _ => at2 X3 i j
                           end))
  else Raise ValueError.

(** ** Quaternion algebra *)

Definition conjugate (Q : tensor) : result tensor :=
  if negb (dim2 Q =? 4)%nat then Raise ValueError
  else concatenate2 (upto2 Q 1) (tmap Ropp (from2 Q 1)).

(** [np.sqrt(np.power(Q, 2).sum())] on a float array, over the reals. *)
Definition frobenius_norm (Q : tensor) : result R :=
  if negb (dim2 Q =? 4)%nat then Raise ValueError
  else Ok (sqrt (tsum (tmap (fun x => x ^ 2) Q))).

(** [Q * signs[None, None, :]] and [Q[:, :, perm]] for a length-4 list. *)
Definition scale_last (Q : tensor) (signs : list R) : tensor :=
  Arr3 (dim0 Q) (dim1 Q) (dim2 Q) (fun i j k => at3 Q i j k * nth k signs 0).

Definition take_last (Q : tensor) (perm : list nat) : tensor :=
  Arr3 (dim0 Q) (dim1 Q) (length perm) (fun i j k => at3 Q i j (nth k perm O)).

(** [np.einsum("isk, sjk -> ij", P, Q)]. *)
Definition einsum_isk_sjk (P Q : tensor) : result (ndarray R) :=
  if ((dim1 P =? dim0 Q) && (dim2 P =? dim2 Q))%nat then
    Ok (Arr2 (dim0 P) (dim1 Q)
             (fun i j => sum_n (fun s => sum_n (fun k => at3 P i s k * at3 Q s j k)
                                               (dim2 P)) (dim1 P)))
  else Raise ValueError.

Definition qdot (Q1 Q2 : tensor) : result tensor :=
  if (negb (dim2 Q1 =? 4)%nat || negb (dim2 Q2 =? 4)%nat)
     || negb (dim1 Q1 =? dim0 Q2)%nat
  then Raise ValueError
  else
    r0 <- einsum_isk_sjk Q1 (scale_last Q2 [1; -1; -1; -1]) ;;
    r1 <- einsum_isk_sjk Q1 (scale_last (take_last Q2 [1; 0; 3; 2]%nat) [1; 1; 1; -1]) ;;
    r2 <- einsum_isk_sjk Q1 (scale_last (take_last Q2 [2; 3; 0; 1]%nat) [1; -1; 1; 1]) ;;
    r3 <- einsum_isk_sjk Q1 (scale_last (take_last Q2 [3; 2; 1; 0]%nat) [1; 1; -1; 1]) ;;
    stack4 r0 r1 r2 r3.

(** ** Matrix transformations *)

Definition qm2cm (Q : tensor) (mask : option (ndarray bool))
  : result (ndarray C * option (ndarray bool)) :=
  if negb (dim2 Q =? 4)%nat then Raise ValueError
  else
    Qa <- zip_with Cadd (amap RtoC (chan Q 0)) (amap (fun x => Cmul Ci (RtoC x)) (chan Q 1)) ;;
    Qb <- zip_with Cadd (amap RtoC (chan Q 2)) (amap (fun x => Cmul Ci (RtoC x)) (chan Q 3)) ;;
    top <- hstack Qa Qb ;;
    bot <- hstack (amap Cneg (amap Cconj Qb)) (amap Cconj Qa) ;;
    Cm <- vstack top bot ;;
    Ok (Cm, match mask with
            | None => None
            | Some m => Some (tile m 2 2)
            end).

Definition cm2qm (Cm : ndarray C) : result tensor :=
  if (negb (rows Cm mod 2 =? 0) || negb (cols Cm mod 2 =? 0))%nat
  then Raise ValueError
  else
    let Qa := slice_tl Cm (rows Cm / 2) (cols Cm / 2) in
    let Qb := slice_tr Cm (rows Cm / 2) (cols Cm / 2) in
    stack4 (amap Re Qa) (amap Im Qa) (amap Re Qb) (amap Im Qb).

(** [np.linalg.norm] of a complex matrix: the Frobenius norm. *)
Definition linalg_norm (X : ndarray C) : R :=
  sqrt (sum_n (fun i => sum_n (fun j => Cabs2 (at2 X i j)) (cols X)) (rows X)).

(** ** Helpers for the recovery loop *)

Definition C0 : C := mkC 0 0.

Fixpoint Csum_n (f : nat -> C) (n : nat) : C :=
  match n with
  | O => C0
  | S n' => Cadd (Csum_n f n') (f n')
  end.

(** [A.dot(B)] of 2-d arrays. *)
Definition dot (A B : ndarray C) : result (ndarray C) :=
  if (cols A =? rows B)%nat then
    Ok (Arr2 (rows A) (cols B)
             (fun i j => Csum_n (fun s => Cmul (at2 A i s) (at2 B s j)) (cols A)))
  else Raise ValueError.

(** [np.conj(A.T)]. *)
Definition ctrans (A : ndarray C) : ndarray C :=
  Arr2 (cols A) (rows A) (fun i j => Cconj (at2 A j i)).

(** [np.eye(n)] for a Python integer [n]. *)
Definition np_eye (n : Z) : result (ndarray R) :=
  if (n <? 0)%Z then Raise ValueError
  else Ok (Arr2 (Z.to_nat n) (Z.to_nat n) (fun i j => if (i =? j)%nat then 1 else 0)).

(** [G + reg_coef*np.eye(c_rank)]. *)
Definition regularised (G : ndarray C) (reg_coef : R) (c_rank : Z) : result (ndarray C) :=
  E <- np_eye c_rank ;;
  zip_with (fun z x => Cadd z (RtoC x)) G (amap (Rmult reg_coef) E).

(** Shapes of two arrays with different entry types. *)
Definition shape_eqb {A B : Type} (X : ndarray A) (Y : ndarray B) : bool :=
  ((rows X =? rows Y) && (cols X =? cols Y))%nat.

(** [np.sort] of a 1-d array (ascending). *)
Fixpoint insert_sorted (x : R) (l : list R) : list R :=
  match l with
  | [] => [x]
  | y :: t => if Rle_dec x y then x :: l else y :: insert_sorted x t
  end.

Fixpoint np_sort (l : list R) : list R :=
  match l with
  | [] => []
  | x :: t => insert_sorted x (np_sort t)
  end.

(** A float quotient as NumPy returns it.  Dividing a float by zero
    gives an infinity with the sign of the dividend, or NaN for [0/0],
    and a warning, not an exception; every comparison with NaN is
    false.  (The sign of a zero divisor is outside the model.) *)
Inductive xfloat : Type := Fin (x : R) | PInf | NInf | NaN.

Definition xdiv (a b : R) : xfloat :=
  if Req_dec_T b 0 then
    if Rlt_dec 0 a then PInf else if Rlt_dec a 0 then NInf else NaN
  else Fin (a / b).

(** [x < t] and [x > t] for a quotient [x] and a float [t]. *)
Definition xlt (x : xfloat) (t : R) : bool :=
  match x with
  | Fin v => if Rlt_dec v t then true else false
  | NInf => true
  | PInf | NaN => false
  end.

Definition xgt (x : xfloat) (t : R) : bool :=
  match x with
  | Fin v => if Rlt_dec t v then true else false
  | PInf => true
  | NInf | NaN => false
  end.

(** [x <= y] between two quotients. *)
Definition xle (x y : xfloat) : bool :=
  match x, y with
  | NaN, _ | _, NaN => false
  | NInf, _ | _, PInf => true
  | Fin a, Fin b => if Rle_dec a b then true else false
  | _, _ => false
  end.

Definition isnan (x : xfloat) : bool :=
  match x with NaN => true | _ => false end.

(** [np.argmax]: raises on an empty array; otherwise the index of the
    first NaN if there is one, else the first index of a largest entry.
    As in NumPy's loop, an entry replaces the best one so far when it is
    not [<=] it, and the scan stops at a NaN. *)
Fixpoint argmax_from (best : xfloat) (bi i : nat) (l : list xfloat) : nat :=
  match l with
  | [] => bi
  | x :: t => if xle x best then argmax_from best bi (S i) t
              else if isnan x then i
              else argmax_from x i (S i) t
  end.

Definition argmax (l : list xfloat) : result nat :=
  match l with
  | [] => Raise ValueError
  | x :: t => if isnan x then Ok 0%nat else Ok (argmax_from x 0 1 t)
  end.

Definition list_sum (l : list R) : R := fold_right Rplus 0 l.

(** [a / b] of two 1-d float arrays of the same length. *)
Definition div_list (a b : list R) : list xfloat :=
  map (fun p => xdiv (fst p) (snd p)) (combine a b).

(** [int(x)] of a float: truncation towards zero. *)
Definition py_int (x : R) : Z :=
  if Rle_dec 0 x then Int_part x else (- Int_part (- x))%Z.

(** [np.zeros(n)] for a Python integer [n]. *)
Definition np_zeros (n : Z) : result (list R) :=
  if (n <? 0)%Z then Raise ValueError else Ok (repeat 0 (Z.to_nat n)).

Fixpoint list_set (l : list R) (i : nat) (v : R) : list R :=
  match l, i with
  | [], _ => []
  | _ :: t, O => v :: t
  | x :: t, S i' => x :: list_set t i' v
  end.

(** [a[i] = v] for a non-negative index: past the end it raises. *)
Definition set_item (l : list R) (i : nat) (v : R) : result (list R) :=
  if (i <? length l)%nat then Ok (list_set l i v) else Raise IndexError.

(** [X[:, :c]] and [X[:c, :]] for a non-negative Python integer [c]. *)
Definition take_cols (X : ndarray C) (c : Z) : ndarray C :=
  Arr2 (rows X) (Nat.min (Z.to_nat c) (cols X)) (at2 X).

Definition take_rows (X : ndarray C) (c : Z) : ndarray C :=
  Arr2 (Nat.min (Z.to_nat c) (rows X)) (cols X) (at2 X).

(** ** The library interface

    [rng] is the state of NumPy's global generator.  [seed_int n] is the
    state [np.random.seed(n)] installs; [uniform g r c] is one call of
    [np.random.uniform(size=(r, c))] from state [g], with the state it
    leaves; [pinv] and [eigvalsh] are the SciPy routines. *)

Record NumLib : Type := {
  rng : Type;
  seed_int : Z -> rng;
  uniform : rng -> nat -> nat -> ndarray R * rng;
  pinv : ndarray C -> ndarray C;
  eigvalsh : ndarray C -> list R
}.

(** The shape contracts of the library routines. *)
Record lib_shapes (L : NumLib) : Prop := {
  uniform_rows : forall g r c, rows (fst (uniform L g r c)) = r;
  uniform_cols : forall g r c, cols (fst (uniform L g r c)) = c;
  pinv_rows : forall A, rows (pinv L A) = cols A;
  pinv_cols : forall A, cols (pinv L A) = rows A;
  eigvalsh_length : forall A, length (eigvalsh L A) = rows A
}.

(** ** Matrix recovery *)

Record params : Type := {
  reg_coef : R;
  max_iter : Z;
  rel_tol : R;
  rot : R;
  rank_mult : R
}.

Record loop_state : Type := {
  X : ndarray C;
  U : ndarray C;
  V : ndarray C;
  c_rank : Z;
  norms : list R;
  ix : nat
}.

Record output : Type := {
  restored : tensor;
  factor_U : ndarray C;
  factor_V : ndarray C;
  norms_out : option (list R)
}.

(** The rank used for the first factors. *)
Definition initial_rank (init_rank : option Z) (N M : nat) : Z :=
  let m := Z.of_nat (Nat.min N M) in
  match init_rank with
  | None => m
  | Some r => if ((r =? 0) || (m <? r))%Z then m else r
  end.

(** [X = X0.copy(); X[~mask_c] += (U.dot(V))[~mask_c]].  A boolean index
    whose shape differs from the indexed array raises [IndexError]; the
    left-hand side [X[~mask_c]] is read before the product is formed. *)
Definition reimpose (X0 : ndarray C) (mask_c : ndarray bool) (Uc Vc : ndarray C)
  : result (ndarray C) :=
  let unobserved := amap negb mask_c in
  if negb (shape_eqb X0 unobserved) then Raise IndexError
  else
    UV <- dot Uc Vc ;;
    if negb (shape_eqb UV unobserved) then Raise IndexError
    else Ok (Arr2 (rows X0) (cols X0)
                  (fun i j => if at2 unobserved i j
                              then Cadd (at2 X0 i j) (at2 UV i j)
                              else at2 X0 i j)).

(** The new rank once the overestimation test has fired. *)
Definition shrunk_rank (max_ind : nat) (r : Z) (gamma : R) : Z :=
  Z.max (Z.of_nat max_ind + 2) (py_int (IZR r * gamma)).

Section Recovery.

Variable L : NumLib.
Variable p : params.
Variable X0 : ndarray C.
Variable mask_c : ndarray bool.

(** [U = (X.dot(conj(V.T))).dot(pinv(V.dot(conj(V.T)) + reg_coef*eye(c_rank)))]. *)
Definition update_U (Xc Vc : ndarray C) (r : Z) : result (ndarray C) :=
  XV <- dot Xc (ctrans Vc) ;;
  G <- dot Vc (ctrans Vc) ;;
  S <- regularised G (reg_coef p) r ;;
  dot XV (pinv L S).

(** [V = pinv(conj(U.T).dot(U) + reg_coef*eye(c_rank)).dot(conj(U.T).dot(X))]. *)
Definition update_V (Xc Uc : ndarray C) (r : Z) : result (ndarray C) :=
  G <- dot (ctrans Uc) Uc ;;
  S <- regularised G (reg_coef p) r ;;
  UX <- dot (ctrans Uc) Xc ;;
  dot (pinv L S) UX.

(** The eigenvalue test: the index of the largest consecutive quotient
    and the overestimation [mu].  Both divisions are float divisions. *)
Definition overestimation (Uc : ndarray C) (r : Z) : result (nat * xfloat) :=
  G <- dot (ctrans Uc) Uc ;;
  let eigvs := rev (np_sort (eigvalsh L G)) in
  let quots := div_list (removelast eigvs) (tl eigvs) in
  max_ind <- argmax quots ;;
  let e := nth max_ind eigvs 0 in
  Ok (max_ind, xdiv (IZR (r - 1) * e) (list_sum eigvs - e)).

(** [mu > rot]. *)
Definition fires (mu : xfloat) : bool := xgt mu (rot p).

(** [abs(norms[ix + 1] - norms[ix])/norms[ix] < rel_tol]; the division
    is a float division, so the test is false when [norms[ix]] is 0. *)
Definition converged (ns : list R) (i : nat) : bool :=
  xlt (xdiv (Rabs (nth (i + 1) ns 0 - nth i ns 0)) (nth i ns 0)) (rel_tol p).

(** One pass through the body of [while flag]; the boolean is the value
    of [flag] at the end of the pass.  The progress messages go to
    standard output only and are left out. *)
Definition loop_body (st : loop_state) : result (loop_state * bool) :=
  U1 <- update_U (X st) (V st) (c_rank st) ;;
  V1 <- update_V (X st) U1 (c_rank st) ;;
  X1 <- reimpose X0 mask_c U1 V1 ;;
  ' (max_ind, mu) <- overestimation U1 (c_rank st) ;;
  let r2 := if fires mu then shrunk_rank max_ind (c_rank st) (rank_mult p)
            else c_rank st in
  let U2 := if fires mu then take_cols U1 r2 else U1 in
  let V2 := if fires mu then take_rows V1 r2 else V1 in
  UV2 <- dot U2 V2 ;;
  D <- zip_with Csub X1 UV2 ;;
  ns <- set_item (norms st) (ix st + 1) (linalg_norm D) ;;
  let st' := {| X := X1; U := U2; V := V2; c_rank := r2; norms := ns; ix := ix st |} in
  if converged ns (ix st) then Ok (st', false)
  else if (max_iter p <=? Z.of_nat (ix st))%Z then Ok (st', false)
  else Ok ({| X := X1; U := U2; V := V2; c_rank := r2; norms := ns; ix := ix st + 1 |},
           true).

(** [while flag: ...].  [None] is a loop that has not stopped within
    the given number of passes. *)
Fixpoint while_flag (fuel : nat) (st : loop_state) : option (result loop_state) :=
  match fuel with
  | O => None
  | S fuel' =>
      match loop_body st with
      | Raise e => Some (Raise e)
      | Ok (st', true) => while_flag fuel' st'
      | Ok (st', false) => Some (Ok st')
      end
  end.

End Recovery.

(** [np.random.seed(random_state)] as a transition of the global
    generator: an integer seed must lie in [0, 2^32); [None] takes a
    fresh state [os] from the operating system.  The state [g] the
    generator had before is overwritten. *)
Definition np_random_seed (L : NumLib) (random_state : option Z) (os g : rng L)
  : result (rng L) :=
  match random_state with
  | None => Ok os
  | Some n => if ((n <? 0) || (2 ^ 32 <=? n))%Z then Raise ValueError
              else Ok (seed_int L n)
  end.

(** [np.random.uniform(size=(r, c))] with Python integers. *)
Definition np_random_uniform (L : NumLib) (g : rng L) (r c : Z)
  : result (ndarray R * rng L) :=
  if ((r <? 0) || (c <? 0))%Z then Raise ValueError
  else Ok (uniform L g (Z.to_nat r) (Z.to_nat c)).

(** [np.random.uniform(size) + 1j*np.random.uniform(size)]. *)
Definition random_complex (L : NumLib) (g : rng L) (r c : Z)
  : result (ndarray C * rng L) :=
  ' (A, g1) <- np_random_uniform L g r c ;;
  ' (B, g2) <- np_random_uniform L g1 r c ;;
  M <- zip_with Cadd (amap RtoC A) (amap (fun x => Cmul Ci (RtoC x)) B) ;;
  Ok (M, g2).

(** [np.random.seed(random_state)] and the first factors [U], [V]. *)
Definition init_factors (L : NumLib) (g os : rng L)
           (random_state : option Z) (N M : nat) (r : Z)
  : result (ndarray C * ndarray C * rng L) :=
  g0 <- np_random_seed L random_state os g ;;
  ' (U0, g1) <- random_complex L g0 (2 * Z.of_nat N) r ;;
  ' (V0, g2) <- random_complex L g1 r (2 * Z.of_nat M) ;;
  Ok (U0, V0, g2).

(** [lrqmc] up to [while flag]: the matrix [X0], the tiled mask, the
    state the global generator is left in and the first loop state.
    A mask is always passed to [qm2cm] here, so a tiled mask always
    comes back; [~None] would be a [TypeError]. *)
Definition prepare (L : NumLib) (g os : rng L)
           (qmat : tensor) (mask : ndarray bool) (init_rank : option Z)
           (p : params) (random_state : option Z)
  : result (ndarray C * ndarray bool * rng L * loop_state) :=
  ' (Xc, mc) <- qm2cm qmat (Some mask) ;;
  let r := initial_rank init_rank (dim0 qmat) (dim1 qmat) in
  ' (U0, V0, g') <- init_factors L g os random_state (dim0 qmat) (dim1 qmat) r ;;
  ns <- np_zeros (max_iter p + 1) ;;
  UV <- dot U0 V0 ;;
  D <- zip_with Csub Xc UV ;;
  ns0 <- set_item ns 0 (linalg_norm D) ;;
  match mc with
  | None => Raise TypeError
  | Some mask_c =>
      Ok (Xc, mask_c, g',
          {| X := Xc; U := U0; V := V0; c_rank := r; norms := ns0; ix := 0 |})
  end.

(** Everything [lrqmc] does before [return]: the final loop state and
    the state the global generator is left in.  [g] is the state of the
    global generator when the call starts; [fuel] bounds the number of
    passes through the loop. *)
Definition lrqmc_run (L : NumLib) (fuel : nat) (g os : rng L)
           (qmat : tensor) (mask : ndarray bool) (init_rank : option Z)
           (p : params) (random_state : option Z)
  : option (result (loop_state * rng L)) :=
  match prepare L g os qmat mask init_rank p random_state with
  | Raise e => Some (Raise e)
  | Ok (X0, mask_c, g', st0) =>
      match while_flag L p X0 mask_c fuel st0 with
      | None => None
      | Some (Raise e) => Some (Raise e)
      | Some (Ok st) => Some (Ok (st, g'))
      end
  end.

(** The value returned by [lrqmc]. *)
Definition lrqmc (L : NumLib) (fuel : nat) (g os : rng L)
           (qmat : tensor) (mask : ndarray bool) (init_rank : option Z)
           (p : params) (return_norms : bool) (random_state : option Z)
  : option (result output) :=
  match lrqmc_run L fuel g os qmat mask init_rank p random_state with
  | None => None
  | Some (Raise e) => Some (Raise e)
  | Some (Ok (st, _)) =>
      Some (Q <- cm2qm (X st) ;;
            Ok {| restored := Q; factor_U := U st; factor_V := V st;
                  norms_out := if return_norms then Some (norms st) else None |})
  end.

(** The norm [lrqmc] records for a loop state: [norm(X - U.dot(V))]. *)
Definition recorded_norm (st : loop_state) : R :=
  match (UV <- dot (U st) (V st) ;; zip_with Csub (X st) UV) with
  | Ok D => linalg_norm D
  | Raise _ => 0
  end.

(** The passes of one run of the loop: [passes st l st'] when the loop
    started in [st] goes through the states [l] (the states at the start
    of each pass, [st] first) and stops in [st']. *)
Inductive passes (L : NumLib) (p : params) (X0 : ndarray C) (mask_c : ndarray bool)
  : loop_state -> list loop_state -> loop_state -> Prop :=
| passes_stop : forall st st',
    loop_body L p X0 mask_c st = Ok (st', false) ->
    passes L p X0 mask_c st [st] st'
| passes_step : forall st st1 l st',
    loop_body L p X0 mask_c st = Ok (st1, true) ->
    passes L p X0 mask_c st1 l st' ->
    passes L p X0 mask_c st (st :: l) st'.

(** ** A small instance of the library, to run examples

    The generator state is a counter; a draw from state [g] fills the
    array with [1/(g+2)].  [pinv] and [eigvalsh] are the exact
    pseudoinverse and spectrum on diagonal matrices. *)

Definition Cinv (z : C) : C :=
  mkC (Re z / Cabs2 z) (- Im z / Cabs2 z).

Definition ref_lib : NumLib := {|
  rng := nat;
  seed_int := fun n => Z.to_nat n;
  uniform := fun g r c => (full r c (/ (INR g + 2)), S g);
  pinv := fun A => Arr2 (cols A) (rows A)
                        (fun i j => if (i =? j)%nat then Cinv (at2 A i i) else C0);
  eigvalsh := fun A => np_sort (map (fun i => Re (at2 A i i)) (seq 0 (rows A)))
|}.

(** A 2x2 image, all black, with one pixel missing. *)
Definition black_image : tensor := Arr3 2 2 4 (fun _ _ _ => 0).

Definition one_missing : ndarray bool :=
  of_rows true 2 2 [[true; false]; [true; true]].

(** The default parameters of [lrqmc], with [max_iter = n]. *)
Definition default_params (n : Z) : params :=
  {| reg_coef := 1 / 1000; max_iter := n; rel_tol := 1 / 1000; rot := 10;
     rank_mult := 9 / 10 |}.

(** The same with the tolerance [rel_tol = 2]. *)
Definition example_params (n : Z) : params :=
  {| reg_coef := 1 / 1000; max_iter := n; rel_tol := 2; rot := 10;
     rank_mult := 9 / 10 |}.

(** A one-pixel image whose quaternion is [1 + 2i + 3j + 4k]. *)
Definition one_pixel : tensor := of_pixels 1 1 4 [[[1; 2; 3; 4]]].

(** The first factors [ref_lib] draws for a 2x2 image with seed 0. *)
Definition example_U0 : ndarray C :=
  Arr2 4 2 (fun _ _ => Cadd (RtoC (/ (0 + 2))) (Cmul Ci (RtoC (/ (1 + 2))))).

Definition example_V0 : ndarray C :=
  Arr2 2 4 (fun _ _ => Cadd (RtoC (/ (1 + 1 + 2))) (Cmul Ci (RtoC (/ (1 + 1 + 1 + 2))))).

(** A 2x2 image whose pixels are all the quaternion 1. *)
Definition grey_image : tensor :=
  Arr3 2 2 4 (fun _ _ k => if (k =? 0)%nat then 1 else 0).

(** An N x N image whose pixels are all the quaternion 1, and the mask
    with no pixel missing. *)
Definition grey_square (N : nat) : tensor :=
  Arr3 N N 4 (fun _ _ k => if (k =? 0)%nat then 1 else 0).

Definition all_observed (N : nat) : ndarray bool := full N N true.

(** Parameters with the low threshold [rot = 1/2] and the tolerance
    [rel_tol = 1/100]. *)
Definition keen_params (n : Z) : params :=
  {| reg_coef := 1 / 1000; max_iter := n; rel_tol := 1 / 100; rot := 1 / 2;
     rank_mult := 9 / 10 |}.

(** The entries of the first factors [U] and [V] that [ref_lib] draws
    with seed 0. *)
Definition draw_u : C := Cadd (RtoC (/ (0 + 2))) (Cmul Ci (RtoC (/ (1 + 2)))).
Definition draw_v : C :=
  Cadd (RtoC (/ (1 + 1 + 2))) (Cmul Ci (RtoC (/ (1 + 1 + 1 + 2)))).

(** The quaternions i and j as 1x1 quaternion matrices. *)
Definition quat_i : tensor := of_pixels 1 1 4 [[[0; 1; 0; 0]]].

Definition quat_j : tensor := of_pixels 1 1 4 [[[0; 0; 1; 0]]].

(** A pixel with three channels only, a two-row quaternion matrix and a
    matrix with an odd number of rows. *)
Definition rgb_only : tensor := of_pixels 1 1 3 [[[1; 2; 3]]].

Definition two_pixels : tensor := of_pixels 2 1 4 [[[1; 0; 0; 0]]; [[0; 1; 0; 0]]].

Definition odd_matrix : ndarray C := full 3 2 C0.

(** ** Predicates used in the statements *)

(** The shapes the loop maintains: [X0], the tiled mask and [X] are
    [n] by [m], [V] has [c_rank] rows and [m] columns, and the rank is at
    least 2. *)
Definition shapes_ok (X0 : ndarray C) (mask_c : ndarray bool) (st : loop_state)
           (n m : nat) : Prop :=
  rows X0 = n /\ cols X0 = m /\ rows mask_c = n /\ cols mask_c = m /\
  rows (X st) = n /\ cols (X st) = m /\
  rows (V st) = Z.to_nat (c_rank st) /\ cols (V st) = m /\
  (2 <= c_rank st)%Z.

(** A call of [lrqmc] within its documented domain: an (N, M, 4) image,
    an (N, M) mask, a first rank of at least 2, a seed NumPy accepts, a
    rank multiplier of at most 1 and a non-negative iteration count. *)
Definition valid_call (qmat : tensor) (mask : ndarray bool) (init_rank : option Z)
           (p : params) (random_state : option Z) : Prop :=
  dim2 qmat = 4%nat /\
  rows mask = dim0 qmat /\ cols mask = dim1 qmat /\
  (2 <= initial_rank init_rank (dim0 qmat) (dim1 qmat))%Z /\
  (forall n, random_state = Some n -> (0 <= n < 2 ^ 32)%Z) /\
  rank_mult p <= 1 /\
  (0 <= max_iter p)%Z.

(** The order [np.argmax] goes by on float quotients: the usual order,
    with NaN counted as the largest value. *)
Definition argmax_le (x y : xfloat) : Prop :=
  match x, y with
  | _, NaN => True
  | NaN, _ => False
  | NInf, _ => True
  | _, PInf => True
  | Fin a, Fin b => a <= b
  | _, _ => False
  end.

(** The quotient [eigvs[i] / eigvs[i+1]] of two consecutive eigenvalues,
    and [k] as the index of the largest of these quotients: the first
    one among equals. *)
Definition ratio (eigvs : list R) (i : nat) : xfloat :=
  xdiv (nth i eigvs 0) (nth (i + 1) eigvs 0).

Definition first_largest_ratio (eigvs : list R) (k : nat) : Prop :=
  (k + 1 < length eigvs)%nat /\
  (forall i, (i + 1 < length eigvs)%nat -> argmax_le (ratio eigvs i) (ratio eigvs k)) /\
  (forall i, (i < k)%nat -> ~ argmax_le (ratio eigvs k) (ratio eigvs i)).

(** [x > t] for a float quotient [x]: a finite value above [t], or plus
    infinity. *)
Definition exceeds (x : xfloat) (t : R) : Prop :=
  match x with
  | Fin v => t < v
  | PInf => True
  | NInf | NaN => False
  end.

(** The relative change of the norm at pass [i] is below [tol]: the
    norm before the pass is not zero, and
    [abs(ns[i+1] - ns[i]) / ns[i] < tol]. *)
Definition tolerance_met (ns : list R) (i : nat) (tol : R) : Prop :=
  nth i ns 0 <> 0 /\
  Rabs (nth (i + 1) ns 0 - nth i ns 0) / nth i ns 0 < tol.

(** A matrix whose entries are all zero. *)
Definition all_zero (A : ndarray C) : Prop :=
  forall i j, (i < rows A)%nat -> (j < cols A)%nat -> at2 A i j = C0.

(** ** Notions used to state further properties *)

(** [(X == Y).all()] on 2-d arrays: same shape, same entries. *)
Definition array_equal {A : Type} (P Q : ndarray A) : Prop :=
  rows P = rows Q /\ cols P = cols Q /\
  forall i j, (i < rows P)%nat -> (j < cols P)%nat -> at2 P i j = at2 Q i j.

(** A tensor whose entries are all zero. *)
Definition zero_tensor (Q : tensor) : Prop :=
  forall i j k, (i < dim0 Q)%nat -> (j < dim1 Q)%nat -> (k < dim2 Q)%nat ->
                at3 Q i j k = 0.

(** A quaternion by its four components, the quaternion stored at a
    position of a quaternion matrix, and the Hamilton product written
    out from [i^2 = j^2 = k^2 = ijk = -1]. *)
Definition quat : Type := (R * R * R * R)%type.

Definition pixel (Q : tensor) (i j : nat) : quat :=
  (at3 Q i j 0, at3 Q i j 1, at3 Q i j 2, at3 Q i j 3).

Definition hamilton (p q : quat) : quat :=
  let '(a1, b1, c1, d1) := p in
  let '(a2, b2, c2, d2) := q in
  (a1 * a2 - b1 * b2 - c1 * c2 - d1 * d2,
   a1 * b2 + b1 * a2 + c1 * d2 - d1 * c2,
   a1 * c2 - b1 * d2 + c1 * a2 + d1 * b2,
   a1 * d2 + b1 * c2 - c1 * b2 + d1 * a2).

Definition quat_sum (f : nat -> quat) (n : nat) : quat :=
  (sum_n (fun s => fst (fst (fst (f s)))) n,
   sum_n (fun s => snd (fst (fst (f s)))) n,
   sum_n (fun s => snd (fst (f s))) n,
   sum_n (fun s => snd (f s)) n).

(** The structure [[Qa, Qb], [-conj(Qb), conj(Qa)]] of a matrix of
    [n + n] rows and [m + m] columns: the lower blocks are determined by
    the upper ones. *)
Definition block_conjugate (Cm : ndarray C) (n m : nat) : Prop :=
  forall i j, (i < n)%nat -> (j < m)%nat ->
    at2 Cm (n + i) j = Cneg (Cconj (at2 Cm i (m + j))) /\
    at2 Cm (n + i) (m + j) = Cconj (at2 Cm i j).

(** ** Notions used to follow runs on grey images

    A matrix with one value everywhere, and the embedding of a square
    image whose pixels are all the quaternion 1: ones in the two
    diagonal blocks, zeros in the others. *)
Definition constant (A : ndarray C) (c : C) : Prop :=
  forall i j, (i < rows A)%nat -> (j < cols A)%nat -> at2 A i j = c.

Definition grey_pattern (N : nat) (A : ndarray C) : Prop :=
  rows A = (N + N)%nat /\ cols A = (N + N)%nat /\
  forall i j, (i < N)%nat -> (j < N)%nat ->
    at2 A i j = mkC 1 0 /\ at2 A i (N + j) = C0 /\
    at2 A (N + i) j = C0 /\ at2 A (N + i) (N + j) = mkC 1 0.

(** With [ref_lib], the factor fitted to the embedding of an N x N grey
    image and a constant factor [b] is again constant, with the value
    [next_factor N lam b]; [gain] is the square of its modulus as a
    function of that of [b], and [estimate] is the entry of the product
    of a constant factor of [r] columns with the factor fitted to it. *)
Definition next_factor (N : nat) (lam : R) (b : C) : C :=
  mkC (INR N * Re b / (2 * INR N * Cabs2 b + lam))
      (- (INR N * Im b) / (2 * INR N * Cabs2 b + lam)).

Definition gain (N : nat) (lam s : R) : R :=
  INR N * INR N * s / ((2 * INR N * s + lam) * (2 * INR N * s + lam)).

Definition estimate (N : nat) (lam : R) (r : nat) (a : C) : R :=
  INR r * (INR N * Cabs2 a) / (2 * INR N * Cabs2 a + lam).

(** A quaternion matrix with two rows and one with a 3x2 mask, for
    examples. *)
Definition two_by_two : tensor :=
  of_pixels 2 2 4 [[[1; 2; 3; 4]; [0; 1; 0; -1]]; [[2; 0; 0; 1]; [-1; 1; 1; 0]]].

Definition wide_mask : ndarray bool := full 3 2 true.

Definition structured_matrix : ndarray C :=
  of_rows C0 2 2 [[mkC 1 2; mkC 3 4]; [mkC (-3) 4; mkC 1 (-2)]].

(** * Properties *)

(** ** Arithmetic of sums and complex numbers *)

Lemma sum_n_ext (f g : nat -> R) (n : nat) :
  (forall i, (i < n)%nat -> f i = g i) -> sum_n f n = sum_n g n.
Proof.
  induction n as [|n IH]; intros Hfg; simpl; [reflexivity|].
  rewrite IH by (intros; apply Hfg; lia).
  rewrite Hfg by lia. reflexivity.
Qed.

Lemma sum_n_app (f : nat -> R) (n m : nat) :
  sum_n f (n + m) = sum_n f n + sum_n (fun i => f (n + i)%nat) m.
Proof.
  induction m as [|m IH]; simpl.
  - rewrite Nat.add_0_r. lra.
  - rewrite Nat.add_succ_r. simpl. rewrite IH. lra.
Qed.

Lemma sum_n_plus (f g : nat -> R) (n : nat) :
  sum_n (fun i => f i + g i) n = sum_n f n + sum_n g n.
Proof.
  induction n as [|n IH]; simpl; [lra|]. rewrite IH. lra.
Qed.

Lemma sum_n_nonneg (f : nat -> R) (n : nat) :
  (forall i, 0 <= f i) -> 0 <= sum_n f n.
Proof.
  intros Hf. induction n as [|n IH]; simpl; [lra|].
  specialize (Hf n). lra.
Qed.

Lemma sum_n_zero (f : nat -> R) (n : nat) :
  (forall i, (i < n)%nat -> f i = 0) -> sum_n f n = 0.
Proof.
  induction n as [|n IH]; intros Hf; simpl; [reflexivity|].
  rewrite IH by (intros; apply Hf; lia). rewrite Hf by lia. lra.
Qed.

Lemma Cabs2_nonneg (z : C) : 0 <= Cabs2 z.
Proof. unfold Cabs2. nra. Qed.

Lemma C_eq (a b : C) : Re a = Re b -> Im a = Im b -> a = b.
Proof. destruct a, b; simpl; intros; subst; reflexivity. Qed.

(** ** Shapes *)

Lemma bshape_same (a : nat) : bshape a a = Some a.
Proof. unfold bshape. rewrite Nat.eqb_refl. reflexivity. Qed.

Lemma bidx_lt (len i : nat) : (i < len)%nat -> bidx len i = i.
Proof.
  unfold bidx. intros Hi. destruct (Nat.eqb_spec len 1); [lia|reflexivity].
Qed.

Lemma zip_with_same {A B D : Type} (f : A -> B -> D) (P : ndarray A) (Q : ndarray B) :
  rows P = rows Q -> cols P = cols Q ->
  zip_with f P Q =
  Ok (Arr2 (rows P) (cols P)
           (fun i j => f (at2 P (bidx (rows P) i) (bidx (cols P) j))
                         (at2 Q (bidx (rows P) i) (bidx (cols P) j)))).
Proof.
  intros Hr Hc. unfold zip_with. rewrite <- Hr, <- Hc, !bshape_same. reflexivity.
Qed.

Ltac inv_bind H :=
  match type of H with
  | bind ?m _ = Ok _ =>
      let E := fresh "E" in
      destruct m eqn:E; simpl in H; [|discriminate H]
  end.

Tactic Notation "open_bind" hyp(H) "as" ident(E) simple_intropattern(pat) :=
  match type of H with
  | bind ?m _ = Ok _ =>
      destruct m as [pat|] eqn:E; cbn [bind] in H; [|discriminate H]
  end.

(** ** The embedding and its inverse *)

(** The complex matrix [qm2cm] builds, entry by entry. *)
Lemma qm2cm_ok (Q : tensor) (mask : option (ndarray bool)) :
  dim2 Q = 4%nat ->
  exists Cm,
    qm2cm Q mask = Ok (Cm, match mask with
                           | None => None
                           | Some m => Some (tile m 2 2)
                           end) /\
    rows Cm = (dim0 Q + dim0 Q)%nat /\ cols Cm = (dim1 Q + dim1 Q)%nat /\
    forall i j, (i < dim0 Q)%nat -> (j < dim1 Q)%nat ->
      at2 Cm i j = mkC (at3 Q i j 0) (at3 Q i j 1) /\
      at2 Cm i (dim1 Q + j) = mkC (at3 Q i j 2) (at3 Q i j 3) /\
      at2 Cm (dim0 Q + i) j = mkC (- at3 Q i j 2) (at3 Q i j 3) /\
      at2 Cm (dim0 Q + i) (dim1 Q + j) = mkC (at3 Q i j 0) (- at3 Q i j 1).
Proof.
  intros H4. unfold qm2cm. rewrite H4. simpl negb. cbv iota.
  rewrite !zip_with_same by reflexivity. simpl bind.
  unfold hstack. simpl rows. simpl cols. rewrite !Nat.eqb_refl. simpl bind.
  unfold vstack. simpl rows. simpl cols. rewrite !Nat.eqb_refl. simpl bind.
  eexists. split; [reflexivity|]. simpl.
  split; [reflexivity|]. split; [reflexivity|].
  intros i j Hi Hj.
  assert (Hi1 : (i <? dim0 Q)%nat = true) by (apply Nat.ltb_lt; lia).
  assert (Hj1 : (j <? dim1 Q)%nat = true) by (apply Nat.ltb_lt; lia).
  assert (Hi2 : (dim0 Q + i <? dim0 Q)%nat = false) by (apply Nat.ltb_ge; lia).
  assert (Hj2 : (dim1 Q + j <? dim1 Q)%nat = false) by (apply Nat.ltb_ge; lia).
  rewrite Hi1, Hj1, Hi2, Hj2.
  replace (dim0 Q + i - dim0 Q)%nat with i by lia.
  replace (dim1 Q + j - dim1 Q)%nat with j by lia.
  rewrite !(bidx_lt _ i) by lia. rewrite !(bidx_lt _ j) by lia.
  repeat split; apply C_eq; simpl; lra.
Qed.

Lemma double_mod2 (n : nat) : ((n + n) mod 2 =? 0)%nat = true.
Proof.
  apply Nat.eqb_eq. replace (n + n)%nat with (n * 2)%nat by lia.
  apply Nat.Div0.mod_mul.
Qed.

Lemma double_div2 (n : nat) : ((n + n) / 2)%nat = n.
Proof.
  replace (n + n)%nat with (n * 2)%nat by lia. apply Nat.div_mul. lia.
Qed.

(** What [cm2qm] returns on a matrix with an even number of rows and of
    columns. *)
Lemma cm2qm_ok (Cm : ndarray C) (n m : nat) :
  rows Cm = (n + n)%nat -> cols Cm = (m + m)%nat ->
  exists Q,
    cm2qm Cm = Ok Q /\ dim0 Q = n /\ dim1 Q = m /\ dim2 Q = 4%nat /\
    forall i j,
      at3 Q i j 0 = Re (at2 Cm i j) /\ at3 Q i j 1 = Im (at2 Cm i j) /\
      at3 Q i j 2 = Re (at2 Cm i (m + j)) /\ at3 Q i j 3 = Im (at2 Cm i (m + j)).
Proof.
  intros Hr Hc. unfold cm2qm. rewrite Hr, Hc, !double_mod2, !double_div2.
  simpl orb. cbv iota.
  unfold stack4, same_shape, slice_tl, slice_tr, amap. simpl rows. simpl cols.
  rewrite Hr, Hc.
  replace (Nat.min n (n + n)) with n by lia.
  replace (Nat.min m (m + m)) with m by lia.
  replace (m + m - m)%nat with m by lia.
  rewrite !Nat.eqb_refl. simpl andb. cbv iota.
  eexists. split; [reflexivity|]. simpl.
  repeat split; reflexivity.
Qed.

(** C7: for a quaternion matrix [Q] of shape (N, M, 4), [qm2cm] succeeds,
    [cm2qm] succeeds on the complex matrix it returns, and the result
    has the shape and the entries of [Q]:
    [cm2qm(qm2cm(Q)[0]) == Q] over the reals. *)
Theorem cm2qm_qm2cm_roundtrip (Q : tensor) (mask : option (ndarray bool)) :
  dim2 Q = 4%nat ->
  exists Cm mc Q',
    qm2cm Q mask = Ok (Cm, mc) /\ cm2qm Cm = Ok Q' /\ tensor_equal Q' Q.
Proof.
  intros H4.
  destruct (qm2cm_ok Q mask H4) as (Cm & Hq & Hr & Hc & Hat).
  destruct (cm2qm_ok Cm _ _ Hr Hc) as (Q' & Hc2 & Hd0 & Hd1 & Hd2 & Hat').
  exists Cm, (match mask with None => None | Some m => Some (tile m 2 2) end), Q'.
  split; [exact Hq|]. split; [exact Hc2|].
  unfold tensor_equal. rewrite Hd0, Hd1, Hd2, H4.
  repeat split; try reflexivity.
  intros i j k Hi Hj Hk.
  destruct (Hat i j Hi Hj) as (Ha & Hb & _ & _).
  destruct (Hat' i j) as (H0 & H1 & H2 & H3).
  destruct k as [|[|[|[|k]]]]; [| | | |lia].
  - rewrite H0, Ha. reflexivity.
  - rewrite H1, Ha. reflexivity.
  - rewrite H2, Hb. reflexivity.
  - rewrite H3, Hb. reflexivity.
Qed.

Lemma cm2qm_qm2cm_roundtrip_witness :
  exists Cm mc Q',
    qm2cm one_pixel None = Ok (Cm, mc) /\ cm2qm Cm = Ok Q' /\
    tensor_equal Q' one_pixel.
Proof. apply (cm2qm_qm2cm_roundtrip one_pixel None). reflexivity. Defined.

(** The squared Frobenius norm of the embedding is twice that of the
    quaternion matrix. *)
Lemma embedding_sum_squares (Q : tensor) (Cm : ndarray C) :
  dim2 Q = 4%nat ->
  rows Cm = (dim0 Q + dim0 Q)%nat -> cols Cm = (dim1 Q + dim1 Q)%nat ->
  (forall i j, (i < dim0 Q)%nat -> (j < dim1 Q)%nat ->
      at2 Cm i j = mkC (at3 Q i j 0) (at3 Q i j 1) /\
      at2 Cm i (dim1 Q + j) = mkC (at3 Q i j 2) (at3 Q i j 3) /\
      at2 Cm (dim0 Q + i) j = mkC (- at3 Q i j 2) (at3 Q i j 3) /\
      at2 Cm (dim0 Q + i) (dim1 Q + j) = mkC (at3 Q i j 0) (- at3 Q i j 1)) ->
  sum_n (fun i => sum_n (fun j => Cabs2 (at2 Cm i j)) (cols Cm)) (rows Cm)
  = 2 * tsum (tmap (fun x => x ^ 2) Q).
Proof.
  intros H4 Hr Hc Hat. rewrite Hr, Hc. unfold tsum, tmap.
  cbn [dim0 dim1 dim2 at3]. rewrite H4.
  rewrite sum_n_app.
  set (row := fun i => sum_n (fun j => sum_n (fun k => at3 Q i j k ^ 2) 4) (dim1 Q)).
  assert (Htop : forall i, (i < dim0 Q)%nat ->
            sum_n (fun j => Cabs2 (at2 Cm i j)) (dim1 Q + dim1 Q) = row i).
  { intros i Hi. rewrite sum_n_app, <- sum_n_plus. apply sum_n_ext.
    intros j Hj. destruct (Hat i j Hi Hj) as (Ha & Hb & _ & _).
    rewrite Ha, Hb. unfold Cabs2. simpl. lra. }
  assert (Hbot : forall i, (i < dim0 Q)%nat ->
            sum_n (fun j => Cabs2 (at2 Cm (dim0 Q + i) j)) (dim1 Q + dim1 Q) = row i).
  { intros i Hi. rewrite sum_n_app, <- sum_n_plus. apply sum_n_ext.
    intros j Hj. destruct (Hat i j Hi Hj) as (_ & _ & Ha & Hb).
    rewrite Ha, Hb. unfold Cabs2. simpl. lra. }
  rewrite (sum_n_ext _ row) by exact Htop.
  rewrite (sum_n_ext (fun i => sum_n _ (dim1 Q + dim1 Q)) row) by exact Hbot.
  fold row. lra.
Qed.

(** C8: for a quaternion matrix [Q] of shape (N, M, 4),
    [frobenius_norm(Q)] is the Frobenius norm of the complex matrix
    [qm2cm(Q)[0]] divided by [sqrt 2], over the reals. *)
Theorem frobenius_norm_embedding (Q : tensor) (mask : option (ndarray bool)) :
  dim2 Q = 4%nat ->
  exists Cm mc nq,
    qm2cm Q mask = Ok (Cm, mc) /\ frobenius_norm Q = Ok nq /\
    nq = linalg_norm Cm / sqrt 2.
Proof.
  intros H4.
  destruct (qm2cm_ok Q mask H4) as (Cm & Hq & Hr & Hc & Hat).
  exists Cm, (match mask with None => None | Some m => Some (tile m 2 2) end).
  eexists. split; [exact Hq|].
  unfold frobenius_norm. rewrite H4. simpl negb. cbv iota.
  split; [reflexivity|].
  unfold linalg_norm. rewrite (embedding_sum_squares Q Cm H4 Hr Hc Hat).
  rewrite sqrt_mult_alt by lra.
  assert (Hs : 0 < sqrt 2) by (apply sqrt_lt_R0; lra).
  field. lra.
Qed.

Lemma frobenius_norm_embedding_witness :
  exists Cm mc nq,
    qm2cm one_pixel None = Ok (Cm, mc) /\ frobenius_norm one_pixel = Ok nq /\
    nq = linalg_norm Cm / sqrt 2.
Proof. apply (frobenius_norm_embedding one_pixel None). reflexivity. Defined.

(** C9: a tensor whose last axis is not of length 4 makes [conjugate],
    [frobenius_norm], [qm2cm] and [qdot] (in either argument) raise
    [ValueError]; [qdot] raises [ValueError] when the column count of
    its first argument differs from the row count of the second; [cm2qm]
    raises [ValueError] on a matrix with an odd number of rows or of
    columns.  No value is returned in any of these cases. *)
Theorem shape_errors (Q Q' : tensor) (mask : option (ndarray bool)) (Cm : ndarray C) :
  (dim2 Q <> 4%nat ->
     conjugate Q = Raise ValueError /\
     frobenius_norm Q = Raise ValueError /\
     qm2cm Q mask = Raise ValueError /\
     qdot Q Q' = Raise ValueError /\
     qdot Q' Q = Raise ValueError) /\
  (dim1 Q <> dim0 Q' -> qdot Q Q' = Raise ValueError) /\
  (Nat.odd (rows Cm) = true \/ Nat.odd (cols Cm) = true ->
     cm2qm Cm = Raise ValueError).
Proof.
  split; [|split].
  - intros H4. apply Nat.eqb_neq in H4.
    unfold conjugate, frobenius_norm, qm2cm, qdot. rewrite H4. simpl.
    repeat split; try reflexivity.
    destruct (dim2 Q' =? 4)%nat; reflexivity.
  - intros Hm. apply Nat.eqb_neq in Hm. unfold qdot. rewrite Hm. simpl.
    rewrite orb_true_r. reflexivity.
  - intros Hodd. unfold cm2qm.
    assert (Hb : forall n, Nat.odd n = true -> (n mod 2 =? 0)%nat = false).
    { intros n Hn. apply Nat.odd_spec in Hn. destruct Hn as [h ->].
      apply Nat.eqb_neq. replace (2 * h + 1)%nat with (1 + h * 2)%nat by lia.
      rewrite Nat.Div0.mod_add. simpl. lia. }
    destruct Hodd as [Ho|Ho]; rewrite (Hb _ Ho); simpl;
      [|rewrite orb_true_r]; reflexivity.
Qed.

Lemma shape_errors_witness :
  (conjugate rgb_only = Raise ValueError /\
   frobenius_norm rgb_only = Raise ValueError /\
   qm2cm rgb_only None = Raise ValueError /\
   qdot rgb_only two_pixels = Raise ValueError /\
   qdot two_pixels rgb_only = Raise ValueError) /\
  qdot rgb_only two_pixels = Raise ValueError /\
  cm2qm odd_matrix = Raise ValueError.
Proof.
  destruct (shape_errors rgb_only two_pixels None odd_matrix) as (H1 & H2 & H3).
  split; [apply H1; simpl; lia|].
  split; [apply H2; simpl; lia|].
  apply H3. left. reflexivity.
Defined.

(** ** Quaternion algebra: checks *)

(** Conjugating twice gives the matrix back. *)
Lemma conjugate_involution (Q : tensor) :
  dim2 Q = 4%nat ->
  exists Q1 Q2, conjugate Q = Ok Q1 /\ conjugate Q1 = Ok Q2 /\ tensor_equal Q2 Q.
Proof.
  intros H4. unfold conjugate, concatenate2. rewrite H4.
  cbn [negb Nat.eqb dim0 dim1 dim2 upto2 from2 tmap]. rewrite !Nat.eqb_refl.
  cbn [andb]. eexists. eexists. split; [reflexivity|].
  rewrite H4. cbn [Nat.min Nat.sub Nat.add Nat.eqb negb dim0 dim1 dim2].
  rewrite !Nat.eqb_refl. cbn [andb]. split; [reflexivity|].
  unfold tensor_equal. cbn [dim0 dim1 dim2 at3]. rewrite H4.
  repeat split; try reflexivity.
  intros i j k _ _ Hk.
  destruct k as [|[|[|[|k]]]]; [| | | |lia]; simpl; lra.
Qed.

(** The Hamilton product: i times j is k. *)
Lemma qdot_i_j :
  exists Q, qdot quat_i quat_j = Ok Q /\
            at3 Q 0 0 0 = 0 /\ at3 Q 0 0 1 = 0 /\ at3 Q 0 0 2 = 0 /\ at3 Q 0 0 3 = 1.
Proof.
  eexists. split; [reflexivity|]. simpl. repeat split; lra.
Qed.

(** ** The first rank *)

(** C3 as stated fails: with [init_rank = 1] on a 4x4 image the rank
    used is 1, which is neither 2 nor inside [2, 4]. *)
Lemma initial_rank_below_two :
  initial_rank (Some 1%Z) 4 4 = 1%Z /\
  ~ (2 <= initial_rank (Some 1%Z) 4 4 <= Z.of_nat (Nat.min 4 4))%Z.
Proof. split; [reflexivity|]. simpl. lia. Qed.

(** C3, amended: the first rank never exceeds min(N, M); it is the
    supplied [init_rank] whenever that lies in [2, min(N, M)], and it is
    min(N, M) whenever [init_rank] is absent ([None] or 0) or greater
    than min(N, M); hence it lies in [2, min(N, M)] whenever
    min(N, M) >= 2 and [init_rank] is absent, 0 or at least 2. *)
Theorem initial_rank_spec (init_rank : option Z) (N M : nat) :
  let m := Z.of_nat (Nat.min N M) in
  (initial_rank init_rank N M <= m)%Z /\
  (forall r, init_rank = Some r -> (2 <= r <= m)%Z ->
             initial_rank init_rank N M = r) /\
  (init_rank = None \/ init_rank = Some 0%Z \/
   (exists r, init_rank = Some r /\ (m < r)%Z) ->
   initial_rank init_rank N M = m) /\
  ((2 <= m)%Z ->
   init_rank = None \/ (exists r, init_rank = Some r /\ (r = 0 \/ 2 <= r)%Z) ->
   (2 <= initial_rank init_rank N M <= m)%Z).
Proof.
  intros m. unfold initial_rank. fold m.
  repeat split.
  - destruct init_rank as [r|]; [|lia].
    destruct (Z.eqb_spec r 0), (Z.ltb_spec m r); simpl; lia.
  - intros r -> Hr.
    destruct (Z.eqb_spec r 0), (Z.ltb_spec m r); simpl; lia.
  - intros [->|[->|(r & -> & Hr)]]; try reflexivity.
    destruct (Z.eqb_spec r 0), (Z.ltb_spec m r); simpl; lia.
  - destruct H0 as [->|(r & -> & Hr)]; [lia|].
    destruct (Z.eqb_spec r 0), (Z.ltb_spec m r); simpl; lia.
  - destruct H0 as [->|(r & -> & Hr)]; [lia|].
    destruct (Z.eqb_spec r 0), (Z.ltb_spec m r); simpl; lia.
Qed.

Lemma initial_rank_spec_witness :
  initial_rank (Some 3%Z) 4 5 = 3%Z /\ initial_rank None 4 5 = 4%Z /\
  initial_rank (Some 9%Z) 4 5 = 4%Z /\ (2 <= initial_rank (Some 0%Z) 4 5 <= 4)%Z.
Proof.
  split; [apply (initial_rank_spec (Some 3%Z) 4 5); [reflexivity|simpl; lia]|].
  split; [apply (initial_rank_spec None 4 5); left; reflexivity|].
  split; [apply (initial_rank_spec (Some 9%Z) 4 5); right; right;
          exists 9%Z; split; [reflexivity|simpl; lia]|].
  apply (initial_rank_spec (Some 0%Z) 4 5); [simpl; lia|].
  right. exists 0%Z. split; [reflexivity|lia].
Defined.

(** ** Seeding *)

(** C10: with an integer seed, the first factors and the state the
    generator is left in do not depend on the state of the global
    generator before the call nor on the operating system's entropy:
    they are a function of the seed and the shapes.  The same holds for
    everything [lrqmc] returns. *)
Theorem seeded_run_deterministic (L : NumLib) (g1 g2 os1 os2 : rng L) (n : Z) :
  (forall N M r,
      init_factors L g1 os1 (Some n) N M r = init_factors L g2 os2 (Some n) N M r) /\
  (forall fuel qmat mask init_rank p,
      lrqmc_run L fuel g1 os1 qmat mask init_rank p (Some n)
      = lrqmc_run L fuel g2 os2 qmat mask init_rank p (Some n)) /\
  (forall fuel qmat mask init_rank p return_norms,
      lrqmc L fuel g1 os1 qmat mask init_rank p return_norms (Some n)
      = lrqmc L fuel g2 os2 qmat mask init_rank p return_norms (Some n)).
Proof.
  assert (Hinit : forall N M r,
             init_factors L g1 os1 (Some n) N M r
             = init_factors L g2 os2 (Some n) N M r) by reflexivity.
  assert (Hrun : forall fuel qmat mask init_rank p,
             lrqmc_run L fuel g1 os1 qmat mask init_rank p (Some n)
             = lrqmc_run L fuel g2 os2 qmat mask init_rank p (Some n)).
  { intros. unfold lrqmc_run, prepare. rewrite Hinit. reflexivity. }
  split; [exact Hinit|]. split; [exact Hrun|].
  intros. unfold lrqmc. rewrite Hrun. reflexivity.
Qed.

(** Without a seed the first factors do depend on the entropy. *)
Lemma unseeded_run_depends_on_entropy :
  init_factors ref_lib 0%nat 0%nat None 1 1 1
  <> init_factors ref_lib 0%nat 1%nat None 1 1 1.
Proof.
  unfold init_factors, np_random_seed, random_complex, np_random_uniform.
  simpl. intros H. inversion H.
Qed.

(** ** Lists of eigenvalues and norms *)

Lemma insert_sorted_length (x : R) (l : list R) :
  length (insert_sorted x l) = S (length l).
Proof.
  induction l as [|y t IH]; simpl; [reflexivity|].
  destruct (Rle_dec x y); simpl; [reflexivity|]. rewrite IH. reflexivity.
Qed.

Lemma np_sort_length (l : list R) : length (np_sort l) = length l.
Proof.
  induction l as [|x t IH]; simpl; [reflexivity|].
  rewrite insert_sorted_length, IH. reflexivity.
Qed.

Lemma argmax_le_refl (x : xfloat) : argmax_le x x.
Proof. destruct x; simpl; try exact I. lra. Qed.

Lemma argmax_le_trans (x y z : xfloat) :
  argmax_le x y -> argmax_le y z -> argmax_le x z.
Proof. destruct x, y, z; simpl; try tauto. lra. Qed.

Lemma argmax_le_total (x y : xfloat) : argmax_le x y \/ argmax_le y x.
Proof. destruct x, y; simpl; try tauto. lra. Qed.

Lemma xle_argmax_le (x y : xfloat) : xle x y = true -> argmax_le x y.
Proof.
  destruct x, y; simpl; try discriminate; try tauto.
  destruct (Rle_dec x x0); [tauto|discriminate].
Qed.

Lemma xle_false (x y : xfloat) :
  xle x y = false -> y <> NaN -> ~ argmax_le x y.
Proof.
  destruct x, y; simpl; try discriminate; try tauto.
  destruct (Rle_dec x x0); [discriminate|tauto].
Qed.

Lemma argmax_from_bound (l : list xfloat) (best : xfloat) (bi i : nat) :
  (bi < i)%nat -> (argmax_from best bi i l < i + length l)%nat.
Proof.
  revert best bi i. induction l as [|x t IH]; intros best bi i Hb; simpl; [lia|].
  destruct (xle x best); [specialize (IH best bi (S i)); lia|].
  destruct (isnan x); [lia|]. specialize (IH x i (S i)). lia.
Qed.

Lemma argmax_ok (l : list xfloat) :
  l <> [] -> exists k, argmax l = Ok k /\ (k < length l)%nat.
Proof.
  destruct l as [|x t]; [congruence|]. intros _. simpl.
  destruct (isnan x); eexists; (split; [reflexivity|]); [lia|].
  pose proof (argmax_from_bound t x 0 1). lia.
Qed.

Lemma argmax_inv (l : list xfloat) (k : nat) :
  argmax l = Ok k -> (k < length l)%nat.
Proof.
  destruct l as [|x t]; simpl; [discriminate|].
  destruct (isnan x); intros H; inversion H; [lia|].
  pose proof (argmax_from_bound t x 0 1). lia.
Qed.

Lemma isnan_false (x : xfloat) : isnan x = false -> x <> NaN.
Proof. destruct x; simpl; congruence. Qed.

Lemma argmax_from_spec (l : list xfloat) :
  forall best bi i, best <> NaN ->
    let r := argmax_from best bi i l in
    (r = bi /\ Forall (fun x => argmax_le x best) l) \/
    ((i <= r < i + length l)%nat /\
     ~ argmax_le (nth (r - i) l NaN) best /\
     Forall (fun x => argmax_le x (nth (r - i) l NaN)) l /\
     forall j, (j < r - i)%nat -> ~ argmax_le (nth (r - i) l NaN) (nth j l NaN)).
Proof.
  induction l as [|x t IH]; intros best bi i Hbest; simpl.
  - left. split; [reflexivity|constructor].
  - destruct (xle x best) eqn:Hle.
    + apply xle_argmax_le in Hle.
      destruct (IH best bi (S i) Hbest) as [[Hr Hall]|(Hr & Hb & Hall & Hfirst)].
      * left. split; [exact Hr|]. constructor; assumption.
      * right.
        replace (argmax_from best bi (S i) t - i)%nat
          with (S (argmax_from best bi (S i) t - S i)) by lia.
        simpl. split; [lia|]. split; [exact Hb|]. split.
        -- constructor; [|exact Hall].
           destruct (argmax_le_total best (nth (argmax_from best bi (S i) t - S i) t NaN))
             as [H|H]; [|contradiction].
           eapply argmax_le_trans; eassumption.
        -- intros [|j] Hj.
           ++ intros H. apply Hb. eapply argmax_le_trans; eassumption.
           ++ apply Hfirst. lia.
    + apply xle_false in Hle; [|exact Hbest].
      destruct (isnan x) eqn:Hnan.
      * right. rewrite Nat.sub_diag. simpl.
        destruct x; try discriminate.
        split; [lia|]. split; [exact Hle|]. split.
        -- constructor; [exact I|]. apply Forall_forall. intros y _.
           destruct y; exact I.
        -- intros j Hj. lia.
      * apply isnan_false in Hnan.
        destruct (IH x i (S i) Hnan) as [[Hr Hall]|(Hr & Hb & Hall & Hfirst)].
        -- right. rewrite Hr, Nat.sub_diag. simpl.
           split; [lia|]. split; [exact Hle|]. split.
           ++ constructor; [apply argmax_le_refl|exact Hall].
           ++ intros j Hj. lia.
        -- right.
           replace (argmax_from x i (S i) t - i)%nat
             with (S (argmax_from x i (S i) t - S i)) by lia.
           simpl.
           set (m := nth (argmax_from x i (S i) t - S i) t NaN) in *.
           assert (Hxm : argmax_le x m)
             by (destruct (argmax_le_total x m) as [H|H]; [exact H|contradiction]).
           split; [lia|]. split.
           ++ intros H. apply Hle. eapply argmax_le_trans; eassumption.
           ++ split; [constructor; assumption|].
              intros [|j] Hj; [exact Hb|]. apply Hfirst. lia.
Qed.

Lemma argmax_spec (l : list xfloat) (k : nat) :
  argmax l = Ok k ->
  (k < length l)%nat /\
  (forall i, (i < length l)%nat -> argmax_le (nth i l NaN) (nth k l NaN)) /\
  (forall i, (i < k)%nat -> ~ argmax_le (nth k l NaN) (nth i l NaN)).
Proof.
  destruct l as [|x t]; simpl; [discriminate|].
  destruct (isnan x) eqn:Hnan; intros H; inversion H as [Hk].
  - destruct x; try discriminate. split; [lia|]. split.
    + intros i _. destruct i; [exact I|]. destruct (nth i t NaN); exact I.
    + intros i Hi. lia.
  - apply isnan_false in Hnan.
    destruct (argmax_from_spec t x 0%nat 1%nat Hnan) as [[Hr Hall]|(Hr & Hb & Hall & Hfirst)].
    + rewrite Hr. split; [lia|]. split; [|intros i Hi; lia].
      intros [|i] Hi; [apply argmax_le_refl|].
      rewrite Forall_forall in Hall. apply Hall. apply nth_In. lia.
    + split; [lia|].
      destruct (argmax_from x 0 1 t) as [|r] eqn:Er; [lia|].
      simpl in Hb, Hall, Hfirst. rewrite Nat.sub_0_r in Hb, Hall, Hfirst.
      set (m := nth r t NaN) in *.
      assert (Hxm : argmax_le x m)
        by (destruct (argmax_le_total x m) as [H0|H0]; [exact H0|contradiction]).
      split.
      * intros [|i] Hi; [exact Hxm|].
        rewrite Forall_forall in Hall. apply Hall. apply nth_In. lia.
      * intros [|i] Hi; [exact Hb|]. apply Hfirst. lia.
Qed.

(** [np_sort] returns an ascending list. *)
Lemma insert_sorted_sorted (x : R) (l : list R) :
  Sorted Rle l -> Sorted Rle (insert_sorted x l).
Proof.
  induction l as [|y t IH]; intros Hs; simpl.
  - repeat constructor.
  - destruct (Rle_dec x y) as [Hle|Hgt].
    + constructor; [exact Hs|constructor; exact Hle].
    + inversion Hs as [|? ? Ht Hhd]; subst.
      constructor; [apply IH; exact Ht|].
      destruct t as [|z t']; simpl.
      * constructor. lra.
      * destruct (Rle_dec x z); constructor; try lra.
        inversion Hhd; subst. assumption.
Qed.

Lemma np_sort_sorted (l : list R) : Sorted Rle (np_sort l).
Proof.
  induction l as [|x t IH]; simpl; [constructor|].
  apply insert_sorted_sorted. exact IH.
Qed.

Lemma removelast_length (l : list R) : length (removelast l) = (length l - 1)%nat.
Proof.
  induction l as [|x t IH]; [reflexivity|].
  destruct t as [|y t']; [reflexivity|].
  change (length (x :: removelast (y :: t')) = (length (x :: y :: t') - 1)%nat).
  simpl length in *. lia.
Qed.

Lemma quots_length (l : list R) :
  length (div_list (removelast l) (tl l)) = (length l - 1)%nat.
Proof.
  unfold div_list. rewrite length_map, length_combine, removelast_length.
  destruct l; simpl; lia.
Qed.

Lemma removelast_nth (l : list R) (i : nat) :
  (i + 1 < length l)%nat -> nth i (removelast l) 0 = nth i l 0.
Proof.
  revert i. induction l as [|x t IH]; intros i Hi; [simpl in Hi; lia|].
  destruct t as [|y t']; [simpl in Hi; lia|].
  change (nth i (x :: removelast (y :: t')) 0 = nth i (x :: y :: t') 0).
  destruct i as [|i]; [reflexivity|]. cbn [nth]. apply IH. simpl in *. lia.
Qed.

(** The quotients [eigvs[:-1]/eigvs[1:]], entry by entry. *)
Lemma quots_nth (l : list R) (i : nat) :
  (i + 1 < length l)%nat ->
  nth i (div_list (removelast l) (tl l)) NaN = ratio l i.
Proof.
  intros Hi. unfold div_list, ratio.
  assert (Hlen : (i < length (combine (removelast l) (tl l)))%nat).
  { rewrite length_combine, removelast_length. destruct l; simpl in *; lia. }
  rewrite (nth_indep _ NaN (xdiv (fst (0, 0)) (snd (0, 0))))
    by (rewrite length_map; exact Hlen).
  rewrite (map_nth (fun p => xdiv (fst p) (snd p))).
  rewrite combine_nth by (rewrite removelast_length; destruct l; simpl; lia).
  simpl fst. simpl snd. rewrite removelast_nth by exact Hi.
  replace (i + 1)%nat with (S i) by lia.
  destruct l; [simpl in Hi; lia|]. reflexivity.
Qed.

Lemma argmax_quots (l : list R) (k : nat) :
  argmax (div_list (removelast l) (tl l)) = Ok k -> first_largest_ratio l k.
Proof.
  intros H. destruct (argmax_spec _ _ H) as (Hk & Hall & Hfirst).
  rewrite quots_length in Hk, Hall.
  unfold first_largest_ratio. split; [lia|]. split.
  - intros i Hi. rewrite <- !quots_nth by lia. apply Hall. lia.
  - intros i Hi. rewrite <- !quots_nth by lia. apply Hfirst. exact Hi.
Qed.

Lemma list_set_length (l : list R) (i : nat) (v : R) :
  length (list_set l i v) = length l.
Proof.
  revert i. induction l as [|x t IH]; intros [|i]; simpl; try reflexivity.
  rewrite IH. reflexivity.
Qed.

Lemma list_set_same (l : list R) (i : nat) (v : R) :
  (i < length l)%nat -> nth i (list_set l i v) 0 = v.
Proof.
  revert i. induction l as [|x t IH]; intros [|i]; simpl; intros Hi; try lia.
  - reflexivity.
  - apply IH. lia.
Qed.

Lemma list_set_other (l : list R) (i j : nat) (v : R) :
  i <> j -> nth j (list_set l i v) 0 = nth j l 0.
Proof.
  revert i j. induction l as [|x t IH]; intros [|i] [|j]; simpl; intros Hij;
    try reflexivity; try lia.
  apply IH. lia.
Qed.

(** Writing entry [i] of a list whose entries from [i] on are zero. *)
Lemma list_set_app (pre : list R) (k : nat) (v : R) :
  list_set (pre ++ repeat 0 (S k)) (length pre) v = (pre ++ [v]) ++ repeat 0 k.
Proof.
  induction pre as [|x t IH]; [reflexivity|].
  cbn [app length list_set]. f_equal. exact IH.
Qed.

Lemma set_item_inv (l l' : list R) (i : nat) (v : R) :
  set_item l i v = Ok l' -> (i < length l)%nat /\ l' = list_set l i v.
Proof.
  unfold set_item. destruct (Nat.ltb_spec i (length l)) as [Hlt|Hge];
    intros Heq; inversion Heq.
  split; [assumption|reflexivity].
Qed.

Lemma set_item_past_end (l : list R) (i : nat) (v : R) :
  (length l <= i)%nat -> set_item l i v = Raise IndexError.
Proof.
  unfold set_item. intros H. destruct (Nat.ltb_spec i (length l)); [lia|reflexivity].
Qed.

(** ** Shapes of products, sums and slices *)

Lemma dot_ok (A B : ndarray C) :
  cols A = rows B ->
  exists M, dot A B = Ok M /\ rows M = rows A /\ cols M = cols B.
Proof.
  intros H. unfold dot. rewrite H, Nat.eqb_refl. eexists.
  split; [reflexivity|]. split; reflexivity.
Qed.

Lemma dot_inv (A B M : ndarray C) :
  dot A B = Ok M ->
  cols A = rows B /\ rows M = rows A /\ cols M = cols B /\
  forall i j, at2 M i j = Csum_n (fun s => Cmul (at2 A i s) (at2 B s j)) (cols A).
Proof.
  unfold dot. destruct (Nat.eqb_spec (cols A) (rows B)) as [Hs|Hs];
    intros Heq; inversion Heq.
  repeat split; assumption.
Qed.

Lemma zip_with_ok {A B D : Type} (f : A -> B -> D) (P : ndarray A) (Q : ndarray B) :
  rows P = rows Q -> cols P = cols Q ->
  exists M, zip_with f P Q = Ok M /\ rows M = rows P /\ cols M = cols P.
Proof.
  intros Hr Hc. rewrite (zip_with_same f P Q Hr Hc). eexists.
  split; [reflexivity|]. split; reflexivity.
Qed.

Lemma regularised_ok (G : ndarray C) (lam : R) (r : Z) :
  (0 <= r)%Z -> rows G = Z.to_nat r -> cols G = Z.to_nat r ->
  exists S, regularised G lam r = Ok S /\
            rows S = Z.to_nat r /\ cols S = Z.to_nat r.
Proof.
  intros Hr Hrow Hcol. unfold regularised, np_eye.
  destruct (Z.ltb_spec r 0); [lia|]. simpl bind.
  destruct (zip_with_ok (fun z x => Cadd z (RtoC x)) G
              (amap (Rmult lam)
                 (Arr2 (Z.to_nat r) (Z.to_nat r)
                       (fun i j => if (i =? j)%nat then 1 else 0))))
    as (S & HS & H1 & H2); [exact Hrow|exact Hcol|].
  exists S. split; [exact HS|]. split; congruence.
Qed.

Lemma reimpose_ok (X0 : ndarray C) (mask_c : ndarray bool) (Uc Vc : ndarray C) :
  rows X0 = rows mask_c -> cols X0 = cols mask_c ->
  cols Uc = rows Vc -> rows Uc = rows mask_c -> cols Vc = cols mask_c ->
  exists X1, reimpose X0 mask_c Uc Vc = Ok X1 /\
             rows X1 = rows X0 /\ cols X1 = cols X0.
Proof.
  intros H1 H2 H3 H4 H5. unfold reimpose, shape_eqb. simpl rows. simpl cols.
  rewrite H1, H2, !Nat.eqb_refl. simpl negb. cbv iota.
  destruct (dot_ok Uc Vc H3) as (UV & E & R & Cc). rewrite E. cbn [bind].
  rewrite R, Cc, H4, H5, !Nat.eqb_refl. simpl. eexists.
  split; [reflexivity|]. split; reflexivity.
Qed.

(** What [reimpose] returns, entry by entry. *)
Lemma reimpose_inv (X0 : ndarray C) (mask_c : ndarray bool)
      (Uc Vc UV X1 : ndarray C) :
  dot Uc Vc = Ok UV ->
  reimpose X0 mask_c Uc Vc = Ok X1 ->
  rows X0 = rows mask_c /\ cols X0 = cols mask_c /\
  rows UV = rows mask_c /\ cols UV = cols mask_c /\
  rows X1 = rows X0 /\ cols X1 = cols X0 /\
  forall i j, at2 X1 i j = if at2 mask_c i j then at2 X0 i j
                           else Cadd (at2 X0 i j) (at2 UV i j).
Proof.
  intros EUV. unfold reimpose, shape_eqb. rewrite EUV. cbn [bind].
  simpl rows. simpl cols.
  destruct (Nat.eqb_spec (rows X0) (rows mask_c)); [|discriminate].
  destruct (Nat.eqb_spec (cols X0) (cols mask_c)); [|discriminate].
  destruct (Nat.eqb_spec (rows UV) (rows mask_c)); [|discriminate].
  destruct (Nat.eqb_spec (cols UV) (cols mask_c)); [|discriminate].
  simpl. intros H. inversion H. simpl.
  repeat split; try assumption.
  intros i j. destruct (at2 mask_c i j); reflexivity.
Qed.

Lemma reimpose_dot (X0 : ndarray C) (mask_c : ndarray bool) (Uc Vc X1 : ndarray C) :
  reimpose X0 mask_c Uc Vc = Ok X1 -> exists UV, dot Uc Vc = Ok UV.
Proof.
  unfold reimpose. destruct (negb _); [discriminate|].
  destruct (dot Uc Vc) as [UV|e]; [|discriminate].
  intros _. exists UV. reflexivity.
Qed.

(** ** One pass through the loop *)

(** Everything a successful pass has computed. *)
Lemma loop_body_inv (L : NumLib) (p : params) (X0 : ndarray C)
      (mask_c : ndarray bool) (st st' : loop_state) (b : bool) :
  loop_body L p X0 mask_c st = Ok (st', b) ->
  exists U1 V1 UV k mu UV2 D,
    update_U L p (X st) (V st) (c_rank st) = Ok U1 /\
    update_V L p (X st) U1 (c_rank st) = Ok V1 /\
    dot U1 V1 = Ok UV /\
    reimpose X0 mask_c U1 V1 = Ok (X st') /\
    overestimation L U1 (c_rank st) = Ok (k, mu) /\
    c_rank st' = (if fires p mu then shrunk_rank k (c_rank st) (rank_mult p)
                  else c_rank st) /\
    U st' = (if fires p mu then take_cols U1 (c_rank st') else U1) /\
    V st' = (if fires p mu then take_rows V1 (c_rank st') else V1) /\
    dot (U st') (V st') = Ok UV2 /\
    zip_with Csub (X st') UV2 = Ok D /\
    set_item (norms st) (ix st + 1) (linalg_norm D) = Ok (norms st') /\
    b = negb (converged p (norms st') (ix st)
              || (max_iter p <=? Z.of_nat (ix st))%Z) /\
    ix st' = (if b then ix st + 1 else ix st)%nat.
Proof.
  unfold loop_body. intros H.
  inv_bind H. rename a into U1.
  inv_bind H. rename a into V1.
  inv_bind H. rename a into X1.
  destruct (reimpose_dot _ _ _ _ _ E1) as (UV & EUV).
  inv_bind H. destruct a as [k mu].
  inv_bind H. rename a into UV2.
  inv_bind H. rename a into D.
  inv_bind H. rename a into ns.
  exists U1, V1, UV, k, mu, UV2, D.
  destruct (converged p ns (ix st)) eqn:Hconv;
    [|destruct (max_iter p <=? Z.of_nat (ix st))%Z eqn:Hmax];
    inversion H; subst; simpl; rewrite ?Hconv, ?Hmax; simpl;
    repeat split; try assumption; try reflexivity.
Qed.

Section BodyShapes.

Variable L : NumLib.
Hypothesis HL : lib_shapes L.
Variable p : params.

Lemma update_U_ok (Xc Vc : ndarray C) (r : Z) :
  cols Xc = cols Vc -> rows Vc = Z.to_nat r -> (0 <= r)%Z ->
  exists U1, update_U L p Xc Vc r = Ok U1 /\
             rows U1 = rows Xc /\ cols U1 = Z.to_nat r.
Proof.
  intros Hc Hr H0. unfold update_U.
  destruct (dot_ok Xc (ctrans Vc)) as (XV & E1 & R1 & C1); [exact Hc|].
  rewrite E1. simpl bind.
  destruct (dot_ok Vc (ctrans Vc)) as (G & E2 & R2 & C2); [reflexivity|].
  rewrite E2. simpl bind.
  destruct (regularised_ok G (reg_coef p) r H0) as (S & E3 & R3 & C3);
    [congruence|simpl in C2; congruence|].
  rewrite E3. simpl bind.
  destruct (dot_ok XV (pinv L S)) as (U1 & E4 & R4 & C4).
  { rewrite (pinv_rows L HL). simpl in C1. congruence. }
  exists U1. split; [exact E4|].
  rewrite (pinv_cols L HL) in C4. split; congruence.
Qed.

Lemma update_V_ok (Xc Uc : ndarray C) (r : Z) :
  rows Uc = rows Xc -> cols Uc = Z.to_nat r -> (0 <= r)%Z ->
  exists V1, update_V L p Xc Uc r = Ok V1 /\
             rows V1 = Z.to_nat r /\ cols V1 = cols Xc.
Proof.
  intros Hr Hc H0. unfold update_V.
  destruct (dot_ok (ctrans Uc) Uc) as (G & E1 & R1 & C1); [reflexivity|].
  rewrite E1. simpl bind. simpl in R1.
  destruct (regularised_ok G (reg_coef p) r H0) as (S & E2 & R2 & C2);
    [congruence|congruence|].
  rewrite E2. simpl bind.
  destruct (dot_ok (ctrans Uc) Xc) as (UX & E3 & R3 & C3); [exact Hr|].
  rewrite E3. simpl bind. simpl in R3.
  destruct (dot_ok (pinv L S) UX) as (V1 & E4 & R4 & C4).
  { rewrite (pinv_cols L HL). congruence. }
  exists V1. split; [exact E4|].
  rewrite (pinv_rows L HL) in R4. split; congruence.
Qed.

(** The eigenvalue test succeeds on a factor with at least two columns,
    and the index it returns leaves room for two more. *)
Lemma overestimation_ok (Uc : ndarray C) (r : Z) :
  (2 <= cols Uc)%nat ->
  exists k mu, overestimation L Uc r = Ok (k, mu) /\ (k + 2 <= cols Uc)%nat.
Proof.
  intros H2. unfold overestimation.
  destruct (dot_ok (ctrans Uc) Uc) as (G & E1 & R1 & C1); [reflexivity|].
  rewrite E1. simpl bind. simpl in R1.
  set (eigvs := rev (np_sort (eigvalsh L G))).
  assert (Hlen : length eigvs = cols Uc).
  { unfold eigvs. rewrite length_rev, np_sort_length, (eigvalsh_length L HL).
    exact R1. }
  destruct (argmax_ok (div_list (removelast eigvs) (tl eigvs))) as (k & Ek & Hk).
  { intros Hnil. apply (f_equal (@length xfloat)) in Hnil.
    rewrite quots_length in Hnil. simpl in Hnil. lia. }
  rewrite Ek. simpl bind. rewrite quots_length in Hk.
  eexists _, _. split; [reflexivity|]. lia.
Qed.

Lemma overestimation_inv (Uc : ndarray C) (r : Z) (k : nat) (mu : xfloat) :
  overestimation L Uc r = Ok (k, mu) -> (k + 2 <= cols Uc)%nat.
Proof.
  unfold overestimation. intros H.
  destruct (dot_ok (ctrans Uc) Uc) as (G & E1 & R1 & C1); [reflexivity|].
  rewrite E1 in H. simpl bind in H. simpl in R1.
  inv_bind H. inversion H; subst.
  apply argmax_inv in E. rewrite quots_length in E.
  rewrite length_rev, np_sort_length, (eigvalsh_length L HL) in E. lia.
Qed.

End BodyShapes.

(** [int(r * gamma)] does not exceed [r] when [gamma <= 1] and [r >= 0],
    and is the floor of [r * gamma] when [gamma >= 0]. *)
Lemma py_int_shrinks (r : Z) (gamma : R) :
  (0 <= r)%Z -> gamma <= 1 -> (py_int (IZR r * gamma) <= r)%Z.
Proof.
  intros Hr Hg. apply IZR_le in Hr. unfold py_int.
  destruct (Rle_dec 0 (IZR r * gamma)) as [Hp|Hn].
  - destruct (base_Int_part (IZR r * gamma)) as [Hlo _].
    apply le_IZR. nra.
  - destruct (base_Int_part (- (IZR r * gamma))) as [_ Hhi].
    assert (Hz : (-1 < Int_part (- (IZR r * gamma)))%Z) by (apply lt_IZR; lra).
    apply le_IZR in Hr. lia.
Qed.

Lemma py_int_floor (x : R) : 0 <= x -> py_int x = Int_part x.
Proof.
  intros Hx. unfold py_int. destruct (Rle_dec 0 x); [reflexivity|contradiction].
Qed.

(** On a state with the loop's shapes, a pass gets as far as the
    assignment [norms[ix + 1] = ...] without raising, whatever the
    entries are. *)
Lemma body_reaches_norm (L : NumLib) (p : params) (X0 : ndarray C)
      (mask_c : ndarray bool) (st : loop_state) (n m : nat) :
  lib_shapes L -> rank_mult p <= 1 -> shapes_ok X0 mask_c st n m ->
  exists X1 U2 V2 r2 v,
    rows X1 = n /\ cols X1 = m /\
    rows V2 = Z.to_nat r2 /\ cols V2 = m /\ (2 <= r2 <= c_rank st)%Z /\
    loop_body L p X0 mask_c st =
    (ns <- set_item (norms st) (ix st + 1) v ;;
     if converged p ns (ix st)
     then Ok ({| X := X1; U := U2; V := V2; c_rank := r2; norms := ns; ix := ix st |},
              false)
     else if (max_iter p <=? Z.of_nat (ix st))%Z
     then Ok ({| X := X1; U := U2; V := V2; c_rank := r2; norms := ns; ix := ix st |},
              false)
     else Ok ({| X := X1; U := U2; V := V2; c_rank := r2; norms := ns;
                 ix := ix st + 1 |}, true)).
Proof.
  intros HL Hg (HX0r & HX0c & Hmr & Hmc & HXr & HXc & HVr & HVc & Hrk).
  unfold loop_body.
  destruct (update_U_ok L HL p (X st) (V st) (c_rank st)) as (U1 & E1 & RU & CU);
    [congruence|exact HVr|lia|].
  rewrite E1. simpl bind.
  destruct (update_V_ok L HL p (X st) U1 (c_rank st)) as (V1 & E2 & RV & CV);
    [exact RU|exact CU|lia|].
  rewrite E2. simpl bind.
  destruct (reimpose_ok X0 mask_c U1 V1) as (X1 & E4 & R4 & C4); try congruence.
  rewrite E4. simpl bind.
  destruct (overestimation_ok L HL U1 (c_rank st)) as (k & mu & E5 & Hk);
    [rewrite CU; lia|].
  rewrite E5. simpl bind.
  set (r2 := if fires p mu then shrunk_rank k (c_rank st) (rank_mult p)
             else c_rank st).
  assert (Hr2 : (2 <= r2 <= c_rank st)%Z).
  { unfold r2. destruct (fires p mu); [|lia]. unfold shrunk_rank.
    pose proof (py_int_shrinks (c_rank st) (rank_mult p) ltac:(lia) Hg). lia. }
  set (U2 := if fires p mu then take_cols U1 r2 else U1).
  set (V2 := if fires p mu then take_rows V1 r2 else V1).
  assert (HU2 : rows U2 = rows U1 /\ cols U2 = Z.to_nat r2).
  { unfold U2, r2 in *. destruct (fires p mu); simpl; split; try reflexivity; lia. }
  assert (HV2 : rows V2 = Z.to_nat r2 /\ cols V2 = cols V1).
  { unfold V2, r2 in *. destruct (fires p mu); simpl; split; try reflexivity; lia. }
  destruct HU2 as [HU2r HU2c]. destruct HV2 as [HV2r HV2c].
  destruct (dot_ok U2 V2) as (UV2 & E6 & R6 & C6); [congruence|].
  rewrite E6. simpl bind.
  destruct (zip_with_ok Csub X1 UV2) as (D & E7 & _ & _); [congruence|congruence|].
  rewrite E7. simpl bind.
  exists X1, U2, V2, r2, (linalg_norm D).
  repeat split; try congruence; try lia.
Qed.

(** A pass either completes or stops at the assignment to
    [norms[ix + 1]]: it raises [IndexError] exactly when [ix + 1] is past
    the end of [norms]. *)
Lemma body_progress (L : NumLib) (p : params) (X0 : ndarray C)
      (mask_c : ndarray bool) (st : loop_state) (n m : nat) :
  lib_shapes L -> rank_mult p <= 1 -> shapes_ok X0 mask_c st n m ->
  ((ix st + 1 < length (norms st))%nat ->
   exists st' b,
     loop_body L p X0 mask_c st = Ok (st', b) /\
     shapes_ok X0 mask_c st' n m /\
     length (norms st') = length (norms st)) /\
  ((length (norms st) <= ix st + 1)%nat ->
   loop_body L p X0 mask_c st = Raise IndexError).
Proof.
  intros HL Hg Hs.
  destruct (body_reaches_norm L p X0 mask_c st n m HL Hg Hs)
    as (X1 & U2 & V2 & r2 & v & H1 & H2 & H3 & H4 & H5 & E).
  destruct Hs as (HX0r & HX0c & Hmr & Hmc & _).
  rewrite E. split.
  - intros Hlt. unfold set_item.
    destruct (Nat.ltb_spec (ix st + 1) (length (norms st))); [|lia].
    simpl bind.
    destruct (converged p _ (ix st));
      [|destruct (max_iter p <=? Z.of_nat (ix st))%Z];
      eexists _, _; (split; [reflexivity|]); simpl;
      (split; [unfold shapes_ok; simpl; repeat split; try assumption; lia|]);
      apply list_set_length.
  - intros Hge. rewrite set_item_past_end by exact Hge. reflexivity.
Qed.

(** ** Before the loop *)

Lemma random_complex_ok (L : NumLib) (g : rng L) (r c : Z) :
  lib_shapes L -> (0 <= r)%Z -> (0 <= c)%Z ->
  exists M g', random_complex L g r c = Ok (M, g') /\
               rows M = Z.to_nat r /\ cols M = Z.to_nat c.
Proof.
  intros HL Hr Hc. unfold random_complex, np_random_uniform.
  destruct (Z.ltb_spec r 0); [lia|]. destruct (Z.ltb_spec c 0); [lia|].
  simpl bind.
  destruct (uniform L g (Z.to_nat r) (Z.to_nat c)) as [A g1] eqn:EA.
  destruct (uniform L g1 (Z.to_nat r) (Z.to_nat c)) as [B g2] eqn:EB.
  simpl bind.
  assert (HA : rows A = Z.to_nat r /\ cols A = Z.to_nat c).
  { pose proof (uniform_rows L HL g (Z.to_nat r) (Z.to_nat c)).
    pose proof (uniform_cols L HL g (Z.to_nat r) (Z.to_nat c)).
    rewrite EA in *. simpl in *. split; assumption. }
  assert (HB : rows B = Z.to_nat r /\ cols B = Z.to_nat c).
  { pose proof (uniform_rows L HL g1 (Z.to_nat r) (Z.to_nat c)).
    pose proof (uniform_cols L HL g1 (Z.to_nat r) (Z.to_nat c)).
    rewrite EB in *. simpl in *. split; assumption. }
  destruct HA as [HA1 HA2]. destruct HB as [HB1 HB2].
  destruct (zip_with_ok Cadd (amap RtoC A) (amap (fun x => Cmul Ci (RtoC x)) B))
    as (M & EM & RM & CM); [simpl; congruence|simpl; congruence|].
  rewrite EM. simpl bind. exists M, g2. split; [reflexivity|].
  simpl in RM, CM. split; congruence.
Qed.

(** A valid call reaches the loop, in a state with the loop's shapes. *)
Lemma prepare_ok (L : NumLib) (g os : rng L) (qmat : tensor) (mask : ndarray bool)
      (init_rank : option Z) (p : params) (random_state : option Z) :
  lib_shapes L -> valid_call qmat mask init_rank p random_state ->
  exists X0 g' st0,
    prepare L g os qmat mask init_rank p random_state
    = Ok (X0, tile mask 2 2, g', st0) /\
    shapes_ok X0 (tile mask 2 2) st0 (dim0 qmat + dim0 qmat) (dim1 qmat + dim1 qmat) /\
    length (norms st0) = Z.to_nat (max_iter p + 1) /\
    ix st0 = 0%nat /\
    c_rank st0 = initial_rank init_rank (dim0 qmat) (dim1 qmat).
Proof.
  intros HL (H4 & Hmr & Hmc & Hrk & Hseed & _ & Hmax).
  unfold prepare.
  destruct (qm2cm_ok qmat (Some mask) H4) as (Xc & EX & RX & CX & _).
  rewrite EX. cbn [bind].
  set (r := initial_rank init_rank (dim0 qmat) (dim1 qmat)) in *.
  unfold init_factors.
  assert (Es : exists g0, np_random_seed L random_state os g = Ok g0).
  { unfold np_random_seed. destruct random_state as [s|]; [|eexists; reflexivity].
    specialize (Hseed s eq_refl).
    destruct (Z.ltb_spec s 0); [lia|]. destruct (Z.leb_spec (2 ^ 32) s); [lia|].
    eexists; reflexivity. }
  destruct Es as (g0 & Es). rewrite Es. cbn [bind].
  destruct (random_complex_ok L g0 (2 * Z.of_nat (dim0 qmat)) r HL)
    as (U0 & g1 & EU & RU & CU); [lia|lia|].
  rewrite EU. cbn [bind].
  destruct (random_complex_ok L g1 r (2 * Z.of_nat (dim1 qmat)) HL)
    as (V0 & g2 & EV & RV & CV); [lia|lia|].
  rewrite EV. cbn [bind].
  unfold np_zeros. destruct (Z.ltb_spec (max_iter p + 1) 0); [lia|]. cbn [bind].
  destruct (dot_ok U0 V0) as (UV & EUV & RUV & CUV); [congruence|].
  rewrite EUV. cbn [bind].
  destruct (zip_with_ok Csub Xc UV) as (D & ED & _ & _); [lia|lia|].
  rewrite ED. cbn [bind].
  unfold set_item. rewrite repeat_length.
  destruct (Nat.ltb_spec 0 (Z.to_nat (max_iter p + 1))); [|lia]. cbn [bind].
  eexists _, _, _. split; [reflexivity|].
  unfold shapes_ok, tile. simpl.
  rewrite list_set_length, repeat_length.
  repeat split; try assumption; try reflexivity; try lia.
Qed.

Lemma random_complex_inv (L : NumLib) (g g' : rng L) (r c : Z) (M : ndarray C) :
  random_complex L g r c = Ok (M, g') ->
  (0 <= r)%Z /\ (0 <= c)%Z /\
  (lib_shapes L -> rows M = Z.to_nat r /\ cols M = Z.to_nat c).
Proof.
  intros H.
  assert (Hrc : (0 <= r)%Z /\ (0 <= c)%Z).
  { unfold random_complex, np_random_uniform in H.
    destruct (Z.ltb_spec r 0); [discriminate H|].
    destruct (Z.ltb_spec c 0); [discriminate H|]. split; assumption. }
  destruct Hrc as [Hr Hc]. split; [exact Hr|]. split; [exact Hc|].
  intros HL.
  destruct (random_complex_ok L g r c HL Hr Hc) as (M' & g1 & E & HR & HC).
  rewrite H in E. inversion E; subst. split; assumption.
Qed.

(** What a call that reaches the loop has set up. *)
Lemma prepare_inv (L : NumLib) (g os g' : rng L) (qmat : tensor)
      (mask mask_c : ndarray bool) (init_rank : option Z) (p : params)
      (random_state : option Z) (X0 : ndarray C) (st0 : loop_state) :
  prepare L g os qmat mask init_rank p random_state = Ok (X0, mask_c, g', st0) ->
  dim2 qmat = 4%nat /\
  qm2cm qmat (Some mask) = Ok (X0, Some mask_c) /\
  mask_c = tile mask 2 2 /\
  X st0 = X0 /\
  c_rank st0 = initial_rank init_rank (dim0 qmat) (dim1 qmat) /\
  ix st0 = 0%nat /\
  (0 <= c_rank st0)%Z /\
  (0 <= max_iter p)%Z /\
  norms st0 = recorded_norm st0 :: repeat 0 (Z.to_nat (max_iter p)) /\
  (lib_shapes L -> rows (V st0) = Z.to_nat (c_rank st0)).
Proof.
  intros H.
  assert (H4 : dim2 qmat = 4%nat).
  { destruct (Nat.eqb_spec (dim2 qmat) 4) as [e|ne]; [exact e|].
    apply Nat.eqb_neq in ne. unfold prepare, qm2cm in H. rewrite ne in H.
    discriminate H. }
  destruct (qm2cm_ok qmat (Some mask) H4) as (Xc & EX & _).
  unfold prepare in H. rewrite EX in H. cbn [bind] in H.
  open_bind H as Ei [[U0 V0] gf].
  open_bind H as Ez ns.
  open_bind H as Ed UV.
  open_bind H as Es D.
  open_bind H as En ns0.
  inversion H; subst. clear H.
  unfold init_factors in Ei.
  open_bind Ei as Eg g0.
  open_bind Ei as EU [U0' g1].
  open_bind Ei as EV [V0' g2].
  inversion Ei; subst. clear Ei.
  destruct (random_complex_inv L g0 g1 _ _ U0 EU) as (_ & Hr & _).
  destruct (random_complex_inv L g1 g' _ _ V0 EV) as (_ & _ & HV).
  assert (Hmax : (0 <= max_iter p)%Z /\
                 ns0 = linalg_norm D :: repeat 0 (Z.to_nat (max_iter p))).
  { unfold np_zeros in Ez.
    destruct (Z.ltb_spec (max_iter p + 1) 0); [discriminate Ez|].
    inversion Ez; subst ns. apply set_item_inv in En.
    rewrite repeat_length in En. destruct En as [Hlen ->].
    split; [lia|].
    replace (Z.to_nat (max_iter p + 1)) with (S (Z.to_nat (max_iter p))) by lia.
    reflexivity. }
  destruct Hmax as [Hmax Hns].
  repeat split; try assumption; try reflexivity.
  - subst ns0. unfold recorded_norm. simpl. rewrite Ed. simpl. rewrite Es.
    reflexivity.
  - intros HL. apply (HV HL).
Qed.

(** ** Running the loop *)

(** With the loop's shapes and an array [norms] of [max_iter + 1]
    entries, the loop stops within [max_iter + 1 - ix] passes.  It stops
    either on the convergence test, at a pass whose index is below
    [max_iter], or with the [IndexError] of [norms[max_iter + 1]]; the
    branch [ix >= max_iter] is never the one that stops it. *)
Lemma while_flag_total (L : NumLib) (p : params) (X0 : ndarray C)
      (mask_c : ndarray bool) (n m : nat) :
  lib_shapes L -> rank_mult p <= 1 -> (0 <= max_iter p)%Z ->
  forall fuel st,
    shapes_ok X0 mask_c st n m ->
    length (norms st) = Z.to_nat (max_iter p + 1) ->
    (1 <= fuel)%nat -> (length (norms st) <= ix st + fuel)%nat ->
    while_flag L p X0 mask_c fuel st = Some (Raise IndexError) \/
    exists st',
      while_flag L p X0 mask_c fuel st = Some (Ok st') /\
      converged p (norms st') (ix st') = true /\
      (Z.of_nat (ix st') < max_iter p)%Z /\
      (ix st <= ix st')%nat.
Proof.
  intros HL Hg Hmax fuel. induction fuel as [|fuel IH]; intros st Hs Hlen H1 Hfuel;
    [lia|].
  destruct (body_progress L p X0 mask_c st n m HL Hg Hs) as [Hgo Hstop].
  simpl while_flag.
  destruct (Nat.ltb_spec (ix st + 1) (length (norms st))) as [Hlt|Hge].
  - destruct (Hgo Hlt) as (st' & b & Eb & Hs' & Hlen').
    rewrite Eb.
    destruct (loop_body_inv L p X0 mask_c st st' b Eb)
      as (U1 & V1 & UV & k & mu & UV2 & D & _ & _ & _ & _ & _ & _ & _ & _ & _ & _
          & _ & Hb & Hix).
    assert (Hnomax : (max_iter p <=? Z.of_nat (ix st))%Z = false)
      by (apply Z.leb_gt; lia).
    rewrite Hnomax, orb_false_r in Hb.
    destruct b.
    + destruct (IH st') as [Hr|(st2 & E2 & Hc & Hi & Hle)];
        try assumption; try lia.
      * left. exact Hr.
      * right. exists st2. repeat split; try assumption. lia.
    + right. exists st'. split; [reflexivity|].
      rewrite Hix. split; [|split; lia].
      destruct (converged p (norms st') (ix st)); [reflexivity|discriminate].
  - left. rewrite (Hstop Hge). reflexivity.
Qed.

(** What a run that returns went through. *)
Lemma while_flag_passes (L : NumLib) (p : params) (X0 : ndarray C)
      (mask_c : ndarray bool) (fuel : nat) (st st' : loop_state) :
  while_flag L p X0 mask_c fuel st = Some (Ok st') ->
  exists l, passes L p X0 mask_c st l st'.
Proof.
  revert st. induction fuel as [|fuel IH]; intros st H; [discriminate|].
  simpl in H.
  destruct (loop_body L p X0 mask_c st) as [[st1 [|]]|e] eqn:Eb.
  - destruct (IH st1 H) as (l & Hl). exists (st :: l).
    apply passes_step with st1; assumption.
  - inversion H; subst. exists [st]. apply passes_stop. exact Eb.
  - discriminate.
Qed.

Lemma lrqmc_run_inv (L : NumLib) (fuel : nat) (g os : rng L) (qmat : tensor)
      (mask : ndarray bool) (init_rank : option Z) (p : params)
      (random_state : option Z) (st : loop_state) (g' : rng L) :
  lrqmc_run L fuel g os qmat mask init_rank p random_state = Some (Ok (st, g')) ->
  exists X0 mask_c st0 l,
    prepare L g os qmat mask init_rank p random_state = Ok (X0, mask_c, g', st0) /\
    passes L p X0 mask_c st0 l st.
Proof.
  unfold lrqmc_run. intros H.
  destruct (prepare L g os qmat mask init_rank p random_state)
    as [[[[X0 mask_c] g1] st0]|e] eqn:Ep; [|discriminate].
  destruct (while_flag L p X0 mask_c fuel st0) as [[st1|e]|] eqn:Ew;
    try discriminate.
  inversion H; subst.
  destruct (while_flag_passes L p X0 mask_c fuel st0 st Ew) as (l & Hl).
  exists X0, mask_c, st0, l. split; [reflexivity|exact Hl].
Qed.

Lemma ref_lib_shapes : lib_shapes ref_lib.
Proof.
  constructor; simpl; intros; try reflexivity.
  rewrite np_sort_length, length_map, length_seq. reflexivity.
Qed.

Lemma black_valid (p : params) :
  rank_mult p <= 1 -> (0 <= max_iter p)%Z ->
  valid_call black_image one_missing None p (Some 0%Z).
Proof.
  intros Hg Hn. unfold valid_call. simpl.
  split; [reflexivity|]. split; [reflexivity|]. split; [reflexivity|].
  split; [lia|]. split; [|split; [exact Hg|exact Hn]].
  intros s Hs. inversion Hs. split; [lia|reflexivity].
Qed.

Lemma example_valid (n : Z) :
  (0 <= n)%Z ->
  valid_call black_image one_missing None (example_params n) (Some 0%Z).
Proof. intros Hn. apply black_valid; simpl; [lra|exact Hn]. Qed.

(** The loop always stops: a pass that goes on has written
    [norms[ix + 1]], and [norms] has a fixed length. *)
Lemma while_flag_terminates (L : NumLib) (p : params) (X0 : ndarray C)
      (mask_c : ndarray bool) (fuel : nat) :
  forall st,
    (1 <= fuel)%nat -> (length (norms st) <= ix st + fuel)%nat ->
    while_flag L p X0 mask_c fuel st <> None.
Proof.
  induction fuel as [|fuel IH]; intros st H1 Hlen; [lia|].
  simpl. destruct (loop_body L p X0 mask_c st) as [[st' [|]]|e] eqn:Eb;
    try discriminate.
  destruct (loop_body_inv L p X0 mask_c st st' true Eb)
    as (U1 & V1 & UV & k & mu & UV2 & D & _ & _ & _ & _ & _ & _ & _ & _ & _ & _
        & EN & _ & Hix).
  apply set_item_inv in EN. destruct EN as [Hlt EN].
  apply IH; rewrite ?EN, ?list_set_length, ?Hix; lia.
Qed.

(** Given more passes than [max_iter], a call of [lrqmc] always comes
    to an end, by returning or by raising. *)
Lemma lrqmc_terminates (L : NumLib) (fuel : nat) (g os : rng L) (qmat : tensor)
      (mask : ndarray bool) (init_rank : option Z) (p : params)
      (return_norms : bool) (random_state : option Z) :
  (Z.to_nat (max_iter p) < fuel)%nat ->
  lrqmc_run L fuel g os qmat mask init_rank p random_state <> None /\
  lrqmc L fuel g os qmat mask init_rank p return_norms random_state <> None.
Proof.
  intros Hfuel.
  assert (Hrun : lrqmc_run L fuel g os qmat mask init_rank p random_state <> None).
  { unfold lrqmc_run.
    destruct (prepare L g os qmat mask init_rank p random_state)
      as [[[[X0 mask_c] g'] st0]|e] eqn:Ep; [|discriminate].
    destruct (prepare_inv L g os g' qmat mask mask_c init_rank p random_state X0 st0 Ep)
      as (_ & _ & _ & _ & _ & Hix & _ & _ & Hns & _).
    pose proof (while_flag_terminates L p X0 mask_c fuel st0) as Ht.
    destruct (while_flag L p X0 mask_c fuel st0) as [[st|e]|]; try discriminate.
    exfalso. apply Ht; [lia| |reflexivity].
    rewrite Hns, Hix. simpl. rewrite repeat_length. lia. }
  split; [exact Hrun|]. unfold lrqmc.
  destruct (lrqmc_run L fuel g os qmat mask init_rank p random_state)
    as [[[st g']|e]|]; [discriminate|discriminate|contradiction].
Qed.

(** ** Exhausting the iteration count *)

(** C1 (the code does otherwise): on every valid call, a run given
    enough passes either stops on the convergence test at a pass whose
    index is below [max_iter], or raises [IndexError]; it never returns
    through the test [ix >= max_iter].  With [max_iter = 0] every valid
    call raises [IndexError]: the first pass assigns [norms[1]] in an
    array of one entry. *)
Theorem exhaustion_raises (L : NumLib) (fuel : nat) (g os : rng L) (qmat : tensor)
        (mask : ndarray bool) (init_rank : option Z) (p : params)
        (random_state : option Z) :
  lib_shapes L -> valid_call qmat mask init_rank p random_state ->
  (Z.to_nat (max_iter p) < fuel)%nat ->
  (lrqmc_run L fuel g os qmat mask init_rank p random_state = Some (Raise IndexError) \/
   exists st g',
     lrqmc_run L fuel g os qmat mask init_rank p random_state = Some (Ok (st, g')) /\
     converged p (norms st) (ix st) = true /\
     (Z.of_nat (ix st) < max_iter p)%Z) /\
  (max_iter p = 0%Z ->
   forall return_norms,
     lrqmc L fuel g os qmat mask init_rank p return_norms random_state
     = Some (Raise IndexError)).
Proof.
  intros HL Hv Hfuel.
  destruct (prepare_ok L g os qmat mask init_rank p random_state HL Hv)
    as (X0 & g' & st0 & Ep & Hs & Hlen & Hix & _).
  destruct Hv as (_ & _ & _ & _ & _ & Hg & Hmax).
  assert (Hrun :
    lrqmc_run L fuel g os qmat mask init_rank p random_state = Some (Raise IndexError) \/
    exists st g',
      lrqmc_run L fuel g os qmat mask init_rank p random_state = Some (Ok (st, g')) /\
      converged p (norms st) (ix st) = true /\
      (Z.of_nat (ix st) < max_iter p)%Z).
  { unfold lrqmc_run. rewrite Ep.
    destruct (while_flag_total L p X0 (tile mask 2 2) _ _ HL Hg Hmax fuel st0 Hs Hlen)
      as [Hr|(st & Ew & Hc & Hi & _)]; try lia.
    - left. rewrite Hr. reflexivity.
    - right. exists st, g'. rewrite Ew. repeat split; assumption. }
  split; [exact Hrun|].
  intros H0 return_norms. unfold lrqmc.
  destruct Hrun as [Hr|(st & g1 & _ & _ & Hi)]; [|lia].
  rewrite Hr. reflexivity.
Qed.

Lemma exhaustion_raises_witness :
  lrqmc ref_lib 1 0%nat 0%nat black_image one_missing None (default_params 0)
        false (Some 0%Z)
  = Some (Raise IndexError).
Proof.
  apply (exhaustion_raises ref_lib 1 0%nat 0%nat black_image one_missing None
           (default_params 0) (Some 0%Z)).
  - exact ref_lib_shapes.
  - apply black_valid; simpl; [lra|lia].
  - simpl. lia.
  - reflexivity.
Defined.

(** ** The rank *)

Lemma fires_exceeds (p : params) (mu : xfloat) :
  fires p mu = true <-> exceeds mu (rot p).
Proof.
  unfold fires, xgt, exceeds. destruct mu;
    try (split; [discriminate|tauto]); try tauto.
  destruct (Rlt_dec (rot p) x); split; try tauto; discriminate.
Qed.

(** The convergence test holds exactly when the norm before the pass is
    not zero and the relative change is below the tolerance. *)
Lemma converged_spec (p : params) (ns : list R) (i : nat) :
  converged p ns i = true <-> tolerance_met ns i (rel_tol p).
Proof.
  unfold converged, tolerance_met, xlt, xdiv.
  pose proof (Rabs_pos (nth (i + 1) ns 0 - nth i ns 0)) as Hpos.
  destruct (Req_dec_T (nth i ns 0) 0) as [Hz|Hnz].
  - destruct (Rlt_dec 0 _) as [Hp|Hp]; [split; [discriminate|tauto]|].
    destruct (Rlt_dec _ 0) as [Hn|Hn]; [lra|]. split; [discriminate|tauto].
  - destruct (Rlt_dec _ (rel_tol p)); split; try tauto; discriminate.
Qed.

(** What the eigenvalue test returns: [k] is the first position of a
    largest quotient of consecutive eigenvalues (sorted in descending
    order) of [U^H U], and [mu] is
    [(r - 1) * eigv[k] / (sum(eigv) - eigv[k])]. *)
Lemma overestimation_spec (L : NumLib) (Uc : ndarray C) (r : Z) (k : nat)
      (mu : xfloat) :
  overestimation L Uc r = Ok (k, mu) ->
  exists G,
    dot (ctrans Uc) Uc = Ok G /\
    let eigvs := rev (np_sort (eigvalsh L G)) in
    first_largest_ratio eigvs k /\
    mu = xdiv (IZR (r - 1) * nth k eigvs 0) (list_sum eigvs - nth k eigvs 0).
Proof.
  unfold overestimation. intros H.
  open_bind H as EG G. open_bind H as Ek k'.
  inversion H; subst. exists G. split; [reflexivity|].
  split; [apply argmax_quots; exact Ek|reflexivity].
Qed.

(** One pass and the rank: the invariant ([V] has [c_rank] rows), and
    what the pass does to the rank and the factors. *)
Lemma rank_step (L : NumLib) (p : params) (X0 : ndarray C) (mask_c : ndarray bool)
      (st st' : loop_state) (b : bool) :
  lib_shapes L -> 0 <= rank_mult p <= 1 ->
  rows (V st) = Z.to_nat (c_rank st) -> (0 <= c_rank st)%Z ->
  loop_body L p X0 mask_c st = Ok (st', b) ->
  (c_rank st' <= c_rank st)%Z /\
  rows (V st') = Z.to_nat (c_rank st') /\ (0 <= c_rank st')%Z /\
  cols (U st') = Z.to_nat (c_rank st') /\
  exists U1 V1 G k,
    update_U L p (X st) (V st) (c_rank st) = Ok U1 /\
    update_V L p (X st) U1 (c_rank st) = Ok V1 /\
    dot (ctrans U1) U1 = Ok G /\
    let eigvs := rev (np_sort (eigvalsh L G)) in
    let mu := xdiv (IZR (c_rank st - 1) * nth k eigvs 0)
                   (list_sum eigvs - nth k eigvs 0) in
    first_largest_ratio eigvs k /\
    (exceeds mu (rot p) ->
     c_rank st' = Z.max (Z.of_nat k + 2) (Int_part (IZR (c_rank st) * rank_mult p)) /\
     U st' = take_cols U1 (c_rank st') /\ V st' = take_rows V1 (c_rank st')) /\
    (~ exceeds mu (rot p) -> c_rank st' = c_rank st /\ U st' = U1 /\ V st' = V1).
Proof.
  intros HL [Hg0 Hg1] HV Hr Hb.
  destruct (loop_body_inv L p X0 mask_c st st' b Hb)
    as (U1 & V1 & UV & k & mu & UV2 & D & EU & EV & _ & _ & EO & Hrk & HU' & HV'
        & _).
  assert (HXV : cols (X st) = cols (V st)).
  { unfold update_U in EU. inv_bind EU. apply dot_inv in E. simpl in E. tauto. }
  destruct (update_U_ok L HL p (X st) (V st) (c_rank st) HXV HV Hr)
    as (U1' & EU' & RU & CU).
  rewrite EU in EU'. inversion EU'; subst U1'.
  destruct (update_V_ok L HL p (X st) U1 (c_rank st) RU CU Hr)
    as (V1' & EV' & RV & CV).
  rewrite EV in EV'. inversion EV'; subst V1'.
  pose proof (overestimation_inv L HL U1 (c_rank st) k mu EO) as Hk.
  destruct (overestimation_spec L U1 (c_rank st) k mu EO) as (G & EG & Hfirst & Hmu).
  pose proof (py_int_shrinks (c_rank st) (rank_mult p) Hr Hg1) as Hint.
  assert (Hfloor : py_int (IZR (c_rank st) * rank_mult p)
                   = Int_part (IZR (c_rank st) * rank_mult p)).
  { apply py_int_floor. apply IZR_le in Hr. nra. }
  unfold shrunk_rank in Hrk.
  pose proof (fires_exceeds p mu) as Hfe.
  destruct (fires p mu) eqn:Hf.
  - rewrite HU', HV'. simpl.
    repeat split; try lia.
    exists U1, V1, G, k. split; [exact EU|]. split; [exact EV|]. split; [exact EG|].
    cbv zeta. rewrite <- Hmu.
    split; [exact Hfirst|]. split.
    + intros _. rewrite Hrk, Hfloor. repeat split; reflexivity.
    + intros Hn. exfalso. apply Hn. apply Hfe. reflexivity.
  - rewrite HU', HV', Hrk.
    repeat split; try lia; try assumption.
    exists U1, V1, G, k. split; [exact EU|]. split; [exact EV|]. split; [exact EG|].
    cbv zeta. rewrite <- Hmu.
    split; [exact Hfirst|]. split.
    + intros He. apply Hfe in He. discriminate He.
    + intros _. repeat split; reflexivity.
Qed.

(** Over the passes of a run the invariant holds at the start of every
    pass and the ranks do not increase. *)
Lemma passes_rank (L : NumLib) (p : params) (X0 : ndarray C) (mask_c : ndarray bool)
      (st st' : loop_state) (l : list loop_state) :
  lib_shapes L -> 0 <= rank_mult p <= 1 ->
  passes L p X0 mask_c st l st' ->
  rows (V st) = Z.to_nat (c_rank st) -> (0 <= c_rank st)%Z ->
  Forall (fun s => rows (V s) = Z.to_nat (c_rank s) /\ (0 <= c_rank s)%Z) l /\
  StronglySorted (fun a b => (b <= a)%Z) (map c_rank (l ++ [st'])) /\
  Forall (fun c => (c <= c_rank st)%Z) (map c_rank (l ++ [st'])).
Proof.
  intros HL Hg Hl. induction Hl as [s s' Hb|s s1 l' s' Hb Hl' IH]; intros HV0 Hr0.
  - destruct (rank_step L p X0 mask_c s s' false HL Hg HV0 Hr0 Hb) as (Hle & _).
    simpl. split; [repeat constructor; assumption|]. split.
    + repeat constructor. exact Hle.
    + repeat constructor; [lia|exact Hle].
  - destruct (rank_step L p X0 mask_c s s1 true HL Hg HV0 Hr0 Hb)
      as (Hle & HV1 & Hr1 & _).
    destruct (IH HV1 Hr1) as (IHi & IHs & IHf).
    assert (Hall : Forall (fun c => (c <= c_rank s)%Z) (map c_rank (l' ++ [s']))).
    { eapply Forall_impl; [|exact IHf]. simpl. intros c Hc. lia. }
    simpl. split; [constructor; [split; assumption|exact IHi]|]. split.
    + constructor; assumption.
    + constructor; [lia|exact Hall].
Qed.

(** The rank after a shrink from 3 with the multiplier 0.9. *)
Lemma shrunk_rank_example : shrunk_rank 0 3 (9 / 10) = 2%Z.
Proof.
  unfold shrunk_rank. rewrite py_int_floor by lra.
  rewrite <- (Int_part_spec (3 * (9 / 10)) 2); [reflexivity|lra].
Qed.

(** C6: in a pass started with [V] of [c_rank] rows (as every pass of a
    run is), the rank does not grow.  With [eigvs] the eigenvalues of
    [U^H U] for the updated [U], in descending order, [k] is the index
    of the largest quotient [eigvs[i] / eigvs[i+1]] (the first one among
    equals, a NaN counting as largest) and
    [mu = (r - 1) * eigvs[k] / (sum(eigvs) - eigvs[k])], [r] being the
    rank before.  When [mu > rot] the rank becomes
    [max(k + 2, floor(r * rank_mult))] and [U], [V] are cut to that many
    columns and rows; otherwise rank and factors are left alone.  Over a
    run, from the state [lrqmc] enters the loop with, every pass starts
    with [V] of [c_rank] rows and the ranks of the successive states are
    non-increasing, from the first rank on. *)
Theorem rank_never_grows (L : NumLib) (p : params) :
  lib_shapes L -> 0 <= rank_mult p <= 1 ->
  (forall X0 mask_c st st' b,
      rows (V st) = Z.to_nat (c_rank st) -> (0 <= c_rank st)%Z ->
      loop_body L p X0 mask_c st = Ok (st', b) ->
      (c_rank st' <= c_rank st)%Z /\
      cols (U st') = Z.to_nat (c_rank st') /\
      rows (V st') = Z.to_nat (c_rank st') /\
      exists U1 V1 G k,
        update_U L p (X st) (V st) (c_rank st) = Ok U1 /\
        update_V L p (X st) U1 (c_rank st) = Ok V1 /\
        dot (ctrans U1) U1 = Ok G /\
        let eigvs := rev (np_sort (eigvalsh L G)) in
        let mu := xdiv (IZR (c_rank st - 1) * nth k eigvs 0)
                       (list_sum eigvs - nth k eigvs 0) in
        first_largest_ratio eigvs k /\
        (exceeds mu (rot p) ->
         c_rank st' = Z.max (Z.of_nat k + 2)
                            (Int_part (IZR (c_rank st) * rank_mult p)) /\
         U st' = take_cols U1 (c_rank st') /\
         V st' = take_rows V1 (c_rank st')) /\
        (~ exceeds mu (rot p) ->
         c_rank st' = c_rank st /\ U st' = U1 /\ V st' = V1)) /\
  (forall fuel g os qmat mask init_rank random_state st g',
      lrqmc_run L fuel g os qmat mask init_rank p random_state = Some (Ok (st, g')) ->
      exists X0 mask_c st0 l,
        prepare L g os qmat mask init_rank p random_state
        = Ok (X0, mask_c, g', st0) /\
        passes L p X0 mask_c st0 l st /\
        c_rank st0 = initial_rank init_rank (dim0 qmat) (dim1 qmat) /\
        Forall (fun s => rows (V s) = Z.to_nat (c_rank s) /\ (0 <= c_rank s)%Z) l /\
        StronglySorted (fun a b => (b <= a)%Z) (map c_rank (l ++ [st])) /\
        (c_rank st <= initial_rank init_rank (dim0 qmat) (dim1 qmat))%Z).
Proof.
  intros HL Hg. split.
  - intros X0 mask_c st st' b HV Hr Hb.
    destruct (rank_step L p X0 mask_c st st' b HL Hg HV Hr Hb)
      as (H1 & H2 & H3 & H4 & H5).
    repeat split; assumption.
  - intros fuel g os qmat mask init_rank random_state st g' Hrun.
    destruct (lrqmc_run_inv L fuel g os qmat mask init_rank p random_state st g' Hrun)
      as (X0 & mask_c & st0 & l & Ep & Hl).
    destruct (prepare_inv L g os g' qmat mask mask_c init_rank p random_state X0 st0 Ep)
      as (_ & _ & _ & _ & Hrk & _ & Hr0 & _ & _ & HV0).
    destruct (passes_rank L p X0 mask_c st0 st l HL Hg Hl (HV0 HL) Hr0)
      as (Hinv & Hs & Hf).
    exists X0, mask_c, st0, l. split; [exact Ep|]. split; [exact Hl|].
    split; [exact Hrk|]. split; [exact Hinv|]. split; [exact Hs|].
    rewrite <- Hrk. rewrite map_app in Hf. apply Forall_app in Hf.
    destruct Hf as [_ Hf]. simpl in Hf. inversion Hf. assumption.
Qed.

(** ** Re-imposing the known entries *)

Lemma passes_last (L : NumLib) (p : params) (X0 : ndarray C) (mask_c : ndarray bool)
      (st st' : loop_state) (l : list loop_state) :
  passes L p X0 mask_c st l st' ->
  exists s, loop_body L p X0 mask_c s = Ok (st', false).
Proof.
  induction 1 as [s s' Hb|s s1 l' s' Hb Hl IH]; [exists s; exact Hb|exact IH].
Qed.

Lemma Cadd_fixed (a b : C) : Cadd a b = b -> a = C0.
Proof.
  intros H. apply C_eq; simpl.
  - apply (f_equal Re) in H. simpl in H. lra.
  - apply (f_equal Im) in H. simpl in H. lra.
Qed.

(** C2, amended: in every pass, after the factor updates, [X] is rebuilt
    from [X0] and the product [U.dot(V)] of the updated factors: an
    observed entry (tiled mask True) is the entry of [X0], an unobserved
    one is the entry of [X0] plus the entry of [U.dot(V)].  An
    unobserved entry is thus the entry of [U.dot(V)] exactly when the
    entry of [X0] there is zero. *)
Theorem reimpose_adds (L : NumLib) (p : params) (X0 : ndarray C)
        (mask_c : ndarray bool) (st st' : loop_state) (b : bool) :
  loop_body L p X0 mask_c st = Ok (st', b) ->
  exists U1 V1 UV,
    update_U L p (X st) (V st) (c_rank st) = Ok U1 /\
    update_V L p (X st) U1 (c_rank st) = Ok V1 /\
    dot U1 V1 = Ok UV /\
    rows (X st') = rows X0 /\ cols (X st') = cols X0 /\
    forall i j, (i < rows X0)%nat -> (j < cols X0)%nat ->
      at2 (X st') i j = (if at2 mask_c i j then at2 X0 i j
                         else Cadd (at2 X0 i j) (at2 UV i j)) /\
      (at2 mask_c i j = false ->
       (at2 (X st') i j = at2 UV i j <-> at2 X0 i j = C0)).
Proof.
  intros Hb.
  destruct (loop_body_inv L p X0 mask_c st st' b Hb)
    as (U1 & V1 & UV & k & mu & UV2 & D & EU & EV & EUV & ER & _).
  destruct (reimpose_inv X0 mask_c U1 V1 UV (X st') EUV ER)
    as (_ & _ & _ & _ & Hr & Hc & Hat).
  exists U1, V1, UV.
  split; [exact EU|]. split; [exact EV|]. split; [exact EUV|].
  split; [exact Hr|]. split; [exact Hc|].
  intros i j _ _. split; [apply Hat|].
  intros Hm. rewrite Hat, Hm. split.
  - apply Cadd_fixed.
  - intros Hz. rewrite Hz. apply C_eq; simpl; lra.
Qed.

(** C5: after every pass the entries of [X] at the observed positions of
    the tiled mask are those of [X0]; and in the image a run returns,
    every quaternion at an observed position of the mask is the
    quaternion of the input image. *)
Theorem mask_pinning (L : NumLib) (p : params) :
  (forall X0 mask_c st st' b,
      loop_body L p X0 mask_c st = Ok (st', b) ->
      rows (X st') = rows X0 /\ cols (X st') = cols X0 /\
      forall i j, (i < rows X0)%nat -> (j < cols X0)%nat ->
                  at2 mask_c i j = true -> at2 (X st') i j = at2 X0 i j) /\
  (forall fuel g os qmat mask init_rank return_norms random_state out,
      lrqmc L fuel g os qmat mask init_rank p return_norms random_state
      = Some (Ok out) ->
      dim0 (restored out) = dim0 qmat /\ dim1 (restored out) = dim1 qmat /\
      dim2 (restored out) = 4%nat /\
      forall i j k, (i < dim0 qmat)%nat -> (j < dim1 qmat)%nat -> (k < 4)%nat ->
                    at2 mask i j = true ->
                    at3 (restored out) i j k = at3 qmat i j k).
Proof.
  assert (Hpass : forall X0 mask_c st st' b,
      loop_body L p X0 mask_c st = Ok (st', b) ->
      rows X0 = rows mask_c /\ cols X0 = cols mask_c /\
      rows (X st') = rows X0 /\ cols (X st') = cols X0 /\
      forall i j, at2 mask_c i j = true -> at2 (X st') i j = at2 X0 i j).
  { intros X0 mask_c st st' b Hb.
    destruct (loop_body_inv L p X0 mask_c st st' b Hb)
      as (U1 & V1 & UV & k & mu & UV2 & D & _ & _ & EUV & ER & _).
    destruct (reimpose_inv X0 mask_c U1 V1 UV (X st') EUV ER)
      as (H1 & H2 & _ & _ & Hr & Hc & Hat).
    repeat split; try assumption.
    intros i j Hm. rewrite Hat, Hm. reflexivity. }
  split.
  - intros X0 mask_c st st' b Hb.
    destruct (Hpass X0 mask_c st st' b Hb) as (_ & _ & Hr & Hc & Hat).
    repeat split; try assumption. intros i j _ _. apply Hat.
  - intros fuel g os qmat mask init_rank return_norms random_state out Hout.
    unfold lrqmc in Hout.
    destruct (lrqmc_run L fuel g os qmat mask init_rank p random_state)
      as [[[st g']|e]|] eqn:Hrun; try discriminate.
    destruct (lrqmc_run_inv L fuel g os qmat mask init_rank p random_state st g' Hrun)
      as (X0 & mask_c & st0 & l & Ep & Hl).
    destruct (prepare_inv L g os g' qmat mask mask_c init_rank p random_state X0 st0 Ep)
      as (H4 & Eq & -> & _).
    destruct (passes_last L p X0 _ st0 st l Hl) as (s & Hb).
    destruct (Hpass X0 _ s st false Hb) as (Hmr & Hmc & Hr & Hc & Hat).
    destruct (qm2cm_ok qmat (Some mask) H4) as (Xc & Eq' & RX & CX & Hq).
    rewrite Eq in Eq'. inversion Eq'; subst Xc. clear Eq'.
    simpl in Hmr, Hmc.
    assert (HN : rows mask = dim0 qmat) by lia.
    assert (HM : cols mask = dim1 qmat) by lia.
    destruct (cm2qm_ok (X st) (dim0 qmat) (dim1 qmat)) as (Q & EQ & D0 & D1 & D2 & HQ);
      [congruence|congruence|].
    rewrite EQ in Hout. simpl in Hout. inversion Hout; subst out. simpl.
    repeat split; try assumption.
    intros i j k Hi Hj Hk Hm.
    destruct (Hq i j Hi Hj) as (Ha & Hb' & _ & _).
    destruct (HQ i j) as (Q0 & Q1 & Q2 & Q3).
    assert (Hleft : at2 (X st) i j = at2 X0 i j).
    { apply Hat. simpl. rewrite HN, HM, !Nat.mod_small by lia. exact Hm. }
    assert (Hright : at2 (X st) i (dim1 qmat + j) = at2 X0 i (dim1 qmat + j)).
    { apply Hat. simpl. rewrite HN, HM.
      replace (dim1 qmat + j)%nat with (j + 1 * dim1 qmat)%nat by lia.
      rewrite Nat.Div0.mod_add, !Nat.mod_small by lia. exact Hm. }
    destruct k as [|[|[|[|k]]]]; [| | | |lia].
    + rewrite Q0, Hleft, Ha. reflexivity.
    + rewrite Q1, Hleft, Ha. reflexivity.
    + rewrite Q2, Hright, Hb'. reflexivity.
    + rewrite Q3, Hright, Hb'. reflexivity.
Qed.

(** ** Zero matrices and the norm *)

Lemma Csum_n_zero (f : nat -> C) (n : nat) :
  (forall s, (s < n)%nat -> f s = C0) -> Csum_n f n = C0.
Proof.
  induction n as [|n IH]; intros Hf; simpl; [reflexivity|].
  rewrite IH by (intros; apply Hf; lia). rewrite Hf by lia.
  apply C_eq; simpl; lra.
Qed.

Lemma dot_zero_l (A B M : ndarray C) :
  dot A B = Ok M -> all_zero A -> all_zero M.
Proof.
  intros H HA. destruct (dot_inv A B M H) as (_ & Hr & _ & Hat).
  intros i j Hi Hj. rewrite Hat. apply Csum_n_zero. intros s Hs.
  rewrite HA by lia. apply C_eq; simpl; lra.
Qed.

Lemma dot_zero_r (A B M : ndarray C) :
  dot A B = Ok M -> all_zero B -> all_zero M.
Proof.
  intros H HB. destruct (dot_inv A B M H) as (Hs & _ & Hc & Hat).
  intros i j Hi Hj. rewrite Hat. apply Csum_n_zero. intros s Hlt.
  rewrite HB by lia. apply C_eq; simpl; lra.
Qed.

Lemma ctrans_zero (A : ndarray C) : all_zero A -> all_zero (ctrans A).
Proof.
  intros HA i j Hi Hj. simpl in *. rewrite HA by assumption.
  apply C_eq; simpl; lra.
Qed.

Lemma bidx_range (a b r i : nat) :
  bshape a b = Some r -> (i < r)%nat -> (bidx a i < a)%nat /\ (bidx b i < b)%nat.
Proof.
  unfold bshape, bidx. intros H Hi.
  destruct (Nat.eqb_spec a b); [inversion H; subst|].
  - destruct (Nat.eqb_spec r 1); lia.
  - destruct (Nat.eqb_spec a 1); [inversion H; subst|].
    + destruct (Nat.eqb_spec r 1); lia.
    + destruct (Nat.eqb_spec b 1); [inversion H; subst; lia|discriminate].
Qed.

Lemma sub_zero (A B D : ndarray C) :
  zip_with Csub A B = Ok D -> all_zero A -> all_zero B -> all_zero D.
Proof.
  unfold zip_with. intros H HA HB.
  destruct (bshape (rows A) (rows B)) as [r|] eqn:Er; [|discriminate].
  destruct (bshape (cols A) (cols B)) as [c|] eqn:Ec; [|discriminate].
  inversion H; subst D. intros i j Hi Hj. simpl in *.
  destruct (bidx_range _ _ _ i Er Hi). destruct (bidx_range _ _ _ j Ec Hj).
  rewrite HA, HB by assumption. apply C_eq; simpl; lra.
Qed.

Lemma linalg_norm_zero (D : ndarray C) : all_zero D -> linalg_norm D = 0.
Proof.
  intros HD. unfold linalg_norm. rewrite sum_n_zero; [apply sqrt_0|].
  intros i Hi. apply sum_n_zero. intros j Hj. rewrite HD by assumption.
  unfold Cabs2. simpl. lra.
Qed.

Lemma sum_n_ge_term (f : nat -> R) (n i : nat) :
  (forall k, 0 <= f k) -> (i < n)%nat -> f i <= sum_n f n.
Proof.
  intros Hf. induction n as [|n IH]; intros Hi; [lia|]. simpl.
  pose proof (sum_n_nonneg f n Hf). pose proof (Hf n).
  destruct (Nat.eq_dec i n) as [->|Hne]; [lra|].
  assert (f i <= sum_n f n) by (apply IH; lia). lra.
Qed.

Lemma linalg_norm_pos (D : ndarray C) (i j : nat) :
  (i < rows D)%nat -> (j < cols D)%nat -> Im (at2 D i j) <> 0 ->
  0 < linalg_norm D.
Proof.
  intros Hi Hj Hne. unfold linalg_norm. apply sqrt_lt_R0.
  apply Rlt_le_trans with (Cabs2 (at2 D i j)).
  - unfold Cabs2. nra.
  - apply Rle_trans with (sum_n (fun j' => Cabs2 (at2 D i j')) (cols D)).
    + apply (sum_n_ge_term (fun j' => Cabs2 (at2 D i j'))); [|exact Hj].
      intros. apply Cabs2_nonneg.
    + apply (sum_n_ge_term
               (fun i' => sum_n (fun j' => Cabs2 (at2 D i' j')) (cols D)));
        [|exact Hi].
      intros. apply sum_n_nonneg. intros. apply Cabs2_nonneg.
Qed.

(** A pass started from a zero [X], with a zero [X0], leaves [X], [U]
    and [V] zero and records the norm 0. *)
Lemma body_zero (L : NumLib) (p : params) (X0 : ndarray C) (mask_c : ndarray bool)
      (st st' : loop_state) (b : bool) :
  loop_body L p X0 mask_c st = Ok (st', b) ->
  all_zero X0 -> all_zero (X st) ->
  all_zero (X st') /\ all_zero (U st') /\ all_zero (V st') /\
  nth (ix st + 1) (norms st') 0 = 0 /\
  (forall i, i <> (ix st + 1)%nat -> nth i (norms st') 0 = nth i (norms st) 0) /\
  length (norms st') = length (norms st).
Proof.
  intros Hb HX0 HX.
  destruct (loop_body_inv L p X0 mask_c st st' b Hb)
    as (U1 & V1 & UV & k & mu & UV2 & D & EU & EV & EUV & ER & _ & _ & HU' & HV'
        & EUV2 & ED & EN & _).
  assert (ZU1 : all_zero U1).
  { unfold update_U in EU.
    open_bind EU as E1 XV. open_bind EU as E2 G. open_bind EU as E3 S.
    apply (dot_zero_l _ _ _ EU). apply (dot_zero_l _ _ _ E1). exact HX. }
  assert (ZV1 : all_zero V1).
  { unfold update_V in EV.
    open_bind EV as E1 G. open_bind EV as E2 S. open_bind EV as E3 UX.
    apply (dot_zero_r _ _ _ EV). apply (dot_zero_r _ _ _ E3). exact HX. }
  assert (ZUV : all_zero UV) by (apply (dot_zero_l _ _ _ EUV); exact ZU1).
  assert (ZX' : all_zero (X st')).
  { destruct (reimpose_inv X0 mask_c U1 V1 UV (X st') EUV ER)
      as (_ & _ & R1 & R2 & R3 & R4 & Hat).
    destruct (dot_inv _ _ _ EUV) as (_ & RUV & CUV & _).
    intros i j Hi Hj. rewrite Hat.
    destruct (reimpose_inv X0 mask_c U1 V1 UV (X st') EUV ER) as (S1 & S2 & S3 & S4 & _).
    rewrite HX0, ?ZUV by congruence.
    destruct (at2 mask_c i j); [reflexivity|]. apply C_eq; simpl; lra. }
  assert (ZU' : all_zero (U st')).
  { rewrite HU'. destruct (fires p mu); [|exact ZU1].
    intros i j Hi Hj. simpl in *. apply ZU1; lia. }
  assert (ZV' : all_zero (V st')).
  { rewrite HV'. destruct (fires p mu); [|exact ZV1].
    intros i j Hi Hj. simpl in *. apply ZV1; lia. }
  assert (ZD : all_zero D).
  { apply (sub_zero _ _ _ ED); [exact ZX'|].
    apply (dot_zero_l _ _ _ EUV2). exact ZU'. }
  apply set_item_inv in EN. destruct EN as [Hlen EN].
  rewrite EN, (linalg_norm_zero D ZD).
  repeat split; try assumption.
  - apply list_set_same. exact Hlen.
  - intros i Hi. apply list_set_other. lia.
  - apply list_set_length.
Qed.

(** ** A run on the black image *)

Lemma zip_with_inv {A B D : Type} (f : A -> B -> D) (P : ndarray A) (Q : ndarray B)
      (M : ndarray D) :
  zip_with f P Q = Ok M ->
  bshape (rows P) (rows Q) = Some (rows M) /\
  bshape (cols P) (cols Q) = Some (cols M) /\
  forall i j, at2 M i j = f (at2 P (bidx (rows P) i) (bidx (cols P) j))
                            (at2 Q (bidx (rows Q) i) (bidx (cols Q) j)).
Proof.
  unfold zip_with. intros H.
  destruct (bshape (rows P) (rows Q)) as [r|]; [|discriminate].
  destruct (bshape (cols P) (cols Q)) as [c|]; [|discriminate].
  inversion H; subst M. simpl. repeat split; reflexivity.
Qed.

Lemma prepare_factors (L : NumLib) (g os g' : rng L) (qmat : tensor)
      (mask mask_c : ndarray bool) (init_rank : option Z) (p : params)
      (random_state : option Z) (X0 : ndarray C) (st0 : loop_state) :
  prepare L g os qmat mask init_rank p random_state = Ok (X0, mask_c, g', st0) ->
  init_factors L g os random_state (dim0 qmat) (dim1 qmat)
               (initial_rank init_rank (dim0 qmat) (dim1 qmat))
  = Ok (U st0, V st0, g').
Proof.
  intros H. unfold prepare in H.
  open_bind H as Eq [Xc mc].
  open_bind H as Ei [[U0 V0] gf].
  open_bind H as Ez ns.
  open_bind H as Ed UV.
  open_bind H as Es D.
  open_bind H as En ns0.
  destruct mc; inversion H; subst. reflexivity.
Qed.

Lemma example_factors :
  init_factors ref_lib 0%nat 0%nat (Some 0%Z) 2 2 2
  = Ok (example_U0, example_V0, 4%nat).
Proof. reflexivity. Qed.

Lemma black_embedding_zero (mask : option (ndarray bool)) (Xc : ndarray C)
      (mc : option (ndarray bool)) :
  qm2cm black_image mask = Ok (Xc, mc) -> all_zero Xc.
Proof.
  intros H.
  destruct (qm2cm_ok black_image mask eq_refl) as (Cm & E & Hr & Hc & Hat).
  rewrite H in E. inversion E; subst Cm. simpl in Hr, Hc.
  intros i j Hi Hj. rewrite Hr in Hi. rewrite Hc in Hj.
  assert (Hz : forall a b, (a < 2)%nat -> (b < 2)%nat ->
             at2 Xc a b = C0 /\ at2 Xc a (2 + b) = C0 /\
             at2 Xc (2 + a) b = C0 /\ at2 Xc (2 + a) (2 + b) = C0).
  { intros a b Ha Hb. destruct (Hat a b Ha Hb) as (Ea & Eb & Ec & Ed).
    repeat split;
      (etransitivity; [first [exact Ea|exact Eb|exact Ec|exact Ed]|]);
      apply C_eq; simpl; lra. }
  destruct (Nat.lt_ge_cases i 2) as [Hi2|Hi2], (Nat.lt_ge_cases j 2) as [Hj2|Hj2].
  - apply (Hz i j); lia.
  - replace j with (2 + (j - 2))%nat by lia. apply (Hz i (j - 2)%nat); lia.
  - replace i with (2 + (i - 2))%nat by lia. apply (Hz (i - 2)%nat j); lia.
  - replace i with (2 + (i - 2))%nat by lia.
    replace j with (2 + (j - 2))%nat by lia.
    apply (Hz (i - 2)%nat (j - 2)%nat); lia.
Qed.

(** The run on the black image with seed 0, tolerance 2 and at least one
    pass allowed: the first pass brings the factors to zero, the
    relative change of the norm is 1 and the run returns after this one
    pass. *)
Lemma black_run (n : Z) (fuel : nat) :
  (1 <= n)%Z -> (1 <= fuel)%nat ->
  exists st g',
    lrqmc_run ref_lib fuel 0%nat 0%nat black_image one_missing None
              (example_params n) (Some 0%Z) = Some (Ok (st, g')) /\
    ix st = 0%nat /\
    length (norms st) = Z.to_nat (n + 1) /\
    0 < nth 0 (norms st) 0 /\
    (forall i, (1 <= i)%nat -> nth i (norms st) 0 = 0) /\
    rows (X st) = 4%nat /\ cols (X st) = 4%nat.
Proof.
  intros Hn Hfuel.
  pose proof ref_lib_shapes as HL.
  assert (Hv : valid_call black_image one_missing None (example_params n) (Some 0%Z))
    by (apply example_valid; lia).
  destruct (prepare_ok ref_lib 0%nat 0%nat black_image one_missing None
              (example_params n) (Some 0%Z) HL Hv)
    as (X0 & g' & st0 & Ep & Hs & Hlen & Hix & Hrk).
  destruct (prepare_inv _ _ _ _ _ _ _ _ _ _ _ _ Ep)
    as (_ & Eq & _ & HX & _ & _ & _ & _ & Hns & _).
  pose proof (prepare_factors _ _ _ _ _ _ _ _ _ _ _ _ Ep) as Ef.
  change (init_factors ref_lib 0%nat 0%nat (Some 0%Z) 2 2 2
          = Ok (U st0, V st0, g')) in Ef.
  rewrite example_factors in Ef. inversion Ef as [[HU0 HV0 Hg']]. clear Ef.
  pose proof (black_embedding_zero _ _ _ Eq) as ZX0.
  (* the norm recorded before the loop is positive *)
  assert (Hn0 : 0 < recorded_norm st0).
  { unfold recorded_norm. rewrite <- HU0, <- HV0, HX.
    destruct (dot_ok example_U0 example_V0) as (UV & EUV & RUV & CUV); [reflexivity|].
    rewrite EUV. cbn [bind].
    destruct Hs as (HX0r & HX0c & _).
    destruct (zip_with_ok Csub X0 UV) as (D & ED & RD & CD);
      [simpl in *; congruence|simpl in *; congruence|].
    rewrite ED.
    apply (linalg_norm_pos D 0 0); [simpl in *; lia|simpl in *; lia|].
    destruct (zip_with_inv _ _ _ _ ED) as (_ & _ & HatD).
    destruct (dot_inv _ _ _ EUV) as (_ & _ & _ & HatUV).
    rewrite HatD, HatUV, HX0r, HX0c, RUV, CUV. unfold bidx. simpl.
    rewrite ZX0 by (rewrite ?HX0r, ?HX0c; simpl; lia). simpl.
    replace (0 + 2) with 2 by lra. replace (1 + 2) with 3 by lra.
    replace (1 + 1 + 2) with 4 by lra. replace (1 + 1 + 1 + 2) with 5 by lra.
    lra. }
  destruct (body_progress ref_lib (example_params n) X0 (tile one_missing 2 2) st0
              _ _ HL ltac:(simpl; lra) Hs) as [Hgo _].
  destruct Hgo as (st & b & Eb & Hs' & Hlen');
    [rewrite Hlen, Hix; cbn [max_iter example_params]; lia|].
  assert (ZX : all_zero (X st0)) by (rewrite HX; exact ZX0).
  destruct (body_zero _ _ _ _ _ _ _ Eb ZX0 ZX)
    as (_ & _ & _ & Hn1 & Hkeep & _).
  destruct (loop_body_inv _ _ _ _ _ _ _ Eb)
    as (U1 & V1 & UV & k & mu & UV2 & D & _ & _ & _ & _ & _ & _ & _ & _ & _ & _
        & EN & Hb & Hix').
  rewrite Hix in *. simpl in Hn1.
  assert (H0 : nth 0 (norms st) 0 = recorded_norm st0).
  { rewrite Hkeep by lia. rewrite Hns. reflexivity. }
  assert (Hconv : converged (example_params n) (norms st) 0 = true).
  { apply converged_spec. unfold tolerance_met. simpl. rewrite Hn1, H0.
    split; [lra|].
    replace (0 - recorded_norm st0) with (- recorded_norm st0) by lra.
    rewrite Rabs_Ropp, Rabs_pos_eq by lra.
    unfold Rdiv. rewrite Rinv_r by lra. lra. }
  rewrite Hconv in Hb. simpl in Hb. subst b.
  exists st, g'. split.
  { unfold lrqmc_run. rewrite Ep. destruct fuel as [|fuel]; [lia|].
    simpl. rewrite Eb. reflexivity. }
  destruct Hs' as (_ & _ & _ & _ & HXr & HXc & _).
  split; [exact Hix'|]. split; [rewrite Hlen', Hlen; reflexivity|].
  split; [rewrite H0; exact Hn0|].
  split; [|split; assumption].
  intros i Hi. destruct (Nat.eq_dec i 1) as [->|Hne]; [exact Hn1|].
  rewrite Hkeep by lia. rewrite Hns.
  destruct i as [|i]; [lia|]. simpl. apply nth_repeat.
Qed.

(** ** Runs used as examples *)

Lemma black_returns (return_norms : bool) :
  exists out,
    lrqmc ref_lib 4 0%nat 0%nat black_image one_missing None
          (example_params 3) return_norms (Some 0%Z) = Some (Ok out).
Proof.
  destruct (black_run 3 4) as (st & g' & Hrun & _ & _ & _ & _ & HXr & HXc);
    [lia|lia|].
  destruct (cm2qm_ok (X st) 2 2 HXr HXc) as (Q & EQ & _).
  eexists. unfold lrqmc. rewrite Hrun, EQ. reflexivity.
Qed.

Lemma grey_valid :
  valid_call grey_image one_missing None (example_params 3) (Some 0%Z).
Proof.
  unfold valid_call. simpl.
  split; [reflexivity|]. split; [reflexivity|]. split; [reflexivity|].
  split; [lia|]. split; [|split; [lra|lia]].
  intros s Hs. inversion Hs. split; [lia|reflexivity].
Qed.

(** The first pass of the run on the grey image. *)
Lemma grey_first_pass :
  exists X0 g' st0 st' b,
    prepare ref_lib 0%nat 0%nat grey_image one_missing None (example_params 3)
            (Some 0%Z) = Ok (X0, tile one_missing 2 2, g', st0) /\
    loop_body ref_lib (example_params 3) X0 (tile one_missing 2 2) st0
    = Ok (st', b) /\
    at2 X0 0 1 = mkC 1 0.
Proof.
  pose proof ref_lib_shapes as HL.
  destruct (prepare_ok ref_lib 0%nat 0%nat grey_image one_missing None
              (example_params 3) (Some 0%Z) HL grey_valid)
    as (X0 & g' & st0 & Ep & Hs & Hlen & Hix & _).
  destruct (prepare_inv _ _ _ _ _ _ _ _ _ _ _ _ Ep) as (_ & Eq & _).
  destruct (qm2cm_ok grey_image (Some one_missing) eq_refl)
    as (Cm & Eq' & _ & _ & Hat).
  rewrite Eq in Eq'. inversion Eq'; subst Cm.
  destruct (Hat 0%nat 1%nat) as (Ha & _); [simpl; lia|simpl; lia|].
  destruct (body_progress ref_lib (example_params 3) X0 (tile one_missing 2 2) st0
              _ _ HL ltac:(simpl; lra) Hs) as [Hgo _].
  destruct Hgo as (st' & b & Eb & _);
    [rewrite Hlen, Hix; cbn [max_iter example_params]; lia|].
  exists X0, g', st0, st', b. split; [exact Ep|]. split; [exact Eb|exact Ha].
Qed.

(** ** The sequence of norms *)

(** One pass writes the entry after the last recorded one. *)
Lemma body_norms (L : NumLib) (p : params) (X0 : ndarray C) (mask_c : ndarray bool)
      (s s' : loop_state) (b : bool) (pre : list R) (z : nat) :
  loop_body L p X0 mask_c s = Ok (s', b) ->
  norms s = pre ++ recorded_norm s :: repeat 0 z -> length pre = ix s ->
  exists z', z = S z' /\
    norms s' = (pre ++ [recorded_norm s]) ++ recorded_norm s' :: repeat 0 z' /\
    ix s' = (if b then ix s + 1 else ix s)%nat.
Proof.
  intros Hb Hns Hpre.
  destruct (loop_body_inv L p X0 mask_c s s' b Hb)
    as (U1 & V1 & UV & k & mu & UV2 & D & _ & _ & _ & _ & _ & _ & _ & _
        & EUV2 & ED & EN & _ & Hix).
  assert (Hrec : recorded_norm s' = linalg_norm D).
  { unfold recorded_norm. rewrite EUV2. cbn [bind]. rewrite ED. reflexivity. }
  apply set_item_inv in EN. destruct EN as [Hlt EN].
  rewrite Hns in Hlt. rewrite length_app in Hlt. simpl in Hlt.
  rewrite repeat_length in Hlt.
  destruct z as [|z']; [lia|]. exists z'. split; [reflexivity|].
  split; [|exact Hix].
  rewrite EN, Hns, Hrec.
  replace (pre ++ recorded_norm s :: repeat 0 (S z'))
    with ((pre ++ [recorded_norm s]) ++ repeat 0 (S z'))
    by (rewrite <- app_assoc; reflexivity).
  replace (ix s + 1)%nat with (length (pre ++ [recorded_norm s]))
    by (rewrite length_app; simpl; lia).
  rewrite list_set_app. rewrite <- (app_assoc _ [linalg_norm D]). reflexivity.
Qed.

Lemma passes_norms (L : NumLib) (p : params) (X0 : ndarray C) (mask_c : ndarray bool)
      (s s' : loop_state) (l : list loop_state) :
  passes L p X0 mask_c s l s' ->
  forall pre z,
    norms s = pre ++ recorded_norm s :: repeat 0 z -> length pre = ix s ->
    (length l <= z)%nat /\
    norms s' = pre ++ map recorded_norm l
                   ++ recorded_norm s' :: repeat 0 (z - length l) /\
    (ix s' + 1 = ix s + length l)%nat.
Proof.
  induction 1 as [s s' Hb|s s1 l s' Hb Hl IH]; intros pre z Hns Hpre.
  - destruct (body_norms L p X0 mask_c s s' false pre z Hb Hns Hpre)
      as (z' & -> & Hns' & Hix).
    simpl. rewrite Nat.sub_0_r. split; [lia|]. split; [|lia].
    rewrite Hns', <- app_assoc. reflexivity.
  - destruct (body_norms L p X0 mask_c s s1 true pre z Hb Hns Hpre)
      as (z' & -> & Hns1 & Hix).
    destruct (IH (pre ++ [recorded_norm s]) z' Hns1) as (Hle & Hns' & Hix').
    { rewrite length_app. simpl. lia. }
    simpl. split; [lia|]. split; [|lia].
    rewrite Hns', <- app_assoc. reflexivity.
Qed.

(** C4 as stated fails: on the black image with [max_iter = 3] the run
    returns after one pass, yet the norms it returns have four entries,
    the last two never written. *)
Lemma norms_longer_than_run :
  exists st g' out ns,
    lrqmc_run ref_lib 4 0%nat 0%nat black_image one_missing None
              (example_params 3) (Some 0%Z) = Some (Ok (st, g')) /\
    ix st = 0%nat /\
    lrqmc ref_lib 4 0%nat 0%nat black_image one_missing None
          (example_params 3) true (Some 0%Z) = Some (Ok out) /\
    norms_out out = Some ns /\
    length ns = 4%nat /\ length ns <> (ix st + 1 + 1)%nat /\
    nth 2 ns 0 = 0 /\ nth 3 ns 0 = 0.
Proof.
  destruct (black_run 3 4) as (st & g' & Hrun & Hix & Hlen & _ & Hz & HXr & HXc);
    [lia|lia|].
  destruct (cm2qm_ok (X st) 2 2 HXr HXc) as (Q & EQ & _).
  exists st, g'. eexists. exists (norms st).
  split; [exact Hrun|]. split; [exact Hix|].
  split; [unfold lrqmc; rewrite Hrun, EQ; reflexivity|].
  split; [reflexivity|].
  rewrite Hlen, Hix. simpl.
  repeat split; try lia; apply Hz; lia.
Qed.

(** C4, amended: the norms returned with [return_norms] always have
    [max_iter + 1] entries, allocated as zeros before the loop and
    written by index.  With [k] the number of passes made ([k] is at
    most [max_iter]), entry 0 is [norm(X - U.dot(V))] before the loop,
    entry [i] for [1 <= i <= k] is [norm(X - U.dot(V))] at the end of
    pass [i], and the [max_iter - k] entries after them are still 0. *)
Theorem norms_layout (L : NumLib) (fuel : nat) (g os : rng L) (qmat : tensor)
        (mask : ndarray bool) (init_rank : option Z) (p : params)
        (random_state : option Z) (out : output) :
  lrqmc L fuel g os qmat mask init_rank p true random_state = Some (Ok out) ->
  exists X0 mask_c g' st0 l st ns,
    prepare L g os qmat mask init_rank p random_state = Ok (X0, mask_c, g', st0) /\
    passes L p X0 mask_c st0 l st /\
    norms_out out = Some ns /\
    length ns = S (Z.to_nat (max_iter p)) /\
    (1 <= length l <= Z.to_nat (max_iter p))%nat /\
    ns = map recorded_norm l
           ++ recorded_norm st :: repeat 0 (Z.to_nat (max_iter p) - length l).
Proof.
  intros Hout. unfold lrqmc in Hout.
  destruct (lrqmc_run L fuel g os qmat mask init_rank p random_state)
    as [[[st g']|e]|] eqn:Hrun; try discriminate.
  destruct (lrqmc_run_inv L fuel g os qmat mask init_rank p random_state st g' Hrun)
    as (X0 & mask_c & st0 & l & Ep & Hl).
  destruct (prepare_inv L g os g' qmat mask mask_c init_rank p random_state X0 st0 Ep)
    as (_ & _ & _ & _ & _ & Hix & _ & Hmax & Hns & _).
  destruct (passes_norms L p X0 mask_c st0 st l Hl [] (Z.to_nat (max_iter p)) Hns)
    as (Hle & Hns' & _); [rewrite Hix; reflexivity|].
  inversion Hout as [Ho]. destruct (cm2qm (X st)) as [Q|e]; [|discriminate].
  simpl in Ho. inversion Ho; subst out. simpl.
  exists X0, mask_c, g', st0, l, st, (norms st).
  split; [exact Ep|]. split; [exact Hl|]. split; [reflexivity|].
  split; [|split; [split; [destruct Hl; simpl; lia|exact Hle]|exact Hns']].
  rewrite Hns'. simpl.
  rewrite length_app, length_map. simpl. rewrite repeat_length. lia.
Qed.

Lemma norms_layout_witness :
  exists out ns,
    lrqmc ref_lib 4 0%nat 0%nat black_image one_missing None
          (example_params 3) true (Some 0%Z) = Some (Ok out) /\
    norms_out out = Some ns /\ length ns = 4%nat.
Proof.
  destruct (black_returns true) as (out & Hout).
  destruct (norms_layout ref_lib 4 0%nat 0%nat black_image one_missing None
              (example_params 3) (Some 0%Z) out Hout)
    as (X0 & mask_c & g1 & st0 & l & st1 & ns & _ & _ & Hns & Hlen & _).
  exists out, ns. split; [exact Hout|]. split; [exact Hns|exact Hlen].
Defined.

(** C2 as stated fails: in the first pass on the grey image, whose pixel
    (0, 1) is masked out, the entry of [X] at (0, 1) is not the entry of
    [U.dot(V)]: the input value 1 has been added to it. *)
Lemma unobserved_entry_not_overwritten :
  exists X0 mask_c g' st0 st' b U1 V1 UV,
    prepare ref_lib 0%nat 0%nat grey_image one_missing None (example_params 3)
            (Some 0%Z) = Ok (X0, mask_c, g', st0) /\
    loop_body ref_lib (example_params 3) X0 mask_c st0 = Ok (st', b) /\
    update_U ref_lib (example_params 3) (X st0) (V st0) (c_rank st0) = Ok U1 /\
    update_V ref_lib (example_params 3) (X st0) U1 (c_rank st0) = Ok V1 /\
    dot U1 V1 = Ok UV /\
    at2 mask_c 0 1 = false /\
    at2 (X st') 0 1 = Cadd (mkC 1 0) (at2 UV 0 1) /\
    at2 (X st') 0 1 <> at2 UV 0 1.
Proof.
  destruct grey_first_pass as (X0 & g' & st0 & st' & b & Ep & Eb & HX0).
  destruct (loop_body_inv _ _ _ _ _ _ _ Eb)
    as (U1 & V1 & UV & k & mu & UV2 & D & EU & EV & EUV & ER & _).
  destruct (reimpose_inv _ _ _ _ _ _ EUV ER) as (_ & _ & _ & _ & _ & _ & Hat).
  exists X0, (tile one_missing 2 2), g', st0, st', b, U1, V1, UV.
  repeat split; try assumption.
  - rewrite Hat, HX0. reflexivity.
  - rewrite Hat, HX0. simpl. intros H. apply Cadd_fixed in H.
    apply (f_equal Re) in H. simpl in H. lra.
Qed.

Lemma reimpose_adds_witness :
  exists X0 st0 st',
    rows (X st') = rows X0 /\ cols (X st') = cols X0 /\
    at2 (X st') 0 0 = at2 X0 0 0 /\ X st0 = X0.
Proof.
  destruct grey_first_pass as (X0 & g' & st0 & st' & b & Ep & Eb & _).
  destruct (reimpose_adds ref_lib (example_params 3) X0 (tile one_missing 2 2)
              st0 st' b Eb)
    as (U1 & V1 & UV & _ & _ & _ & Hr & Hc & Hat).
  destruct (prepare_inv _ _ _ _ _ _ _ _ _ _ _ _ Ep) as (_ & Eq & _ & HX & _).
  destruct (qm2cm_ok grey_image (Some one_missing) eq_refl)
    as (Cm & Eq' & RX & CX & _).
  rewrite Eq in Eq'. inversion Eq'; subst Cm.
  exists X0, st0, st'. split; [exact Hr|]. split; [exact Hc|]. split; [|exact HX].
  destruct (Hat 0%nat 0%nat) as [H00 _];
    [rewrite RX; simpl; lia|rewrite CX; simpl; lia|].
  exact H00.
Defined.

Lemma mask_pinning_witness :
  exists out,
    lrqmc ref_lib 4 0%nat 0%nat black_image one_missing None
          (example_params 3) false (Some 0%Z) = Some (Ok out) /\
    at3 (restored out) 1 0 2 = at3 black_image 1 0 2.
Proof.
  destruct (black_returns false) as (out & Hout).
  exists out. split; [exact Hout|].
  destruct (mask_pinning ref_lib (example_params 3)) as [_ Hrun].
  destruct (Hrun _ _ _ _ _ _ _ _ _ Hout) as (_ & _ & _ & Hpin).
  apply Hpin; simpl; first [lia|reflexivity].
Defined.

(** * Further properties of the quaternion algebra *)

Lemma conjugate_ok (Q : tensor) :
  dim2 Q = 4%nat ->
  exists Qc, conjugate Q = Ok Qc /\
             dim0 Qc = dim0 Q /\ dim1 Qc = dim1 Q /\ dim2 Qc = 4%nat /\
             forall i j, at3 Qc i j 0 = at3 Q i j 0 /\
                         at3 Qc i j 1 = - at3 Q i j 1 /\
                         at3 Qc i j 2 = - at3 Q i j 2 /\
                         at3 Qc i j 3 = - at3 Q i j 3.
Proof.
  intros H4. unfold conjugate, concatenate2. rewrite H4.
  cbn [negb Nat.eqb dim0 dim1 dim2 upto2 from2 tmap]. rewrite !Nat.eqb_refl.
  cbn [andb]. eexists. split; [reflexivity|].
  cbn [dim0 dim1 dim2 at3]. rewrite H4.
  repeat split; reflexivity.
Qed.

Lemma qdot_ok (Q1 Q2 : tensor) :
  dim2 Q1 = 4%nat -> dim2 Q2 = 4%nat -> dim1 Q1 = dim0 Q2 ->
  exists P,
    qdot Q1 Q2 = Ok P /\
    dim0 P = dim0 Q1 /\ dim1 P = dim1 Q2 /\ dim2 P = 4%nat /\
    forall i j,
      pixel P i j
      = quat_sum (fun s => hamilton (pixel Q1 i s) (pixel Q2 s j)) (dim1 Q1).
Proof.
  intros H1 H2 Hm. unfold qdot. rewrite H1, H2, Hm, !Nat.eqb_refl.
  cbn [negb orb]. cbv iota.
  unfold einsum_isk_sjk, scale_last, take_last.
  cbn [dim0 dim1 dim2 at3 length]. rewrite H1, H2, Hm, !Nat.eqb_refl.
  cbn [andb bind]. unfold stack4, same_shape. cbn [rows cols].
  rewrite !Nat.eqb_refl. cbn [andb]. eexists. split; [reflexivity|].
  cbn [dim0 dim1 dim2]. repeat split; try reflexivity.
  intros i j. unfold pixel, quat_sum, hamilton. cbn [at3 at2 fst snd].
  f_equal; [f_equal; [f_equal|]|]; apply sum_n_ext; intros s _; simpl; ring.
Qed.

(** The quaternion product, entry by entry: [qdot(Q1, Q2)] has the
    shape (N, K, 4) and the quaternion at (i, j) is the sum over [s] of
    the Hamilton products of the quaternions at (i, s) of [Q1] and
    (s, j) of [Q2]. *)
Theorem qdot_hamilton (Q1 Q2 : tensor) :
  dim2 Q1 = 4%nat -> dim2 Q2 = 4%nat -> dim1 Q1 = dim0 Q2 ->
  exists P,
    qdot Q1 Q2 = Ok P /\
    dim0 P = dim0 Q1 /\ dim1 P = dim1 Q2 /\ dim2 P = 4%nat /\
    forall i j,
      pixel P i j
      = quat_sum (fun s => hamilton (pixel Q1 i s) (pixel Q2 s j)) (dim1 Q1).
Proof. exact (qdot_ok Q1 Q2). Qed.

Lemma qdot_hamilton_witness :
  exists P,
    qdot quat_i quat_j = Ok P /\
    pixel P 0 0
    = quat_sum (fun s => hamilton (pixel quat_i 0 s) (pixel quat_j s 0)) 1.
Proof.
  destruct (qdot_hamilton quat_i quat_j) as (P & HP & _ & _ & _ & Hpix);
    [reflexivity|reflexivity|reflexivity|].
  exists P. split; [exact HP|]. apply Hpix.
Defined.

Lemma sum_n_neg (f : nat -> R) (n : nat) :
  sum_n (fun s => - f s) n = - sum_n f n.
Proof. induction n as [|n IH]; simpl; [lra|]. rewrite IH. lra. Qed.

Lemma Re_Csum_n (f : nat -> C) (n : nat) :
  Re (Csum_n f n) = sum_n (fun s => Re (f s)) n.
Proof. induction n as [|n IH]; simpl; [reflexivity|]. rewrite IH. reflexivity. Qed.

Lemma Im_Csum_n (f : nat -> C) (n : nat) :
  Im (Csum_n f n) = sum_n (fun s => Im (f s)) n.
Proof. induction n as [|n IH]; simpl; [reflexivity|]. rewrite IH. reflexivity. Qed.

(** The embedding turns the quaternion product into the complex matrix
    product: [qm2cm(qdot(Q1, Q2))[0]] and
    [qm2cm(Q1)[0].dot(qm2cm(Q2)[0])] have the same shape and entries. *)
Theorem embedding_multiplicative (Q1 Q2 : tensor) :
  dim2 Q1 = 4%nat -> dim2 Q2 = 4%nat -> dim1 Q1 = dim0 Q2 ->
  exists P C1 C2 CP D,
    qdot Q1 Q2 = Ok P /\
    qm2cm Q1 None = Ok (C1, None) /\ qm2cm Q2 None = Ok (C2, None) /\
    qm2cm P None = Ok (CP, None) /\
    dot C1 C2 = Ok D /\ array_equal CP D.
Proof.
  intros H1 H2 Hm.
  destruct (qdot_ok Q1 Q2 H1 H2 Hm) as (P & EP & P0 & P1 & P4 & Hpix).
  destruct (qm2cm_ok Q1 None H1) as (C1 & E1 & R1 & K1 & A1).
  destruct (qm2cm_ok Q2 None H2) as (C2 & E2 & R2 & K2 & A2).
  destruct (qm2cm_ok P None P4) as (CP & E3 & R3 & K3 & A3).
  destruct (dot_ok C1 C2) as (D & ED & RD & KD); [congruence|].
  destruct (dot_inv _ _ _ ED) as (_ & _ & _ & AD).
  exists P, C1, C2, CP, D. repeat (split; [assumption|]).
  unfold array_equal. split; [congruence|]. split; [congruence|].
  rewrite R3, K3, P0, P1. intros i j Hi Hj.
  assert (Hcase : forall i' j', (i' < dim0 Q1)%nat -> (j' < dim1 Q2)%nat ->
            at2 CP i' j' = at2 D i' j' /\
            at2 CP i' (dim1 Q2 + j') = at2 D i' (dim1 Q2 + j') /\
            at2 CP (dim0 Q1 + i') j' = at2 D (dim0 Q1 + i') j' /\
            at2 CP (dim0 Q1 + i') (dim1 Q2 + j')
            = at2 D (dim0 Q1 + i') (dim1 Q2 + j')).
  { intros i' j' Hi' Hj'.
    pose proof (Hpix i' j') as E. unfold pixel, quat_sum, hamilton in E.
    cbn [fst snd] in E. injection E as E0 Ea Eb Ec.
    destruct (A3 i' j') as (B1 & B2 & B3 & B4); [lia|lia|].
    rewrite <- P0, <- P1, B1, B2, B3, B4, P0, P1. rewrite !AD, K1.
    rewrite <- Hm in A2.
    repeat split; apply C_eq; cbn [Re Im];
      rewrite ?E0, ?Ea, ?Eb, ?Ec, ?Re_Csum_n, ?Im_Csum_n,
        sum_n_app, <- ?sum_n_plus, <- ?sum_n_neg;
      apply sum_n_ext; intros s Hs;
      destruct (A1 i' s Hi' Hs) as (F1 & F2 & F3 & F4);
      destruct (A2 s j' Hs Hj') as (G1 & G2 & G3 & G4);
      rewrite ?F1, ?F2, ?F3, ?F4, ?G1, ?G2, ?G3, ?G4;
      cbn [Cmul Re Im]; ring. }
  destruct (Nat.lt_ge_cases i (dim0 Q1)) as [Hi1|Hi1],
           (Nat.lt_ge_cases j (dim1 Q2)) as [Hj1|Hj1].
  - apply (Hcase i j); lia.
  - replace j with (dim1 Q2 + (j - dim1 Q2))%nat by lia.
    apply (Hcase i (j - dim1 Q2)%nat); lia.
  - replace i with (dim0 Q1 + (i - dim0 Q1))%nat by lia.
    apply (Hcase (i - dim0 Q1)%nat j); lia.
  - replace i with (dim0 Q1 + (i - dim0 Q1))%nat by lia.
    replace j with (dim1 Q2 + (j - dim1 Q2))%nat by lia.
    apply (Hcase (i - dim0 Q1)%nat (j - dim1 Q2)%nat); lia.
Qed.

Lemma embedding_multiplicative_witness :
  exists P C1 C2 CP D,
    qdot two_by_two two_by_two = Ok P /\
    qm2cm two_by_two None = Ok (C1, None) /\
    qm2cm P None = Ok (CP, None) /\
    dot C1 C2 = Ok D /\ array_equal CP D.
Proof.
  destruct (embedding_multiplicative two_by_two two_by_two)
    as (P & C1 & C2 & CP & D & H1 & H2 & H3 & H4 & H5 & H6);
    [reflexivity|reflexivity|reflexivity|].
  exists P, C1, C2, CP, D. repeat split; try assumption; apply H6.
Defined.

Lemma conjugate_involution_witness :
  exists Q1 Q2,
    conjugate two_by_two = Ok Q1 /\ conjugate Q1 = Ok Q2 /\
    tensor_equal Q2 two_by_two.
Proof. apply (conjugate_involution two_by_two). reflexivity. Defined.

(** Conjugation does not change the Frobenius norm. *)
Theorem frobenius_norm_conjugate (Q : tensor) :
  dim2 Q = 4%nat ->
  exists Qc nq,
    conjugate Q = Ok Qc /\ frobenius_norm Q = Ok nq /\
    frobenius_norm Qc = Ok nq.
Proof.
  intros H4.
  destruct (conjugate_ok Q H4) as (Qc & EQ & D0 & D1 & D2 & Hat).
  exists Qc. eexists. split; [exact EQ|].
  unfold frobenius_norm. rewrite H4, D2. simpl negb. cbv iota.
  split; [reflexivity|]. f_equal. f_equal.
  unfold tsum, tmap. cbn [dim0 dim1 dim2 at3]. rewrite D0, D1, D2, H4.
  apply sum_n_ext. intros i _. apply sum_n_ext. intros j _.
  destruct (Hat i j) as (E0 & E1 & E2 & E3).
  simpl. rewrite E0, E1, E2, E3. ring.
Qed.

Lemma frobenius_norm_conjugate_witness :
  exists Qc nq,
    conjugate two_by_two = Ok Qc /\ frobenius_norm two_by_two = Ok nq /\
    frobenius_norm Qc = Ok nq.
Proof. apply (frobenius_norm_conjugate two_by_two). reflexivity. Defined.

Lemma sum_n_eq_0 (f : nat -> R) (n : nat) :
  (forall i, 0 <= f i) -> sum_n f n = 0 -> forall i, (i < n)%nat -> f i = 0.
Proof.
  intros Hf Hs i Hi. pose proof (sum_n_ge_term f n i Hf Hi). specialize (Hf i). lra.
Qed.

(** Over the reals (a float array, with no rounding, overflow or
    underflow), the Frobenius norm is non-negative, and it is zero
    exactly for the quaternion matrices whose entries are all zero.
    Arrays of an integer dtype, on which [np.power] wraps around, and
    floats so small that their square is 0.0 are outside this
    statement. *)
Theorem frobenius_norm_definite (Q : tensor) :
  dim2 Q = 4%nat ->
  exists nq, frobenius_norm Q = Ok nq /\ 0 <= nq /\ (nq = 0 <-> zero_tensor Q).
Proof.
  intros H4. unfold frobenius_norm. rewrite H4. simpl negb. cbv iota.
  eexists. split; [reflexivity|]. split; [apply sqrt_pos|].
  unfold tsum, tmap. cbn [dim0 dim1 dim2 at3].
  set (cell := fun i j => sum_n (fun k => at3 Q i j k ^ 2) (dim2 Q)).
  set (row := fun i => sum_n (fun j => cell i j) (dim1 Q)).
  assert (Hcell : forall i j, 0 <= cell i j).
  { intros i j. apply sum_n_nonneg. intros k. apply pow2_ge_0. }
  assert (Hrow : forall i, 0 <= row i).
  { intros i. apply sum_n_nonneg. intros j. apply Hcell. }
  change (sqrt (sum_n row (dim0 Q)) = 0 <-> zero_tensor Q).
  split.
  - intros Hs. apply sqrt_eq_0 in Hs; [|apply sum_n_nonneg; exact Hrow].
    intros i j k Hi Hj Hk.
    pose proof (sum_n_eq_0 row (dim0 Q) Hrow Hs i Hi) as Hri.
    pose proof (sum_n_eq_0 (fun j => cell i j) (dim1 Q) (Hcell i) Hri j Hj) as Hc.
    pose proof (sum_n_eq_0 (fun k => at3 Q i j k ^ 2) (dim2 Q)
                  (fun k => pow2_ge_0 _) Hc k Hk) as Hk2.
    simpl in Hk2. nra.
  - intros Hz. rewrite sum_n_zero; [apply sqrt_0|].
    intros i Hi. apply sum_n_zero. intros j Hj. apply sum_n_zero.
    intros k Hk. rewrite (Hz i j k Hi Hj Hk). simpl. lra.
Qed.

Lemma frobenius_norm_definite_witness :
  exists nq, frobenius_norm black_image = Ok nq /\ 0 <= nq /\ nq = 0.
Proof.
  destruct (frobenius_norm_definite black_image) as (nq & E & Hpos & Hz);
    [reflexivity|].
  exists nq. split; [exact E|]. split; [exact Hpos|].
  apply Hz. intros i j k _ _ _. reflexivity.
Defined.

(** Over the reals (a float array, with no rounding, overflow or
    underflow), a quaternion times its conjugate is its squared norm:
    for a 1x1 quaternion matrix [Q], [qdot(Q, conjugate(Q))] is the real
    quaternion [frobenius_norm(Q)^2].  Arrays of an integer dtype, whose
    negation and squares wrap around, are outside this statement. *)
Theorem qdot_conjugate_norm (Q : tensor) :
  dim0 Q = 1%nat -> dim1 Q = 1%nat -> dim2 Q = 4%nat ->
  exists Qc P nq,
    conjugate Q = Ok Qc /\ qdot Q Qc = Ok P /\ frobenius_norm Q = Ok nq /\
    pixel P 0 0 = (nq * nq, 0, 0, 0).
Proof.
  intros H0 H1 H4.
  destruct (conjugate_ok Q H4) as (Qc & EQ & D0 & D1 & D2 & Hat).
  destruct (qdot_ok Q Qc H4 D2) as (P & EP & _ & _ & _ & Hpix);
    [congruence|].
  exists Qc, P. eexists. split; [exact EQ|]. split; [exact EP|].
  unfold frobenius_norm. rewrite H4. simpl negb. cbv iota.
  split; [reflexivity|].
  rewrite sqrt_sqrt.
  - rewrite Hpix, H1. unfold quat_sum, hamilton, pixel, tsum, tmap.
    cbn [dim0 dim1 dim2 at3 fst snd sum_n]. rewrite H0, H1, H4.
    destruct (Hat 0%nat 0%nat) as (E0 & E1 & E2 & E3).
    rewrite E0, E1, E2, E3. simpl.
    f_equal; [f_equal; [f_equal|]|]; ring.
  - unfold tsum. apply sum_n_nonneg. intros i. apply sum_n_nonneg. intros j.
    apply sum_n_nonneg. intros k. simpl. nra.
Qed.

Lemma qdot_conjugate_norm_witness :
  exists Qc P nq,
    conjugate one_pixel = Ok Qc /\ qdot one_pixel Qc = Ok P /\
    frobenius_norm one_pixel = Ok nq /\ pixel P 0 0 = (nq * nq, 0, 0, 0).
Proof. apply (qdot_conjugate_norm one_pixel); reflexivity. Defined.

(** * Further properties of the embedding *)

(** The matrix [qm2cm] returns has twice the rows and columns of the
    quaternion matrix and the structure [[Qa, Qb], [-conj(Qb), conj(Qa)]]:
    its lower half is determined by its upper half. *)
Theorem qm2cm_block_conjugate (Q : tensor) (mask : option (ndarray bool)) :
  dim2 Q = 4%nat ->
  exists Cm mc,
    qm2cm Q mask = Ok (Cm, mc) /\
    rows Cm = (2 * dim0 Q)%nat /\ cols Cm = (2 * dim1 Q)%nat /\
    block_conjugate Cm (dim0 Q) (dim1 Q).
Proof.
  intros H4. destruct (qm2cm_ok Q mask H4) as (Cm & E & Hr & Hc & Hat).
  exists Cm. eexists. split; [exact E|]. split; [lia|]. split; [lia|].
  intros i j Hi Hj. destruct (Hat i j Hi Hj) as (E1 & E2 & E3 & E4).
  rewrite E1, E2, E3, E4. split; apply C_eq; simpl; lra.
Qed.

Lemma qm2cm_block_conjugate_witness :
  exists Cm mc,
    qm2cm two_by_two None = Ok (Cm, mc) /\ rows Cm = 4%nat /\ cols Cm = 4%nat /\
    block_conjugate Cm 2 2.
Proof. apply (qm2cm_block_conjugate two_by_two None). reflexivity. Defined.

(** [cm2qm] is a right inverse of [qm2cm] only on structured matrices.
    For every complex matrix with an even number of rows and of columns,
    [qm2cm(cm2qm(C))[0]] has the shape of [C] and agrees with [C] on the
    upper half; it is [C] itself exactly when [C] has the structure
    [[Qa, Qb], [-conj(Qb), conj(Qa)]].  The lower half of [C] is never
    read. *)
Theorem qm2cm_cm2qm_roundtrip (Cm : ndarray C) (n m : nat) :
  rows Cm = (n + n)%nat -> cols Cm = (m + m)%nat ->
  exists Q C',
    cm2qm Cm = Ok Q /\ qm2cm Q None = Ok (C', None) /\
    rows C' = rows Cm /\ cols C' = cols Cm /\
    (forall i j, (i < n)%nat -> (j < m + m)%nat -> at2 C' i j = at2 Cm i j) /\
    (array_equal C' Cm <-> block_conjugate Cm n m).
Proof.
  intros Hr Hc.
  destruct (cm2qm_ok Cm n m Hr Hc) as (Q & EQ & D0 & D1 & D2 & HQ).
  destruct (qm2cm_ok Q None D2) as (C' & EC & Hr' & Hc' & Hat).
  rewrite D0 in Hr', Hat. rewrite D1 in Hc', Hat.
  exists Q, C'. split; [exact EQ|]. split; [exact EC|].
  split; [congruence|]. split; [congruence|].
  assert (Hblock : forall i j, (i < n)%nat -> (j < m)%nat ->
            at2 C' i j = at2 Cm i j /\
            at2 C' i (m + j) = at2 Cm i (m + j) /\
            at2 C' (n + i) j = Cneg (Cconj (at2 Cm i (m + j))) /\
            at2 C' (n + i) (m + j) = Cconj (at2 Cm i j)).
  { intros i j Hi Hj. destruct (Hat i j Hi Hj) as (E1 & E2 & E3 & E4).
    destruct (HQ i j) as (Q0 & Q1 & Q2 & Q3).
    rewrite E1, E2, E3, E4, Q0, Q1, Q2, Q3.
    repeat split; apply C_eq; simpl; lra. }
  split.
  - intros i j Hi Hj. destruct (Nat.lt_ge_cases j m) as [Hj1|Hj1].
    + apply (Hblock i j); assumption.
    + replace j with (m + (j - m))%nat by lia. apply (Hblock i (j - m)%nat); lia.
  - split.
    + intros (_ & _ & Heq) i j Hi Hj.
      destruct (Hblock i j Hi Hj) as (_ & _ & E3 & E4).
      rewrite <- E3, <- E4. split; symmetry; apply Heq; lia.
    + intros Hb. split; [congruence|]. split; [congruence|].
      rewrite Hr', Hc'. intros i j Hi Hj.
      destruct (Nat.lt_ge_cases i n) as [Hi1|Hi1],
               (Nat.lt_ge_cases j m) as [Hj1|Hj1].
      * apply (Hblock i j); assumption.
      * replace j with (m + (j - m))%nat by lia.
        apply (Hblock i (j - m)%nat); lia.
      * replace i with (n + (i - n))%nat by lia.
        destruct (Hblock (i - n)%nat j) as (_ & _ & E3 & _); [lia|lia|].
        destruct (Hb (i - n)%nat j) as (B3 & _); [lia|lia|].
        rewrite E3, B3. reflexivity.
      * replace i with (n + (i - n))%nat by lia.
        replace j with (m + (j - m))%nat by lia.
        destruct (Hblock (i - n)%nat (j - m)%nat) as (_ & _ & _ & E4); [lia|lia|].
        destruct (Hb (i - n)%nat (j - m)%nat) as (_ & B4); [lia|lia|].
        rewrite E4, B4. reflexivity.
Qed.

Lemma qm2cm_cm2qm_roundtrip_witness :
  exists Q C',
    cm2qm structured_matrix = Ok Q /\ qm2cm Q None = Ok (C', None) /\
    array_equal C' structured_matrix.
Proof.
  destruct (qm2cm_cm2qm_roundtrip structured_matrix 1 1)
    as (Q & C' & E1 & E2 & _ & _ & _ & Hiff); [reflexivity|reflexivity|].
  exists Q, C'. split; [exact E1|]. split; [exact E2|].
  apply Hiff. intros i j Hi Hj.
  assert (i = 0%nat) by lia. assert (j = 0%nat) by lia. subst.
  split; apply C_eq; simpl; lra.
Defined.

(** The mask [qm2cm] returns: none when none is passed; otherwise a
    mask of twice the rows and columns whose four quadrants each repeat
    the mask passed, and which has the shape of the complex matrix
    whenever the mask passed has the shape of the quaternion matrix. *)
Theorem qm2cm_mask (Q : tensor) (mask : ndarray bool) :
  dim2 Q = 4%nat ->
  exists Cm mc,
    qm2cm Q None = Ok (Cm, None) /\
    qm2cm Q (Some mask) = Ok (Cm, Some mc) /\
    rows mc = (2 * rows mask)%nat /\ cols mc = (2 * cols mask)%nat /\
    (forall i j, (i < rows mask)%nat -> (j < cols mask)%nat ->
       at2 mc i j = at2 mask i j /\
       at2 mc i (cols mask + j) = at2 mask i j /\
       at2 mc (rows mask + i) j = at2 mask i j /\
       at2 mc (rows mask + i) (cols mask + j) = at2 mask i j) /\
    (rows mask = dim0 Q -> cols mask = dim1 Q ->
     rows mc = rows Cm /\ cols mc = cols Cm).
Proof.
  intros H4.
  destruct (qm2cm_ok Q None H4) as (Cm & E & Hr & Hc & _).
  destruct (qm2cm_ok Q (Some mask) H4) as (Cm' & E' & _).
  assert (Cm' = Cm).
  { unfold qm2cm in E, E'. rewrite H4 in E, E'. simpl negb in E, E'.
    cbv iota in E, E'.
    destruct (zip_with Cadd _ _) as [Qa|]; [|discriminate].
    cbn [bind] in E, E'. destruct (zip_with Cadd _ _) as [Qb|]; [|discriminate].
    cbn [bind] in E, E'. destruct (hstack Qa Qb) as [top|]; [|discriminate].
    cbn [bind] in E, E'. destruct (hstack _ _) as [bot|]; [|discriminate].
    cbn [bind] in E, E'. destruct (vstack top bot) as [M|]; [|discriminate].
    cbn [bind] in E, E'. congruence. }
  subst Cm'. exists Cm, (tile mask 2 2).
  split; [exact E|]. split; [exact E'|].
  cbn [tile rows cols at2]. split; [reflexivity|]. split; [reflexivity|].
  split.
  - intros i j Hi Hj.
    replace (rows mask + i)%nat with (i + 1 * rows mask)%nat by lia.
    replace (cols mask + j)%nat with (j + 1 * cols mask)%nat by lia.
    rewrite !Nat.Div0.mod_add, !Nat.mod_small by lia.
    repeat split; reflexivity.
  - intros HR HC. rewrite Hr, Hc, HR, HC. split; lia.
Qed.

Lemma qm2cm_mask_witness :
  exists Cm mc,
    qm2cm two_by_two (Some one_missing) = Ok (Cm, Some mc) /\
    rows mc = rows Cm /\ cols mc = cols Cm /\ at2 mc 2 3 = at2 one_missing 0 1.
Proof.
  destruct (qm2cm_mask two_by_two one_missing)
    as (Cm & mc & _ & E & _ & _ & Hq & Hs); [reflexivity|].
  exists Cm, mc. split; [exact E|].
  destruct Hs as [Hr Hc]; [reflexivity|reflexivity|].
  split; [exact Hr|]. split; [exact Hc|].
  destruct (Hq 0%nat 1%nat) as (_ & _ & _ & H4); [simpl; lia|simpl; lia|].
  exact H4.
Defined.

(** * Further properties of the recovery *)

(** ** Calls outside the documented domain *)

Lemma init_factors_ok (L : NumLib) (g os : rng L) (random_state : option Z)
      (N M : nat) (r : Z) :
  lib_shapes L -> (0 <= r)%Z ->
  (forall n, random_state = Some n -> (0 <= n < 2 ^ 32)%Z) ->
  exists U0 V0 g',
    init_factors L g os random_state N M r = Ok (U0, V0, g') /\
    rows U0 = (N + N)%nat /\ cols U0 = Z.to_nat r /\
    rows V0 = Z.to_nat r /\ cols V0 = (M + M)%nat.
Proof.
  intros HL Hr Hseed. unfold init_factors.
  assert (Es : exists g0, np_random_seed L random_state os g = Ok g0).
  { unfold np_random_seed. destruct random_state as [s|]; [|eexists; reflexivity].
    specialize (Hseed s eq_refl).
    destruct (Z.ltb_spec s 0); [lia|]. destruct (Z.leb_spec (2 ^ 32) s); [lia|].
    eexists; reflexivity. }
  destruct Es as (g0 & Es). rewrite Es. cbn [bind].
  destruct (random_complex_ok L g0 (2 * Z.of_nat N) r HL)
    as (U0 & g1 & EU & RU & CU); [lia|lia|].
  rewrite EU. cbn [bind].
  destruct (random_complex_ok L g1 r (2 * Z.of_nat M) HL)
    as (V0 & g2 & EV & RV & CV); [lia|lia|].
  rewrite EV. cbn [bind].
  exists U0, V0, g2. split; [reflexivity|]. repeat split; lia.
Qed.

(** The state in which a call reaches the loop, whatever the shape of
    the mask and for every first rank that is not negative. *)
Lemma prepare_reaches_loop (L : NumLib) (g os : rng L) (qmat : tensor)
      (mask : ndarray bool) (init_rank : option Z) (p : params)
      (random_state : option Z) :
  lib_shapes L -> dim2 qmat = 4%nat ->
  (0 <= initial_rank init_rank (dim0 qmat) (dim1 qmat))%Z ->
  (forall n, random_state = Some n -> (0 <= n < 2 ^ 32)%Z) ->
  (0 <= max_iter p)%Z ->
  exists X0 g' st0,
    prepare L g os qmat mask init_rank p random_state
    = Ok (X0, tile mask 2 2, g', st0) /\
    rows X0 = (dim0 qmat + dim0 qmat)%nat /\
    cols X0 = (dim1 qmat + dim1 qmat)%nat /\
    X st0 = X0 /\
    rows (V st0) = Z.to_nat (c_rank st0) /\
    cols (V st0) = (dim1 qmat + dim1 qmat)%nat /\
    c_rank st0 = initial_rank init_rank (dim0 qmat) (dim1 qmat) /\
    (1 <= length (norms st0))%nat.
Proof.
  intros HL H4 Hrk Hseed Hmax. unfold prepare.
  destruct (qm2cm_ok qmat (Some mask) H4) as (Xc & EX & RX & CX & _).
  rewrite EX. cbn [bind].
  destruct (init_factors_ok L g os random_state (dim0 qmat) (dim1 qmat) _
              HL Hrk Hseed) as (U0 & V0 & g' & Ei & RU & CU & RV & CV).
  rewrite Ei. cbn [bind].
  unfold np_zeros. destruct (Z.ltb_spec (max_iter p + 1) 0); [lia|]. cbn [bind].
  destruct (dot_ok U0 V0) as (UV & EUV & RUV & CUV); [congruence|].
  rewrite EUV. cbn [bind].
  destruct (zip_with_ok Csub Xc UV) as (D & ED & _ & _); [lia|lia|].
  rewrite ED. cbn [bind].
  unfold set_item. rewrite repeat_length.
  destruct (Nat.ltb_spec 0 (Z.to_nat (max_iter p + 1))); [|lia]. cbn [bind].
  eexists _, _, _. split; [reflexivity|]. simpl.
  rewrite list_set_length, repeat_length.
  repeat split; try assumption; try reflexivity; lia.
Qed.

(** A negative [init_rank] is used as it is and makes the first draw of
    [np.random.uniform] raise [ValueError]; so does an image whose last
    axis is not of length 4, in [qm2cm]. *)
Theorem lrqmc_argument_errors (L : NumLib) (fuel : nat) (g os : rng L)
        (qmat : tensor) (mask : ndarray bool) (init_rank : option Z) (p : params)
        (return_norms : bool) (random_state : option Z) :
  (dim2 qmat <> 4%nat ->
   lrqmc L fuel g os qmat mask init_rank p return_norms random_state
   = Some (Raise ValueError)) /\
  (dim2 qmat = 4%nat ->
   (forall n, random_state = Some n -> (0 <= n < 2 ^ 32)%Z) ->
   (exists r, init_rank = Some r /\ (r < 0)%Z) ->
   lrqmc L fuel g os qmat mask init_rank p return_norms random_state
   = Some (Raise ValueError)).
Proof.
  split.
  - intros H4. apply Nat.eqb_neq in H4.
    unfold lrqmc, lrqmc_run, prepare, qm2cm. rewrite H4. reflexivity.
  - intros H4 Hseed (r & -> & Hr).
    unfold lrqmc, lrqmc_run, prepare.
    destruct (qm2cm_ok qmat (Some mask) H4) as (Xc & EX & _).
    rewrite EX. cbn [bind].
    assert (Hrk : initial_rank (Some r) (dim0 qmat) (dim1 qmat) = r).
    { unfold initial_rank. destruct (Z.eqb_spec r 0); [lia|].
      destruct (Z.ltb_spec (Z.of_nat (Nat.min (dim0 qmat) (dim1 qmat))) r);
        [lia|reflexivity]. }
    rewrite Hrk. unfold init_factors.
    assert (Es : exists g0, np_random_seed L random_state os g = Ok g0).
    { unfold np_random_seed. destruct random_state as [s|]; [|eexists; reflexivity].
      specialize (Hseed s eq_refl).
      destruct (Z.ltb_spec s 0); [lia|]. destruct (Z.leb_spec (2 ^ 32) s); [lia|].
      eexists; reflexivity. }
    destruct Es as (g0 & Es). rewrite Es. cbn [bind].
    unfold random_complex, np_random_uniform.
    destruct (Z.ltb_spec r 0); [|lia]. rewrite orb_true_r. reflexivity.
Qed.

Lemma lrqmc_argument_errors_witness :
  lrqmc ref_lib 4 0%nat 0%nat rgb_only one_missing None (default_params 3)
        false (Some 0%Z) = Some (Raise ValueError) /\
  lrqmc ref_lib 4 0%nat 0%nat black_image one_missing (Some (-1)%Z)
        (default_params 3) false (Some 0%Z) = Some (Raise ValueError).
Proof.
  split.
  - apply (proj1 (lrqmc_argument_errors ref_lib 4 0%nat 0%nat rgb_only one_missing
                      None (default_params 3) false (Some 0%Z))).
    simpl. lia.
  - apply (proj2 (lrqmc_argument_errors ref_lib 4 0%nat 0%nat black_image
                      one_missing (Some (-1)%Z) (default_params 3) false
                      (Some 0%Z))).
    + reflexivity.
    + intros s Hs. inversion Hs. split; [lia|reflexivity].
    + exists (-1)%Z. split; [reflexivity|lia].
Defined.

(** A negative [max_iter] never reaches the loop: [max_iter <= -2] makes
    [np.zeros] raise [ValueError], and [max_iter = -1] gives an empty
    [norms] whose entry 0 cannot be assigned, an [IndexError]. *)
Theorem lrqmc_negative_max_iter (L : NumLib) (fuel : nat) (g os : rng L)
        (qmat : tensor) (mask : ndarray bool) (init_rank : option Z) (p : params)
        (return_norms : bool) (random_state : option Z) :
  lib_shapes L -> dim2 qmat = 4%nat ->
  (0 <= initial_rank init_rank (dim0 qmat) (dim1 qmat))%Z ->
  (forall n, random_state = Some n -> (0 <= n < 2 ^ 32)%Z) ->
  ((max_iter p <= -2)%Z ->
   lrqmc L fuel g os qmat mask init_rank p return_norms random_state
   = Some (Raise ValueError)) /\
  (max_iter p = (-1)%Z ->
   lrqmc L fuel g os qmat mask init_rank p return_norms random_state
   = Some (Raise IndexError)).
Proof.
  intros HL H4 Hrk Hseed.
  destruct (qm2cm_ok qmat (Some mask) H4) as (Xc & EX & RX & CX & _).
  destruct (init_factors_ok L g os random_state (dim0 qmat) (dim1 qmat) _
              HL Hrk Hseed) as (U0 & V0 & g' & Ei & RU & CU & RV & CV).
  split; intros Hmax; unfold lrqmc, lrqmc_run, prepare;
    rewrite EX; cbn [bind]; rewrite Ei; cbn [bind]; unfold np_zeros.
  - destruct (Z.ltb_spec (max_iter p + 1) 0); [reflexivity|lia].
  - rewrite Hmax. simpl Z.ltb. cbv iota. cbn [bind].
    destruct (dot_ok U0 V0) as (UV & EUV & RUV & CUV); [congruence|].
    rewrite EUV. cbn [bind].
    destruct (zip_with_ok Csub Xc UV) as (D & ED & _ & _); [lia|lia|].
    rewrite ED. reflexivity.
Qed.

Lemma lrqmc_negative_max_iter_witness :
  lrqmc ref_lib 4 0%nat 0%nat black_image one_missing None (default_params (-2))
        false (Some 0%Z) = Some (Raise ValueError) /\
  lrqmc ref_lib 4 0%nat 0%nat black_image one_missing None (default_params (-1))
        false (Some 0%Z) = Some (Raise IndexError).
Proof.
  assert (Hseed : forall n, Some 0%Z = Some n -> (0 <= n < 2 ^ 32)%Z).
  { intros s Hs. inversion Hs. split; [lia|reflexivity]. }
  split.
  - destruct (lrqmc_negative_max_iter ref_lib 4 0%nat 0%nat black_image
                one_missing None (default_params (-2)) false (Some 0%Z)
                ref_lib_shapes) as [Hv _];
      [reflexivity|simpl; lia|exact Hseed|].
    apply Hv. simpl. lia.
  - destruct (lrqmc_negative_max_iter ref_lib 4 0%nat 0%nat black_image
                one_missing None (default_params (-1)) false (Some 0%Z)
                ref_lib_shapes) as [_ Hi];
      [reflexivity|simpl; lia|exact Hseed|].
    apply Hi. reflexivity.
Defined.

Lemma overestimation_small (L : NumLib) (Uc : ndarray C) (r : Z) :
  lib_shapes L -> (cols Uc < 2)%nat ->
  overestimation L Uc r = Raise ValueError.
Proof.
  intros HL Hc. unfold overestimation.
  destruct (dot_ok (ctrans Uc) Uc) as (G & EG & RG & _); [reflexivity|].
  rewrite EG. cbn [bind]. simpl in RG.
  set (eigvs := rev (np_sort (eigvalsh L G))).
  assert (Hq : div_list (removelast eigvs) (tl eigvs) = []).
  { apply length_zero_iff_nil. rewrite quots_length. unfold eigvs.
    rewrite length_rev, np_sort_length, (eigvalsh_length L HL). lia. }
  rewrite Hq. reflexivity.
Qed.

Lemma reimpose_bad_mask (X0 : ndarray C) (mask_c : ndarray bool) (Uc Vc : ndarray C) :
  rows X0 <> rows mask_c \/ cols X0 <> cols mask_c ->
  reimpose X0 mask_c Uc Vc = Raise IndexError.
Proof.
  intros H. unfold reimpose, shape_eqb. simpl rows. simpl cols.
  destruct (Nat.eqb_spec (rows X0) (rows mask_c)) as [Hr|Hr]; [|reflexivity].
  destruct (Nat.eqb_spec (cols X0) (cols mask_c)) as [Hc|Hc]; [|reflexivity].
  destruct H; contradiction.
Qed.

Lemma run_of_failing_first_pass (L : NumLib) (fuel : nat) (g os : rng L)
      (qmat : tensor) (mask : ndarray bool) (init_rank : option Z) (p : params)
      (return_norms : bool) (random_state : option Z)
      (X0 : ndarray C) (mask_c : ndarray bool) (g' : rng L) (st0 : loop_state)
      (e : exn) :
  prepare L g os qmat mask init_rank p random_state = Ok (X0, mask_c, g', st0) ->
  loop_body L p X0 mask_c st0 = Raise e -> (1 <= fuel)%nat ->
  lrqmc L fuel g os qmat mask init_rank p return_norms random_state
  = Some (Raise e).
Proof.
  intros Ep Eb Hfuel. unfold lrqmc, lrqmc_run. rewrite Ep.
  destruct fuel as [|fuel]; [lia|]. simpl. rewrite Eb. reflexivity.
Qed.

(** A first rank of 1 (from [init_rank = 1], or from an image with a
    single row or column) always ends in the [ValueError] of [np.argmax]
    on an empty array: with one eigenvalue there is no quotient of
    consecutive eigenvalues. *)
Theorem lrqmc_rank_one_raises (L : NumLib) (fuel : nat) (g os : rng L)
        (qmat : tensor) (mask : ndarray bool) (init_rank : option Z) (p : params)
        (return_norms : bool) (random_state : option Z) :
  lib_shapes L -> dim2 qmat = 4%nat ->
  rows mask = dim0 qmat -> cols mask = dim1 qmat ->
  (forall n, random_state = Some n -> (0 <= n < 2 ^ 32)%Z) ->
  (0 <= max_iter p)%Z ->
  initial_rank init_rank (dim0 qmat) (dim1 qmat) = 1%Z ->
  (1 <= fuel)%nat ->
  lrqmc L fuel g os qmat mask init_rank p return_norms random_state
  = Some (Raise ValueError).
Proof.
  intros HL H4 Hmr Hmc Hseed Hmax Hrk Hfuel.
  destruct (prepare_reaches_loop L g os qmat mask init_rank p random_state
              HL H4 ltac:(lia) Hseed Hmax)
    as (X0 & g' & st0 & Ep & RX & CX & HX & RV & CV & Hr & _).
  apply (run_of_failing_first_pass _ _ _ _ _ _ _ _ _ _ _ _ _ _ _ Ep); [|exact Hfuel].
  unfold loop_body. rewrite HX.
  destruct (update_U_ok L HL p X0 (V st0) (c_rank st0)) as (U1 & EU & RU & CU);
    [congruence|exact RV|lia|].
  rewrite EU. cbn [bind].
  destruct (update_V_ok L HL p X0 U1 (c_rank st0) RU CU) as (V1 & EV & RV1 & CV1);
    [lia|].
  rewrite EV. cbn [bind].
  destruct (reimpose_ok X0 (tile mask 2 2) U1 V1) as (X1 & ER & _);
    try (simpl; lia).
  rewrite ER. cbn [bind].
  rewrite (overestimation_small L U1 (c_rank st0) HL); [reflexivity|].
  rewrite CU, Hr, Hrk. simpl. lia.
Qed.

Lemma lrqmc_rank_one_raises_witness :
  lrqmc ref_lib 4 0%nat 0%nat black_image one_missing (Some 1%Z)
        (default_params 3) false (Some 0%Z) = Some (Raise ValueError).
Proof.
  apply (lrqmc_rank_one_raises ref_lib 4 0%nat 0%nat black_image one_missing
           (Some 1%Z) (default_params 3) false (Some 0%Z) ref_lib_shapes);
    try reflexivity; try (simpl; lia).
  intros s Hs. inversion Hs. split; [lia|reflexivity].
Defined.

(** A mask whose shape is not that of the image makes the first pass
    raise [IndexError], at the boolean index [X[~mask_c]]. *)
Theorem lrqmc_mask_shape_raises (L : NumLib) (fuel : nat) (g os : rng L)
        (qmat : tensor) (mask : ndarray bool) (init_rank : option Z) (p : params)
        (return_norms : bool) (random_state : option Z) :
  lib_shapes L -> dim2 qmat = 4%nat ->
  rows mask <> dim0 qmat \/ cols mask <> dim1 qmat ->
  (0 <= initial_rank init_rank (dim0 qmat) (dim1 qmat))%Z ->
  (forall n, random_state = Some n -> (0 <= n < 2 ^ 32)%Z) ->
  (0 <= max_iter p)%Z ->
  (1 <= fuel)%nat ->
  lrqmc L fuel g os qmat mask init_rank p return_norms random_state
  = Some (Raise IndexError).
Proof.
  intros HL H4 Hm Hrk Hseed Hmax Hfuel.
  destruct (prepare_reaches_loop L g os qmat mask init_rank p random_state
              HL H4 Hrk Hseed Hmax)
    as (X0 & g' & st0 & Ep & RX & CX & HX & RV & CV & Hr & _).
  apply (run_of_failing_first_pass _ _ _ _ _ _ _ _ _ _ _ _ _ _ _ Ep); [|exact Hfuel].
  unfold loop_body. rewrite HX.
  destruct (update_U_ok L HL p X0 (V st0) (c_rank st0)) as (U1 & EU & RU & CU);
    [congruence|exact RV|lia|].
  rewrite EU. cbn [bind].
  destruct (update_V_ok L HL p X0 U1 (c_rank st0) RU CU) as (V1 & EV & RV1 & CV1);
    [lia|].
  rewrite EV. cbn [bind].
  rewrite reimpose_bad_mask; [reflexivity|].
  simpl. destruct Hm; [left|right]; lia.
Qed.

Lemma lrqmc_mask_shape_raises_witness :
  lrqmc ref_lib 4 0%nat 0%nat black_image wide_mask None
        (default_params 3) false (Some 0%Z) = Some (Raise IndexError).
Proof.
  apply (lrqmc_mask_shape_raises ref_lib 4 0%nat 0%nat black_image wide_mask
           None (default_params 3) false (Some 0%Z) ref_lib_shapes);
    try reflexivity; try (simpl; lia).
  intros s Hs. inversion Hs. split; [lia|reflexivity].
Defined.

(** ** What a run returns *)

(** A pass keeps the shapes of the loop, leaves [U] with [c_rank]
    columns and does not raise the rank. *)
Lemma body_shapes (L : NumLib) (p : params) (X0 : ndarray C) (mask_c : ndarray bool)
      (st st' : loop_state) (b : bool) (n m : nat) :
  lib_shapes L -> rank_mult p <= 1 -> shapes_ok X0 mask_c st n m ->
  loop_body L p X0 mask_c st = Ok (st', b) ->
  shapes_ok X0 mask_c st' n m /\
  rows (U st') = n /\ cols (U st') = Z.to_nat (c_rank st') /\
  (c_rank st' <= c_rank st)%Z.
Proof.
  intros HL Hg (HX0r & HX0c & Hmr & Hmc & HXr & HXc & HVr & HVc & Hrk) Hb.
  destruct (loop_body_inv L p X0 mask_c st st' b Hb)
    as (U1 & V1 & UV & k & mu & UV2 & D & EU & EV & EUV & ER & EO & Hr' & HU' & HV'
        & _).
  destruct (update_U_ok L HL p (X st) (V st) (c_rank st)) as (U1' & EU' & RU & CU);
    [congruence|exact HVr|lia|].
  rewrite EU in EU'. inversion EU'; subst U1'.
  destruct (update_V_ok L HL p (X st) U1 (c_rank st) RU CU) as (V1' & EV' & RV & CV);
    [lia|].
  rewrite EV in EV'. inversion EV'; subst V1'.
  destruct (reimpose_inv X0 mask_c U1 V1 UV (X st') EUV ER)
    as (_ & _ & _ & _ & RX' & CX' & _).
  pose proof (overestimation_inv L HL U1 (c_rank st) k mu EO) as Hk.
  pose proof (py_int_shrinks (c_rank st) (rank_mult p) ltac:(lia) Hg) as Hint.
  assert (Hrange : (2 <= c_rank st' <= c_rank st)%Z).
  { rewrite Hr'. destruct (fires p mu); [|lia]. unfold shrunk_rank. lia. }
  unfold shapes_ok. rewrite HU', HV'.
  destruct (fires p mu); simpl; repeat split; try congruence; try lia.
Qed.

Lemma passes_shapes (L : NumLib) (p : params) (X0 : ndarray C) (mask_c : ndarray bool)
      (st st' : loop_state) (l : list loop_state) (n m : nat) :
  lib_shapes L -> rank_mult p <= 1 ->
  passes L p X0 mask_c st l st' -> shapes_ok X0 mask_c st n m ->
  shapes_ok X0 mask_c st' n m /\
  rows (U st') = n /\ cols (U st') = Z.to_nat (c_rank st') /\
  (c_rank st' <= c_rank st)%Z.
Proof.
  intros HL Hg Hl. induction Hl as [s s' Hb|s s1 l s' Hb Hl IH]; intros Hs.
  - apply (body_shapes L p X0 mask_c s s' false n m HL Hg Hs Hb).
  - destruct (body_shapes L p X0 mask_c s s1 true n m HL Hg Hs Hb)
      as (Hs1 & _ & _ & Hle).
    destruct (IH Hs1) as (H1 & H2 & H3 & H4).
    split; [exact H1|]. split; [exact H2|]. split; [exact H3|lia].
Qed.

(** On a valid call that returns, the image has the shape (N, M, 4) of
    the input, [U] is a (2N, r) matrix and [V] an (r, 2M) matrix for one
    and the same [r], and this final rank lies between 2 and the first
    rank. *)
Theorem lrqmc_output_shapes (L : NumLib) (fuel : nat) (g os : rng L)
        (qmat : tensor) (mask : ndarray bool) (init_rank : option Z) (p : params)
        (return_norms : bool) (random_state : option Z) (out : output) :
  lib_shapes L -> valid_call qmat mask init_rank p random_state ->
  lrqmc L fuel g os qmat mask init_rank p return_norms random_state
  = Some (Ok out) ->
  dim0 (restored out) = dim0 qmat /\ dim1 (restored out) = dim1 qmat /\
  dim2 (restored out) = 4%nat /\
  exists r,
    (2 <= r <= initial_rank init_rank (dim0 qmat) (dim1 qmat))%Z /\
    rows (factor_U out) = (2 * dim0 qmat)%nat /\
    cols (factor_U out) = Z.to_nat r /\
    rows (factor_V out) = Z.to_nat r /\
    cols (factor_V out) = (2 * dim1 qmat)%nat.
Proof.
  intros HL Hv Hout. unfold lrqmc in Hout.
  destruct (lrqmc_run L fuel g os qmat mask init_rank p random_state)
    as [[[st g']|e]|] eqn:Hrun; try discriminate.
  destruct (lrqmc_run_inv L fuel g os qmat mask init_rank p random_state st g' Hrun)
    as (X0 & mask_c & st0 & l & Ep & Hl).
  destruct (prepare_ok L g os qmat mask init_rank p random_state HL Hv)
    as (X0' & g1 & st0' & Ep' & Hs & _ & _ & Hrk).
  rewrite Ep in Ep'. inversion Ep'; subst X0' mask_c g1 st0'. clear Ep'.
  destruct Hv as (_ & _ & _ & _ & _ & Hg & _).
  destruct (passes_shapes L p X0 _ st0 st l _ _ HL Hg Hl Hs)
    as (Hs' & RU & CU & Hle).
  destruct Hs' as (_ & _ & _ & _ & RX & CX & RV & CV & H2).
  destruct (cm2qm_ok (X st) _ _ RX CX) as (Q & EQ & D0 & D1 & D2 & _).
  rewrite EQ in Hout. simpl in Hout. inversion Hout; subst out. simpl.
  repeat split; try assumption.
  exists (c_rank st). repeat split; try assumption; try lia.
Qed.

Lemma lrqmc_output_shapes_witness :
  exists out,
    lrqmc ref_lib 4 0%nat 0%nat black_image one_missing None
          (example_params 3) false (Some 0%Z) = Some (Ok out) /\
    rows (factor_U out) = 4%nat /\ cols (factor_U out) = 2%nat /\
    rows (factor_V out) = 2%nat /\ cols (factor_V out) = 4%nat.
Proof.
  destruct (black_returns false) as (out & Hout).
  exists out. split; [exact Hout|].
  destruct (lrqmc_output_shapes ref_lib 4 0%nat 0%nat black_image one_missing
              None (example_params 3) false (Some 0%Z) out ref_lib_shapes)
    as (_ & _ & _ & r & Hr & RU & CU & RV & CV);
    [apply example_valid; lia|exact Hout|].
  simpl in Hr, RU, CV.
  assert (r = 2%Z) by lia. subst r.
  repeat split; assumption.
Defined.

Lemma recorded_norm_nonneg (st : loop_state) : 0 <= recorded_norm st.
Proof.
  unfold recorded_norm.
  destruct (UV <- dot (U st) (V st) ;; zip_with Csub (X st) UV) as [D|e]; [|lra].
  apply sqrt_pos.
Qed.

(** The norms a run returns are all non-negative. *)
Theorem lrqmc_norms_nonneg (L : NumLib) (fuel : nat) (g os : rng L)
        (qmat : tensor) (mask : ndarray bool) (init_rank : option Z) (p : params)
        (random_state : option Z) (out : output) :
  lrqmc L fuel g os qmat mask init_rank p true random_state = Some (Ok out) ->
  exists ns, norms_out out = Some ns /\ Forall (fun x => 0 <= x) ns.
Proof.
  intros Hout. unfold lrqmc in Hout.
  destruct (lrqmc_run L fuel g os qmat mask init_rank p random_state)
    as [[[st g']|e]|] eqn:Hrun; try discriminate.
  destruct (lrqmc_run_inv L fuel g os qmat mask init_rank p random_state st g' Hrun)
    as (X0 & mask_c & st0 & l & Ep & Hl).
  destruct (prepare_inv L g os g' qmat mask mask_c init_rank p random_state X0 st0 Ep)
    as (_ & _ & _ & _ & _ & Hix & _ & _ & Hns & _).
  destruct (passes_norms L p X0 mask_c st0 st l Hl [] (Z.to_nat (max_iter p)) Hns)
    as (_ & Hns' & _); [rewrite Hix; reflexivity|].
  inversion Hout as [Ho]. destruct (cm2qm (X st)) as [Q|e]; [|discriminate].
  simpl in Ho. inversion Ho; subst out. simpl.
  exists (norms st). split; [reflexivity|].
  rewrite Hns'. simpl. apply Forall_app. split.
  - apply Forall_forall. intros x Hx. apply in_map_iff in Hx.
    destruct Hx as (s & <- & _). apply recorded_norm_nonneg.
  - constructor; [apply recorded_norm_nonneg|].
    apply Forall_forall. intros x Hx. apply repeat_spec in Hx. lra.
Qed.

Lemma lrqmc_norms_nonneg_witness :
  exists out ns,
    lrqmc ref_lib 4 0%nat 0%nat black_image one_missing None
          (example_params 3) true (Some 0%Z) = Some (Ok out) /\
    norms_out out = Some ns /\ Forall (fun x => 0 <= x) ns.
Proof.
  destruct (black_returns true) as (out & Hout).
  destruct (lrqmc_norms_nonneg ref_lib 4 0%nat 0%nat black_image one_missing None
              (example_params 3) (Some 0%Z) out Hout) as (ns & Hn & Hall).
  exists out, ns. repeat split; assumption.
Defined.

Lemma embedding_zero (Q : tensor) (mask : option (ndarray bool)) (Xc : ndarray C)
      (mc : option (ndarray bool)) :
  zero_tensor Q -> qm2cm Q mask = Ok (Xc, mc) -> all_zero Xc.
Proof.
  intros HZ H.
  assert (H4 : dim2 Q = 4%nat).
  { destruct (Nat.eqb_spec (dim2 Q) 4) as [e|ne]; [exact e|].
    apply Nat.eqb_neq in ne. unfold qm2cm in H. rewrite ne in H. discriminate H. }
  destruct (qm2cm_ok Q mask H4) as (Cm & E & Hr & Hc & Hat).
  rewrite H in E. inversion E; subst Cm.
  assert (Hz : forall a b, (a < dim0 Q)%nat -> (b < dim1 Q)%nat ->
             at2 Xc a b = C0 /\ at2 Xc a (dim1 Q + b) = C0 /\
             at2 Xc (dim0 Q + a) b = C0 /\ at2 Xc (dim0 Q + a) (dim1 Q + b) = C0).
  { intros a b Ha Hb. destruct (Hat a b Ha Hb) as (Ea & Eb & Ec & Ed).
    rewrite Ea, Eb, Ec, Ed, !HZ by lia.
    repeat split; apply C_eq; simpl; lra. }
  intros i j Hi Hj. rewrite Hr in Hi. rewrite Hc in Hj.
  destruct (Nat.lt_ge_cases i (dim0 Q)) as [Hi2|Hi2],
           (Nat.lt_ge_cases j (dim1 Q)) as [Hj2|Hj2].
  - apply (Hz i j); lia.
  - replace j with (dim1 Q + (j - dim1 Q))%nat by lia.
    apply (Hz i (j - dim1 Q)%nat); lia.
  - replace i with (dim0 Q + (i - dim0 Q))%nat by lia.
    apply (Hz (i - dim0 Q)%nat j); lia.
  - replace i with (dim0 Q + (i - dim0 Q))%nat by lia.
    replace j with (dim1 Q + (j - dim1 Q))%nat by lia.
    apply (Hz (i - dim0 Q)%nat (j - dim1 Q)%nat); lia.
Qed.

Lemma passes_zero (L : NumLib) (p : params) (X0 : ndarray C) (mask_c : ndarray bool)
      (st st' : loop_state) (l : list loop_state) :
  passes L p X0 mask_c st l st' -> all_zero X0 -> all_zero (X st) ->
  all_zero (X st') /\ all_zero (U st') /\ all_zero (V st').
Proof.
  intros Hl HZ0. induction Hl as [s s' Hb|s s1 l s' Hb Hl IH]; intros HZ.
  - destruct (body_zero L p X0 mask_c s s' false Hb HZ0 HZ) as (H1 & H2 & H3 & _).
    repeat split; assumption.
  - destruct (body_zero L p X0 mask_c s s1 true Hb HZ0 HZ) as (H1 & _).
    apply IH. exact H1.
Qed.

(** An image that is zero everywhere comes back zero everywhere, with
    zero factors: the first update of [U] multiplies by [X], and from
    then on [X], [U] and [V] stay zero, whatever the mask and the
    library routines do. *)
Theorem lrqmc_zero_image (L : NumLib) (fuel : nat) (g os : rng L)
        (qmat : tensor) (mask : ndarray bool) (init_rank : option Z) (p : params)
        (return_norms : bool) (random_state : option Z) (out : output) :
  zero_tensor qmat ->
  lrqmc L fuel g os qmat mask init_rank p return_norms random_state
  = Some (Ok out) ->
  zero_tensor (restored out) /\
  all_zero (factor_U out) /\ all_zero (factor_V out).
Proof.
  intros HZ Hout. unfold lrqmc in Hout.
  destruct (lrqmc_run L fuel g os qmat mask init_rank p random_state)
    as [[[st g']|e]|] eqn:Hrun; try discriminate.
  destruct (lrqmc_run_inv L fuel g os qmat mask init_rank p random_state st g' Hrun)
    as (X0 & mask_c & st0 & l & Ep & Hl).
  destruct (prepare_inv L g os g' qmat mask mask_c init_rank p random_state X0 st0 Ep)
    as (H4 & Eq & _ & HX & _).
  pose proof (embedding_zero qmat _ X0 _ HZ Eq) as HZ0.
  destruct (passes_zero L p X0 mask_c st0 st l Hl HZ0) as (ZX & ZU & ZV);
    [rewrite HX; exact HZ0|].
  destruct (passes_last L p X0 mask_c st0 st l Hl) as (s & Hb).
  destruct (loop_body_inv L p X0 mask_c s st false Hb)
    as (U1 & V1 & UV & kk & mu & UV2 & D & _ & _ & EUV & ER & _).
  destruct (reimpose_inv X0 mask_c U1 V1 UV (X st) EUV ER)
    as (_ & _ & _ & _ & RX & CX & _).
  destruct (qm2cm_ok qmat (Some mask) H4) as (Xc & Eq' & RX0 & CX0 & _).
  rewrite Eq in Eq'. inversion Eq'; subst Xc. clear Eq'.
  destruct (cm2qm_ok (X st) (dim0 qmat) (dim1 qmat)) as (Q & EQ & D0 & D1 & D2 & HQ);
    [congruence|congruence|].
  rewrite EQ in Hout. simpl in Hout. inversion Hout; subst out. simpl.
  split; [|split; assumption].
  intros i j k Hi Hj Hk. rewrite D0 in Hi. rewrite D1 in Hj. rewrite D2 in Hk.
  destruct (HQ i j) as (Q0 & Q1 & Q2 & Q3).
  assert (Ha : at2 (X st) i j = C0) by (apply ZX; lia).
  assert (Hb' : at2 (X st) i (dim1 qmat + j) = C0) by (apply ZX; lia).
  destruct k as [|[|[|[|k]]]]; [| | | |lia].
  - rewrite Q0, Ha. reflexivity.
  - rewrite Q1, Ha. reflexivity.
  - rewrite Q2, Hb'. reflexivity.
  - rewrite Q3, Hb'. reflexivity.
Qed.

Lemma lrqmc_zero_image_witness :
  exists out,
    lrqmc ref_lib 4 0%nat 0%nat black_image one_missing None
          (example_params 3) false (Some 0%Z) = Some (Ok out) /\
    zero_tensor (restored out) /\
    all_zero (factor_U out) /\ all_zero (factor_V out).
Proof.
  destruct (black_returns false) as (out & Hout).
  exists out. split; [exact Hout|].
  apply (lrqmc_zero_image ref_lib 4 0%nat 0%nat black_image one_missing None
           (example_params 3) false (Some 0%Z) out); [|exact Hout].
  intros i j k _ _ _. reflexivity.
Defined.

(** ** The convergence test along a run *)

Lemma passes_head (L : NumLib) (p : params) (X0 : ndarray C) (mask_c : ndarray bool)
      (s s' : loop_state) (l : list loop_state) :
  passes L p X0 mask_c s l s' -> exists t, l = s :: t.
Proof. intros H. destruct H; eexists; reflexivity. Qed.

(** The entries of [norms] written so far are never written again. *)
Lemma passes_keeps (L : NumLib) (p : params) (X0 : ndarray C) (mask_c : ndarray bool)
      (s s' : loop_state) (l : list loop_state) (pre : list R) (z : nat) :
  passes L p X0 mask_c s l s' ->
  norms s = pre ++ recorded_norm s :: repeat 0 z -> length pre = ix s ->
  forall i, (i <= ix s)%nat -> nth i (norms s') 0 = nth i (norms s) 0.
Proof.
  intros Hl Hns Hpre i Hi.
  destruct (passes_norms L p X0 mask_c s s' l Hl pre z Hns Hpre) as (_ & Hns' & _).
  destruct (passes_head L p X0 mask_c s s' l Hl) as (t & ->).
  rewrite Hns', Hns. simpl map. simpl app.
  destruct (Nat.lt_ge_cases i (length pre)) as [Hlt|Hge].
  - rewrite !app_nth1 by exact Hlt. reflexivity.
  - rewrite !app_nth2 by exact Hge.
    replace (i - length pre)%nat with 0%nat by lia. reflexivity.
Qed.

Lemma passes_tests (L : NumLib) (p : params) (X0 : ndarray C) (mask_c : ndarray bool)
      (s s' : loop_state) (l : list loop_state) :
  passes L p X0 mask_c s l s' ->
  forall pre z,
    norms s = pre ++ recorded_norm s :: repeat 0 z -> length pre = ix s ->
    (forall i, (ix s <= i < ix s')%nat -> converged p (norms s') i = false) /\
    (converged p (norms s') (ix s') = true \/ (max_iter p <= Z.of_nat (ix s'))%Z).
Proof.
  induction 1 as [s s' Hb|s s1 l s' Hb Hl IH]; intros pre z Hns Hpre.
  - destruct (loop_body_inv L p X0 mask_c s s' false Hb)
      as (U1 & V1 & UV & k & mu & UV2 & D & _ & _ & _ & _ & _ & _ & _ & _ & _ & _
          & _ & Hflag & Hix).
    simpl in Hix. rewrite Hix. split; [intros i Hi; lia|].
    destruct (converged p (norms s') (ix s)); [left; reflexivity|].
    destruct (Z.leb_spec (max_iter p) (Z.of_nat (ix s))); [right; assumption|].
    discriminate Hflag.
  - destruct (loop_body_inv L p X0 mask_c s s1 true Hb)
      as (U1 & V1 & UV & k & mu & UV2 & D & _ & _ & _ & _ & _ & _ & _ & _ & _ & _
          & _ & Hflag & Hix).
    simpl in Hix.
    destruct (body_norms L p X0 mask_c s s1 true pre z Hb Hns Hpre)
      as (z' & -> & Hns1 & _).
    assert (Hpre1 : length (pre ++ [recorded_norm s]) = ix s1)
      by (rewrite length_app; simpl; lia).
    destruct (IH _ _ Hns1 Hpre1) as (Hearlier & Hlast).
    split; [|exact Hlast].
    intros i Hi. destruct (Nat.eq_dec i (ix s)) as [->|Hne].
    + assert (Hc1 : converged p (norms s1) (ix s) = false).
      { destruct (converged p (norms s1) (ix s)); [discriminate Hflag|reflexivity]. }
      unfold converged in *.
      rewrite !(passes_keeps L p X0 mask_c s1 s' l _ _ Hl Hns1 Hpre1) by lia.
      exact Hc1.
    + apply Hearlier. lia.
Qed.

Lemma passes_last_state (L : NumLib) (p : params) (X0 : ndarray C)
      (mask_c : ndarray bool) (st st' : loop_state) (l : list loop_state) :
  passes L p X0 mask_c st l st' ->
  exists l' s, l = l' ++ [s] /\ loop_body L p X0 mask_c s = Ok (st', false).
Proof.
  induction 1 as [s s' Hb|s s1 l' s' Hb Hl IH].
  - exists [], s. split; [reflexivity|exact Hb].
  - destruct IH as (l0 & s0 & -> & Hb0). exists (s :: l0), s0.
    split; [reflexivity|exact Hb0].
Qed.

(** The passes of a run whose first pass stops the loop. *)
Lemma passes_single (L : NumLib) (p : params) (X0 : ndarray C)
      (mask_c : ndarray bool) (st st1 st' : loop_state) (l : list loop_state) :
  loop_body L p X0 mask_c st = Ok (st1, false) ->
  passes L p X0 mask_c st l st' -> l = [st] /\ st' = st1.
Proof.
  intros Hb Hl. inversion Hl as [s s' Hb'|s s1 l' s' Hb' Hl']; subst.
  - rewrite Hb in Hb'. inversion Hb'. split; reflexivity.
  - rewrite Hb in Hb'. discriminate Hb'.
Qed.

Lemma exceeds_dec (x : xfloat) (t : R) : {exceeds x t} + {~ exceeds x t}.
Proof.
  destruct x; simpl; try (right; tauto); try (left; exact I). apply Rlt_dec.
Qed.

(** ** Runs on grey images with the reference library *)

Lemma Csum_n_ext (f g : nat -> C) (n : nat) :
  (forall s, (s < n)%nat -> f s = g s) -> Csum_n f n = Csum_n g n.
Proof.
  induction n as [|n IH]; intros Hfg; simpl; [reflexivity|].
  rewrite IH by (intros; apply Hfg; lia). rewrite Hfg by lia. reflexivity.
Qed.

Lemma Csum_n_app (f : nat -> C) (n m : nat) :
  Csum_n f (n + m) = Cadd (Csum_n f n) (Csum_n (fun s => f (n + s)%nat) m).
Proof.
  induction m as [|m IH].
  - rewrite Nat.add_0_r. simpl. apply C_eq; simpl; lra.
  - replace (n + S m)%nat with (S (n + m)) by lia. simpl. rewrite IH.
    apply C_eq; simpl; lra.
Qed.

Lemma Csum_n_const (c : C) (n : nat) :
  Csum_n (fun _ => c) n = mkC (INR n * Re c) (INR n * Im c).
Proof.
  induction n as [|n IH].
  - simpl. apply C_eq; simpl; lra.
  - rewrite S_INR. simpl Csum_n. rewrite IH. apply C_eq; simpl; lra.
Qed.

(** A sum with one non-zero term. *)
Lemma Csum_n_single (f : nat -> C) (n c : nat) :
  (c < n)%nat -> (forall s, (s < n)%nat -> s <> c -> f s = C0) ->
  Csum_n f n = f c.
Proof.
  induction n as [|n IH]; intros Hc Hz; [lia|]. simpl.
  destruct (Nat.eq_dec c n) as [->|Hne].
  - rewrite (Csum_n_zero f n) by (intros s Hs; apply Hz; lia).
    apply C_eq; simpl; lra.
  - rewrite IH by (try lia; intros s Hs Hsc; apply Hz; lia).
    rewrite (Hz n) by lia. apply C_eq; simpl; lra.
Qed.

(** Row and column sums of the embedding of a grey image. *)
Lemma grey_row_sum (N : nat) (A : ndarray C) (f : nat -> C) (c : C) (i : nat) :
  grey_pattern N A -> (i < N + N)%nat ->
  (forall j, (j < N + N)%nat -> f j = c) ->
  Csum_n (fun j => Cmul (at2 A i j) (f j)) (N + N)
  = mkC (INR N * Re c) (INR N * Im c).
Proof.
  intros (_ & _ & Hp) Hi Hf. rewrite Csum_n_app.
  destruct (Nat.lt_ge_cases i N) as [Hlt|Hge].
  - rewrite (Csum_n_ext _ (fun _ => c)).
    2:{ intros j Hj. destruct (Hp i j Hlt Hj) as (E & _). rewrite E, Hf by lia.
        apply C_eq; simpl; lra. }
    rewrite (Csum_n_zero (fun s => Cmul (at2 A i (N + s)) (f (N + s)%nat))).
    2:{ intros j Hj. destruct (Hp i j Hlt Hj) as (_ & E & _). rewrite E.
        apply C_eq; simpl; lra. }
    rewrite Csum_n_const. apply C_eq; simpl; lra.
  - replace i with (N + (i - N))%nat by lia.
    rewrite (Csum_n_zero (fun j => Cmul (at2 A (N + (i - N)) j) (f j))).
    2:{ intros j Hj. destruct (Hp (i - N)%nat j ltac:(lia) Hj) as (_ & _ & E & _).
        rewrite E. apply C_eq; simpl; lra. }
    rewrite (Csum_n_ext _ (fun _ => c)).
    2:{ intros j Hj. destruct (Hp (i - N)%nat j ltac:(lia) Hj) as (_ & _ & _ & E).
        rewrite E, Hf by lia. apply C_eq; simpl; lra. }
    rewrite Csum_n_const. apply C_eq; simpl; lra.
Qed.

Lemma grey_col_sum (N : nat) (A : ndarray C) (f : nat -> C) (c : C) (j : nat) :
  grey_pattern N A -> (j < N + N)%nat ->
  (forall i, (i < N + N)%nat -> f i = c) ->
  Csum_n (fun i => Cmul (f i) (at2 A i j)) (N + N)
  = mkC (INR N * Re c) (INR N * Im c).
Proof.
  intros (_ & _ & Hp) Hj Hf. rewrite Csum_n_app.
  destruct (Nat.lt_ge_cases j N) as [Hlt|Hge].
  - rewrite (Csum_n_ext _ (fun _ => c)).
    2:{ intros i Hi. destruct (Hp i j Hi Hlt) as (E & _). rewrite E, Hf by lia.
        apply C_eq; simpl; lra. }
    rewrite (Csum_n_zero (fun s => Cmul (f (N + s)%nat) (at2 A (N + s) j))).
    2:{ intros i Hi. destruct (Hp i j Hi Hlt) as (_ & _ & E & _). rewrite E.
        apply C_eq; simpl; lra. }
    rewrite Csum_n_const. apply C_eq; simpl; lra.
  - replace j with (N + (j - N))%nat by lia.
    rewrite (Csum_n_zero (fun i => Cmul (f i) (at2 A i (N + (j - N))))).
    2:{ intros i Hi. destruct (Hp i (j - N)%nat Hi ltac:(lia)) as (_ & E & _).
        rewrite E. apply C_eq; simpl; lra. }
    rewrite (Csum_n_ext _ (fun _ => c)).
    2:{ intros i Hi. destruct (Hp i (j - N)%nat Hi ltac:(lia)) as (_ & _ & _ & E).
        rewrite E, Hf by lia. apply C_eq; simpl; lra. }
    rewrite Csum_n_const. apply C_eq; simpl; lra.
Qed.

(** The product of two constant matrices. *)
Lemma dot_constant (A B M : ndarray C) (a b : C) :
  dot A B = Ok M -> constant A a -> constant B b ->
  constant M (mkC (INR (cols A) * Re (Cmul a b)) (INR (cols A) * Im (Cmul a b))).
Proof.
  intros H HA HB. destruct (dot_inv A B M H) as (Hs & Hr & Hc & Hat).
  intros i j Hi Hj. rewrite Hat.
  rewrite (Csum_n_ext _ (fun _ => Cmul a b)); [apply Csum_n_const|].
  intros s Hs'. rewrite HA, HB by lia. reflexivity.
Qed.

(** What [regularised] returns, entry by entry. *)
Lemma regularised_inv (G S : ndarray C) (lam : R) (r : Z) :
  regularised G lam r = Ok S -> rows G = Z.to_nat r -> cols G = Z.to_nat r ->
  rows S = Z.to_nat r /\ cols S = Z.to_nat r /\
  forall i j, (i < Z.to_nat r)%nat -> (j < Z.to_nat r)%nat ->
    at2 S i j = Cadd (at2 G i j) (RtoC (lam * (if (i =? j)%nat then 1 else 0))).
Proof.
  unfold regularised, np_eye. intros H Hr Hc.
  destruct (Z.ltb_spec r 0); [discriminate H|]. cbn [bind] in H.
  rewrite zip_with_same in H by (simpl; assumption).
  inversion H; subst S. simpl. split; [exact Hr|]. split; [exact Hc|].
  intros i j Hi Hj. rewrite Hr, Hc, !bidx_lt by lia. reflexivity.
Qed.

(** [ref_lib]'s pseudoinverse of a matrix whose diagonal is real. *)
Lemma Cinv_real (d : R) : d <> 0 -> Cinv (mkC d 0) = mkC (/ d) 0.
Proof. intros Hd. apply C_eq; unfold Cinv, Cabs2; simpl; field; exact Hd. Qed.

(** The Gram matrix of a constant factor, regularised: its diagonal. *)
Lemma regularised_gram (G S : ndarray C) (lam : R) (r : Z) (n : nat) (f g : nat -> nat -> C)
      (b : C) :
  regularised G lam r = Ok S -> rows G = Z.to_nat r -> cols G = Z.to_nat r ->
  (forall c, (c < Z.to_nat r)%nat ->
     at2 G c c = Csum_n (fun s => Cmul (f c s) (g c s)) (n + n)) ->
  (forall c s, (c < Z.to_nat r)%nat -> (s < n + n)%nat ->
     Cmul (f c s) (g c s) = mkC (Cabs2 b) 0) ->
  forall c, (c < Z.to_nat r)%nat ->
    at2 S c c = mkC (2 * INR n * Cabs2 b + lam) 0.
Proof.
  intros HS Hr Hc HG Hfg c Hlt.
  destruct (regularised_inv G S lam r HS Hr Hc) as (_ & _ & Hat).
  rewrite Hat by exact Hlt. rewrite Nat.eqb_refl, HG by exact Hlt.
  rewrite (Csum_n_ext _ (fun _ => mkC (Cabs2 b) 0))
    by (intros s Hs; apply Hfg; assumption).
  rewrite Csum_n_const, plus_INR. apply C_eq; simpl; lra.
Qed.

Lemma ref_update_U (N : nat) (p : params) (Xc Vc U1 : ndarray C) (r : Z) (b : C) :
  grey_pattern N Xc -> rows Vc = Z.to_nat r -> cols Vc = (N + N)%nat ->
  constant Vc b -> 2 * INR N * Cabs2 b + reg_coef p <> 0 ->
  update_U ref_lib p Xc Vc r = Ok U1 ->
  rows U1 = (N + N)%nat /\ cols U1 = Z.to_nat r /\
  constant U1 (next_factor N (reg_coef p) b).
Proof.
  intros HX HVr HVc Hb Hd H. unfold update_U in H.
  open_bind H as E1 XV. open_bind H as E2 G. open_bind H as E3 S.
  destruct (dot_inv _ _ _ E1) as (_ & R1 & C1 & A1).
  destruct (dot_inv _ _ _ E2) as (_ & R2 & C2 & A2).
  destruct (dot_inv _ _ _ H) as (_ & R4 & C4 & A4).
  simpl in R1, C1, R2, C2, R4, C4.
  destruct HX as (HXr & HXc & HXp).
  assert (HS : forall c, (c < Z.to_nat r)%nat ->
             at2 S c c = mkC (2 * INR N * Cabs2 b + reg_coef p) 0).
  { apply (regularised_gram G S (reg_coef p) r N
             (fun c s => at2 Vc c s) (fun c s => Cconj (at2 Vc c s)) b E3);
      try congruence.
    - intros c Hc. rewrite A2, HVc. reflexivity.
    - intros c s Hc Hs. rewrite Hb by lia. apply C_eq; unfold Cabs2; simpl; ring. }
  assert (HSr : rows S = Z.to_nat r /\ cols S = Z.to_nat r).
  { destruct (regularised_inv G S (reg_coef p) r E3) as (H1 & H2 & _);
      [congruence|congruence|tauto]. }
  destruct HSr as [HSr HSc].
  split; [congruence|]. split; [congruence|].
  intros i c Hi Hc. rewrite R4, R1, HXr in Hi. rewrite C4, HSr in Hc.
  rewrite A4, C1, HVr.
  rewrite (Csum_n_single _ (Z.to_nat r) c Hc).
  2:{ intros s Hs Hsc. simpl. destruct (Nat.eqb_spec s c); [contradiction|].
      apply C_eq; simpl; lra. }
  simpl. rewrite Nat.eqb_refl, HS, Cinv_real by assumption.
  rewrite A1, HXc.
  rewrite (grey_row_sum N Xc _ (Cconj b) i (conj HXr (conj HXc HXp)) Hi).
  2:{ intros j Hj. simpl. rewrite Hb by lia. reflexivity. }
  unfold next_factor. apply C_eq; simpl; field; exact Hd.
Qed.

Lemma ref_update_V (N : nat) (p : params) (Xc Uc V1 : ndarray C) (r : Z) (a : C) :
  grey_pattern N Xc -> rows Uc = (N + N)%nat -> cols Uc = Z.to_nat r ->
  constant Uc a -> 2 * INR N * Cabs2 a + reg_coef p <> 0 ->
  update_V ref_lib p Xc Uc r = Ok V1 ->
  rows V1 = Z.to_nat r /\ cols V1 = (N + N)%nat /\
  constant V1 (next_factor N (reg_coef p) a).
Proof.
  intros HX HUr HUc Ha Hd H. unfold update_V in H.
  open_bind H as E1 G. open_bind H as E2 S. open_bind H as E3 UX.
  destruct (dot_inv _ _ _ E1) as (_ & R1 & C1 & A1).
  destruct (dot_inv _ _ _ E3) as (_ & R3 & C3 & A3).
  destruct (dot_inv _ _ _ H) as (_ & R4 & C4 & A4).
  simpl in R1, C1, R3, C3, R4, C4.
  destruct HX as (HXr & HXc & HXp).
  assert (HS : forall c, (c < Z.to_nat r)%nat ->
             at2 S c c = mkC (2 * INR N * Cabs2 a + reg_coef p) 0).
  { apply (regularised_gram G S (reg_coef p) r N
             (fun c s => Cconj (at2 Uc s c)) (fun c s => at2 Uc s c) a E2);
      try congruence.
    - intros c Hc. rewrite A1. simpl. rewrite HUr. reflexivity.
    - intros c s Hc Hs. rewrite Ha by lia. apply C_eq; unfold Cabs2; simpl; ring. }
  assert (HSr : rows S = Z.to_nat r /\ cols S = Z.to_nat r).
  { destruct (regularised_inv G S (reg_coef p) r E2) as (H1 & H2 & _);
      [congruence|congruence|tauto]. }
  destruct HSr as [HSr HSc].
  split; [congruence|]. split; [congruence|].
  intros c j Hc Hj. rewrite R4 in Hc. simpl in Hc. rewrite HSc in Hc.
  rewrite C4, C3, HXc in Hj.
  rewrite A4. simpl cols. rewrite HSr.
  rewrite (Csum_n_single _ (Z.to_nat r) c Hc).
  2:{ intros s Hs Hsc. simpl. destruct (Nat.eqb_spec c s); [congruence|].
      apply C_eq; simpl; lra. }
  simpl. rewrite Nat.eqb_refl, HS, Cinv_real by assumption.
  rewrite A3. simpl. rewrite HUr.
  rewrite (grey_col_sum N Xc _ (Cconj a) j (conj HXr (conj HXc HXp)) Hj).
  2:{ intros i Hi. rewrite Ha by lia. reflexivity. }
  unfold next_factor. apply C_eq; simpl; field; exact Hd.
Qed.

Lemma np_sort_repeat (e : R) (n : nat) : np_sort (repeat e n) = repeat e n.
Proof.
  induction n as [|n IH]; [reflexivity|]. simpl. rewrite IH.
  destruct n as [|n]; [reflexivity|]. simpl.
  destruct (Rle_dec e e) as [_|Hn]; [reflexivity|]. exfalso. apply Hn. lra.
Qed.

Lemma nth_repeat_lt (e : R) (n i : nat) : (i < n)%nat -> nth i (repeat e n) 0 = e.
Proof.
  revert i. induction n as [|n IH]; intros i Hi; [lia|].
  destruct i as [|i]; [reflexivity|]. simpl. apply IH. lia.
Qed.

Lemma list_sum_repeat (e : R) (n : nat) : list_sum (repeat e n) = INR n * e.
Proof.
  induction n as [|n IH]; [simpl; lra|].
  rewrite S_INR. simpl repeat. unfold list_sum in *. simpl. rewrite IH. lra.
Qed.

Lemma xdiv_same (x : R) : x <> 0 -> xdiv x x = Fin 1.
Proof.
  intros Hx. unfold xdiv. destruct (Req_dec_T x 0); [contradiction|].
  f_equal. field. exact Hx.
Qed.

(** The eigenvalue test of [ref_lib] on a constant factor: every
    quotient is 1, so the index is 0 and [mu] is 1. *)
Lemma ref_overestimation (N : nat) (U1 : ndarray C) (r : Z) (a : C) (k : nat)
      (mu : xfloat) :
  rows U1 = (N + N)%nat -> cols U1 = Z.to_nat r -> (2 <= r)%Z -> (1 <= N)%nat ->
  constant U1 a -> 0 < Cabs2 a ->
  overestimation ref_lib U1 r = Ok (k, mu) -> k = 0%nat /\ mu = Fin 1.
Proof.
  intros HUr HUc Hr HN Ha Hpos H.
  destruct (overestimation_spec ref_lib U1 r k mu H) as (G & EG & Hfirst & Hmu).
  destruct (dot_inv _ _ _ EG) as (_ & RG & CG & AG). simpl in RG, CG, AG.
  set (e := 2 * INR N * Cabs2 a).
  assert (He : 0 < e).
  { unfold e. assert (1 <= INR N) by (apply (le_INR 1); exact HN). nra. }
  assert (Heig : rev (np_sort (eigvalsh ref_lib G)) = repeat e (Z.to_nat r)).
  { simpl eigvalsh. rewrite RG, HUc.
    rewrite (map_ext_in _ (fun _ => e)).
    - rewrite map_const, length_seq, !np_sort_repeat, rev_repeat. reflexivity.
    - intros i Hi. apply in_seq in Hi. rewrite AG, HUr.
      rewrite (Csum_n_ext _ (fun _ => mkC (Cabs2 a) 0)).
      + rewrite Csum_n_const, plus_INR. unfold e. simpl. lra.
      + intros s Hs. rewrite Ha by lia. apply C_eq; unfold Cabs2; simpl; ring. }
  rewrite Heig in Hfirst, Hmu. clear Heig.
  destruct Hfirst as (Hk & _ & Hfirst). rewrite repeat_length in Hk.
  assert (Hratio : forall i, (i + 1 < Z.to_nat r)%nat ->
             ratio (repeat e (Z.to_nat r)) i = Fin 1).
  { intros i Hi. unfold ratio. rewrite !nth_repeat_lt by lia.
    apply xdiv_same. lra. }
  assert (Hk0 : k = 0%nat).
  { destruct k as [|k]; [reflexivity|]. exfalso.
    apply (Hfirst 0%nat); [lia|]. rewrite !Hratio by lia. simpl. lra. }
  split; [exact Hk0|]. subst k.
  rewrite Hmu, nth_repeat_lt, list_sum_repeat by lia.
  rewrite INR_IZR_INZ, Z2Nat.id by lia. rewrite minus_IZR.
  replace (IZR r * e - e) with ((IZR r - 1) * e) by ring.
  apply xdiv_same. apply IZR_le in Hr. nra.
Qed.

Lemma next_factor_abs2 (N : nat) (lam : R) (b : C) :
  2 * INR N * Cabs2 b + lam <> 0 ->
  Cabs2 (next_factor N lam b) = gain N lam (Cabs2 b).
Proof.
  intros Hd. unfold next_factor, gain, Cabs2 in *. simpl. field. exact Hd.
Qed.

Lemma gain_pos (N : nat) (lam s : R) :
  (1 <= N)%nat -> 0 < lam -> 0 < s -> 0 < gain N lam s.
Proof.
  intros HN Hl Hs. unfold gain.
  assert (H1 : 1 <= INR N) by (apply (le_INR 1); exact HN).
  assert (H2 : 0 < INR N * INR N) by nra.
  assert (H3 : 0 < 2 * INR N * s + lam) by nra.
  apply Rdiv_lt_0_compat; [|nra].
  apply Rmult_lt_0_compat; assumption.
Qed.

(** The product of a constant factor with the factor fitted to it. *)
Lemma estimate_spec (N : nat) (lam : R) (r : nat) (a : C) :
  2 * INR N * Cabs2 a + lam <> 0 ->
  mkC (INR r * Re (Cmul a (next_factor N lam a)))
      (INR r * Im (Cmul a (next_factor N lam a)))
  = mkC (estimate N lam r a) 0.
Proof.
  intros Hd. unfold estimate, next_factor, Cabs2 in *.
  apply C_eq; simpl; field; exact Hd.
Qed.

(** One pass of the loop with [ref_lib], started from the embedding of
    a grey image and a constant factor [V]: the factors stay constant,
    the eigenvalue test gives [mu = 1], and the unobserved entries of
    [X] are those of [X0] plus the entry of the product. *)
Lemma grey_pass (N : nat) (p : params) (X0 : ndarray C) (mask_c : ndarray bool)
      (st st' : loop_state) (flag : bool) (b : C) :
  (1 <= N)%nat -> 0 < reg_coef p -> rank_mult p <= 1 ->
  grey_pattern N (X st) ->
  shapes_ok X0 mask_c st (N + N) (N + N) ->
  constant (V st) b -> 0 < Cabs2 b ->
  loop_body ref_lib p X0 mask_c st = Ok (st', flag) ->
  let a := next_factor N (reg_coef p) b in
  c_rank st' = (if Rlt_dec (rot p) 1
                then shrunk_rank 0 (c_rank st) (rank_mult p) else c_rank st) /\
  constant (U st') a /\ constant (V st') (next_factor N (reg_coef p) a) /\
  0 < Cabs2 a /\ 0 < Cabs2 (next_factor N (reg_coef p) a) /\
  forall i j, (i < N + N)%nat -> (j < N + N)%nat ->
    at2 (X st') i j
    = if at2 mask_c i j then at2 X0 i j
      else Cadd (at2 X0 i j)
                (mkC (estimate N (reg_coef p) (Z.to_nat (c_rank st)) a) 0).
Proof.
  intros HN Hlam Hg HX (HX0r & HX0c & Hmr & Hmc & HXr & HXc & HVr & HVc & Hrk)
         Hb Hpos Hbody a.
  assert (HN1 : 1 <= INR N) by (apply (le_INR 1); exact HN).
  destruct (loop_body_inv ref_lib p X0 mask_c st st' flag Hbody)
    as (U1 & V1 & UV & k & mu & UV2 & D & EU & EV & EUV & ER & EO & Hr' & HU' & HV'
        & _).
  assert (Hd : 2 * INR N * Cabs2 b + reg_coef p <> 0) by nra.
  destruct (ref_update_U N p (X st) (V st) U1 (c_rank st) b HX HVr HVc Hb Hd EU)
    as (RU & CU & HU1).
  fold a in HU1.
  assert (Hapos : 0 < Cabs2 a).
  { unfold a. rewrite next_factor_abs2 by exact Hd. apply gain_pos; assumption. }
  assert (Hd' : 2 * INR N * Cabs2 a + reg_coef p <> 0) by nra.
  destruct (ref_update_V N p (X st) U1 V1 (c_rank st) a HX RU CU HU1 Hd' EV)
    as (RV & CV & HV1).
  assert (Hbpos : 0 < Cabs2 (next_factor N (reg_coef p) a)).
  { rewrite next_factor_abs2 by exact Hd'. apply gain_pos; assumption. }
  destruct (ref_overestimation N U1 (c_rank st) a k mu RU CU Hrk HN HU1 Hapos EO)
    as [-> ->].
  assert (Hf : fires p (Fin 1) = if Rlt_dec (rot p) 1 then true else false)
    by reflexivity.
  rewrite Hf in Hr', HU', HV'.
  split; [destruct (Rlt_dec (rot p) 1); exact Hr'|].
  split.
  { rewrite HU'. destruct (Rlt_dec (rot p) 1); [|exact HU1].
    intros i j Hi Hj. simpl in *. apply HU1; lia. }
  split.
  { rewrite HV'. destruct (Rlt_dec (rot p) 1); [|exact HV1].
    intros i j Hi Hj. simpl in *. apply HV1; lia. }
  split; [exact Hapos|]. split; [exact Hbpos|].
  intros i j Hi Hj.
  destruct (reimpose_inv X0 mask_c U1 V1 UV (X st') EUV ER)
    as (_ & _ & RUV & CUV & _ & _ & Hat).
  rewrite Hat.
  pose proof (dot_constant U1 V1 UV _ _ EUV HU1 HV1) as HUV.
  rewrite CU, estimate_spec in HUV by exact Hd'.
  rewrite HUV by lia. reflexivity.
Qed.

Lemma sum_n_const (c : R) (n : nat) : sum_n (fun _ => c) n = INR n * c.
Proof.
  induction n as [|n IH]; [simpl; lra|]. rewrite S_INR. simpl. rewrite IH. lra.
Qed.

(** What [recorded_norm] computes when the shapes fit. *)
Lemma recorded_norm_sum (st : loop_state) (n m : nat) (UV : ndarray C) :
  rows (X st) = n -> cols (X st) = m -> dot (U st) (V st) = Ok UV ->
  rows UV = n -> cols UV = m ->
  recorded_norm st
  = sqrt (sum_n (fun i => sum_n (fun j => Cabs2 (Csub (at2 (X st) i j) (at2 UV i j))) m) n).
Proof.
  intros HXr HXc E Rr Rc. unfold recorded_norm. rewrite E. cbn [bind].
  rewrite zip_with_same by congruence. unfold linalg_norm. simpl rows. simpl cols.
  rewrite HXr, HXc. f_equal.
  apply sum_n_ext. intros i Hi. apply sum_n_ext. intros j Hj.
  simpl. rewrite !bidx_lt by lia. reflexivity.
Qed.

(** The norm recorded for the embedding of a grey image and constant
    factors whose product has the entry [w]. *)
Lemma pattern_norm (N : nat) (st : loop_state) (a b w : C) :
  grey_pattern N (X st) -> rows (U st) = (N + N)%nat ->
  cols (U st) = rows (V st) -> cols (V st) = (N + N)%nat ->
  constant (U st) a -> constant (V st) b ->
  w = mkC (INR (cols (U st)) * Re (Cmul a b)) (INR (cols (U st)) * Im (Cmul a b)) ->
  recorded_norm st
  = sqrt (2 * (INR N * INR N) * (Cabs2 (Csub (mkC 1 0) w) + Cabs2 w)).
Proof.
  intros (HXr & HXc & HXp) HUr HUV HVc Ha Hb Hw.
  destruct (dot_ok (U st) (V st) HUV) as (UV & E & Rr & Rc).
  pose proof (dot_constant _ _ _ _ _ E Ha Hb) as HUVc. rewrite <- Hw in HUVc.
  rewrite (recorded_norm_sum st (N + N) (N + N) UV HXr HXc E) by congruence.
  f_equal.
  rewrite (sum_n_ext _ (fun _ => INR N * (Cabs2 (Csub (mkC 1 0) w) + Cabs2 w))).
  { rewrite sum_n_const, plus_INR. ring. }
  intros i Hi. rewrite sum_n_app.
  assert (Hw0 : Cabs2 (Csub C0 w) = Cabs2 w) by (unfold Cabs2; simpl; ring).
  destruct (Nat.lt_ge_cases i N) as [Hlt|Hge].
  - rewrite (sum_n_ext _ (fun _ => Cabs2 (Csub (mkC 1 0) w))).
    2:{ intros j Hj. destruct (HXp i j Hlt Hj) as (E1 & _).
        rewrite E1, HUVc by lia. reflexivity. }
    rewrite (sum_n_ext (fun j => Cabs2 (Csub (at2 (X st) i (N + j)) (at2 UV i (N + j))))
                       (fun _ => Cabs2 w)).
    2:{ intros j Hj. destruct (HXp i j Hlt Hj) as (_ & E1 & _).
        rewrite E1, HUVc by lia. exact Hw0. }
    rewrite !sum_n_const. ring.
  - replace i with (N + (i - N))%nat by lia.
    rewrite (sum_n_ext _ (fun _ => Cabs2 w)).
    2:{ intros j Hj. destruct (HXp (i - N)%nat j ltac:(lia) Hj) as (_ & _ & E1 & _).
        rewrite E1, HUVc by lia. exact Hw0. }
    rewrite (sum_n_ext (fun j => Cabs2 (Csub (at2 (X st) (N + (i - N)) (N + j))
                                             (at2 UV (N + (i - N)) (N + j))))
                       (fun _ => Cabs2 (Csub (mkC 1 0) w))).
    2:{ intros j Hj. destruct (HXp (i - N)%nat j ltac:(lia) Hj) as (_ & _ & _ & E1).
        rewrite E1, HUVc by lia. reflexivity. }
    rewrite !sum_n_const. ring.
Qed.

(** A bound on the recorded norm from a bound on the entries. *)
Lemma sum_n_le (f : nat -> R) (c : R) (n : nat) :
  (forall i, (i < n)%nat -> f i <= c) -> sum_n f n <= INR n * c.
Proof.
  induction n as [|n IH]; intros Hf; [simpl; lra|].
  rewrite S_INR. simpl. specialize (IH ltac:(intros; apply Hf; lia)).
  specialize (Hf n ltac:(lia)). lra.
Qed.

Lemma recorded_norm_le (st : loop_state) (n m : nat) (UV : ndarray C) (B : R) :
  rows (X st) = n -> cols (X st) = m -> dot (U st) (V st) = Ok UV ->
  rows UV = n -> cols UV = m ->
  (forall i j, (i < n)%nat -> (j < m)%nat ->
     Cabs2 (Csub (at2 (X st) i j) (at2 UV i j)) <= B) ->
  recorded_norm st <= sqrt (INR n * (INR m * B)).
Proof.
  intros HXr HXc E Rr Rc HB.
  rewrite (recorded_norm_sum st n m UV HXr HXc E Rr Rc).
  apply sqrt_le_1_alt. apply sum_n_le. intros i Hi.
  apply sum_n_le. intros j Hj. apply HB; assumption.
Qed.

(** Two norms given by their squares: when the test on the relative
    change fails, and when it holds. *)
Lemma norms_far (Q0 Q1 tol : R) :
  0 < Q0 -> 0 <= Q1 -> 0 < tol < 1 -> Q1 <= (1 - tol) * (1 - tol) * Q0 ->
  ~ Rabs (sqrt Q1 - sqrt Q0) / sqrt Q0 < tol.
Proof.
  intros H0 H1 Ht Hle.
  assert (Hs0 : 0 < sqrt Q0) by (apply sqrt_lt_R0; exact H0).
  assert (Hs1 : sqrt Q1 <= (1 - tol) * sqrt Q0).
  { replace ((1 - tol) * sqrt Q0) with (sqrt ((1 - tol) * (1 - tol) * Q0)).
    - apply sqrt_le_1_alt. exact Hle.
    - rewrite sqrt_mult_alt by nra. rewrite sqrt_square by lra. reflexivity. }
  intros H. apply (Rmult_lt_compat_r (sqrt Q0)) in H; [|exact Hs0].
  unfold Rdiv in H. rewrite Rmult_assoc, Rinv_l, Rmult_1_r in H by lra.
  rewrite Rabs_left1 in H by nra. nra.
Qed.

Lemma norms_close (Q1 Q2 lo hi tol : R) :
  0 < lo -> lo <= Q1 <= hi -> lo <= Q2 <= hi -> 0 < tol ->
  hi < (1 + tol) * (1 + tol) * lo ->
  sqrt Q1 <> 0 /\ Rabs (sqrt Q2 - sqrt Q1) / sqrt Q1 < tol.
Proof.
  intros Hlo H1 H2 Ht Hhi.
  assert (Hsl : 0 < sqrt lo) by (apply sqrt_lt_R0; exact Hlo).
  assert (Hb : forall Q, lo <= Q <= hi -> sqrt lo <= sqrt Q <= sqrt hi).
  { intros Q [Ha Hb]. split; apply sqrt_le_1_alt; assumption. }
  destruct (Hb Q1 H1) as [L1 U1]. destruct (Hb Q2 H2) as [L2 U2].
  assert (Hsh : sqrt hi < (1 + tol) * sqrt lo).
  { replace ((1 + tol) * sqrt lo) with (sqrt ((1 + tol) * (1 + tol) * lo)).
    - apply sqrt_lt_1_alt. split; [lra|exact Hhi].
    - rewrite sqrt_mult_alt by nra. rewrite sqrt_square by lra. reflexivity. }
  split; [lra|].
  apply (Rmult_lt_reg_r (sqrt Q1)); [lra|].
  unfold Rdiv. rewrite Rmult_assoc, Rinv_l, Rmult_1_r by lra.
  apply Rabs_def1; nra.
Qed.

Lemma grey_embedding (N : nat) (mask : option (ndarray bool)) (Xc : ndarray C)
      (mc : option (ndarray bool)) :
  qm2cm (grey_square N) mask = Ok (Xc, mc) -> grey_pattern N Xc.
Proof.
  intros H.
  destruct (qm2cm_ok (grey_square N) mask eq_refl) as (Cm & E & Hr & Hc & Hat).
  rewrite H in E. inversion E; subst Cm. simpl in Hr, Hc, Hat.
  split; [exact Hr|]. split; [exact Hc|].
  intros i j Hi Hj. destruct (Hat i j Hi Hj) as (E1 & E2 & E3 & E4).
  rewrite E1, E2, E3, E4. repeat split; apply C_eq; simpl; lra.
Qed.

(** With every pixel observed, a pass leaves the embedding of the grey
    image in [X], and the norm it records follows from the factors. *)
Lemma grey_pass_observed (N : nat) (p : params) (X0 : ndarray C)
      (mask_c : ndarray bool) (st st' : loop_state) (flag : bool) (b : C) :
  (1 <= N)%nat -> 0 < reg_coef p -> rank_mult p <= 1 ->
  grey_pattern N X0 -> grey_pattern N (X st) ->
  (forall i j, at2 mask_c i j = true) ->
  shapes_ok X0 mask_c st (N + N) (N + N) ->
  constant (V st) b -> 0 < Cabs2 b ->
  loop_body ref_lib p X0 mask_c st = Ok (st', flag) ->
  let a := next_factor N (reg_coef p) b in
  c_rank st' = (if Rlt_dec (rot p) 1
                then shrunk_rank 0 (c_rank st) (rank_mult p) else c_rank st) /\
  constant (V st') (next_factor N (reg_coef p) a) /\
  0 < Cabs2 (next_factor N (reg_coef p) a) /\
  grey_pattern N (X st') /\
  shapes_ok X0 mask_c st' (N + N) (N + N) /\
  Cabs2 a = gain N (reg_coef p) (Cabs2 b) /\
  recorded_norm st'
  = sqrt (2 * (INR N * INR N)
          * (Cabs2 (Csub (mkC 1 0)
                         (mkC (estimate N (reg_coef p) (Z.to_nat (c_rank st')) a) 0))
             + Cabs2 (mkC (estimate N (reg_coef p) (Z.to_nat (c_rank st')) a) 0))).
Proof.
  intros HN Hlam Hg HX0 HX Hmask Hs Hb Hpos Hbody a.
  assert (HN1 : 1 <= INR N) by (apply (le_INR 1); exact HN).
  destruct (grey_pass N p X0 mask_c st st' flag b HN Hlam Hg HX Hs Hb Hpos Hbody)
    as (Hrk & HU' & HV' & Hapos & Hbpos & Hat).
  fold a in Hrk, HU', HV', Hapos, Hbpos, Hat.
  destruct (body_shapes ref_lib p X0 mask_c st st' flag _ _ ref_lib_shapes Hg Hs Hbody)
    as (Hs' & RU' & CU' & _).
  assert (HX' : grey_pattern N (X st')).
  { destruct Hs' as (_ & _ & _ & _ & HXr & HXc & _).
    destruct HX0 as (_ & _ & HX0p).
    split; [exact HXr|]. split; [exact HXc|].
    intros i j Hi Hj. rewrite !Hat, !Hmask by lia. apply HX0p; assumption. }
  split; [exact Hrk|]. split; [exact HV'|]. split; [exact Hbpos|].
  split; [exact HX'|]. split; [exact Hs'|]. split.
  { unfold a. apply next_factor_abs2. nra. }
  destruct Hs' as (_ & _ & _ & _ & _ & _ & HVr' & HVc' & _).
  apply (pattern_norm N st' a (next_factor N (reg_coef p) a)); try assumption.
  - congruence.
  - rewrite CU'. symmetry. apply estimate_spec. nra.
Qed.

(** With two columns left, the entry of the product is just below 1 and
    the recorded norm is close to [sqrt(2) * N]. *)
Lemma grey_norm_near (N : nat) (lam : R) (a : C) :
  (1 <= N)%nat -> 0 < lam <= 1 / 1000 -> 1 <= Cabs2 a ->
  let t := estimate N lam 2 a in
  let Q := 2 * (INR N * INR N) * (Cabs2 (Csub (mkC 1 0) (mkC t 0)) + Cabs2 (mkC t 0)) in
  2 * (INR N * INR N) * (998 / 1000) <= Q <= 2 * (INR N * INR N) * (1001 / 1000).
Proof.
  intros HN Hlam Ha t Q.
  assert (HN1 : 1 <= INR N) by (apply (le_INR 1); exact HN).
  assert (Ht : 999 / 1000 < t < 1).
  { unfold t, estimate. change (INR 2) with (1 + 1).
    set (x := INR N * Cabs2 a). assert (Hx : 1 <= x) by (unfold x; nra).
    replace (2 * INR N * Cabs2 a) with (2 * x) by (unfold x; ring).
    set (t' := (1 + 1) * x / (2 * x + lam)).
    assert (Hprod : t' * (2 * x + lam) = 2 * x) by (unfold t'; field; lra).
    split; apply Rnot_le_lt; intros Hc; nra. }
  assert (HQ : Q = 2 * (INR N * INR N) * ((1 - t) * (1 - t) + t * t)).
  { unfold Q, Cabs2. simpl. ring. }
  rewrite HQ.
  assert (HNN : 0 < 2 * (INR N * INR N)) by nra.
  split; apply Rmult_le_compat_l; try lra; nra.
Qed.

Lemma keen_valid :
  valid_call (grey_square 3) (all_observed 3) None (keen_params 3) (Some 0%Z).
Proof.
  unfold valid_call. simpl.
  split; [reflexivity|]. split; [reflexivity|]. split; [reflexivity|].
  split; [lia|]. split; [|split; [lra|lia]].
  intros s Hs. inversion Hs. split; [lia|reflexivity].
Qed.

Lemma shrunk_rank_two : shrunk_rank 0 2 (9 / 10) = 2%Z.
Proof.
  unfold shrunk_rank. rewrite py_int_floor by lra.
  rewrite <- (Int_part_spec (2 * (9 / 10)) 1); [reflexivity|lra].
Qed.

Lemma keen_factors :
  init_factors ref_lib 0%nat 0%nat (Some 0%Z) 3 3 3
  = Ok (Arr2 6 3 (fun _ _ => draw_u), Arr2 3 6 (fun _ _ => draw_v), 4%nat).
Proof. reflexivity. Qed.

Lemma draw_v_abs2 : Cabs2 draw_v = 41 / 400.
Proof. unfold draw_v, Cabs2. simpl. lra. Qed.

(** The run on the 3x3 grey image, every pixel observed, with the
    threshold [rot = 1/2] and the tolerance 1/100: the first pass cuts
    the rank from 3 to 2 and does not meet the tolerance, the second
    pass meets it and the run returns. *)
Lemma grey_run (fuel : nat) :
  (2 <= fuel)%nat ->
  exists X0 g' st0 st1 st2,
    prepare ref_lib 0%nat 0%nat (grey_square 3) (all_observed 3) None
            (keen_params 3) (Some 0%Z)
    = Ok (X0, tile (all_observed 3) 2 2, g', st0) /\
    loop_body ref_lib (keen_params 3) X0 (tile (all_observed 3) 2 2) st0
    = Ok (st1, true) /\
    loop_body ref_lib (keen_params 3) X0 (tile (all_observed 3) 2 2) st1
    = Ok (st2, false) /\
    c_rank st0 = 3%Z /\ c_rank st1 = 2%Z /\ c_rank st2 = 2%Z /\
    ix st2 = 1%nat /\ rows (X st2) = 6%nat /\ cols (X st2) = 6%nat /\
    lrqmc_run ref_lib fuel 0%nat 0%nat (grey_square 3) (all_observed 3) None
              (keen_params 3) (Some 0%Z) = Some (Ok (st2, g')).
Proof.
  intros Hfuel.
  pose proof ref_lib_shapes as HL.
  set (p := keen_params 3).
  set (m := tile (all_observed 3) 2 2).
  destruct (prepare_ok ref_lib 0%nat 0%nat (grey_square 3) (all_observed 3) None
              p (Some 0%Z) HL keen_valid)
    as (X0 & g' & st0 & Ep & Hs0 & Hlen0 & Hix0 & Hrk0).
  fold m in Ep, Hs0.
  change (dim0 (grey_square 3) + dim0 (grey_square 3))%nat with (3 + 3)%nat in Hs0.
  change (dim1 (grey_square 3) + dim1 (grey_square 3))%nat with (3 + 3)%nat in Hs0.
  change (initial_rank None (dim0 (grey_square 3)) (dim1 (grey_square 3)))
    with 3%Z in Hrk0.
  destruct (prepare_inv _ _ _ _ _ _ _ _ _ _ _ _ Ep)
    as (_ & Eq & _ & HX & _ & _ & _ & _ & Hns0 & _).
  pose proof (prepare_factors _ _ _ _ _ _ _ _ _ _ _ _ Ep) as Ef.
  change (init_factors ref_lib 0%nat 0%nat (Some 0%Z) 3 3 3
          = Ok (U st0, V st0, g')) in Ef.
  rewrite keen_factors in Ef. inversion Ef as [[HU0 HV0 Hg']]. clear Ef.
  pose proof (grey_embedding 3 _ _ _ Eq) as HP0.
  assert (HPX0 : grey_pattern 3 (X st0)) by (rewrite HX; exact HP0).
  assert (Hmask : forall i j, at2 m i j = true) by reflexivity.
  assert (Hlam : 0 < reg_coef p) by (simpl; lra).
  assert (Hg : rank_mult p <= 1) by (simpl; lra).
  assert (Hrot : rot p < 1) by (simpl; lra).
  (* the norm before the loop *)
  assert (Hn0 : recorded_norm st0
                = sqrt (2 * (INR 3 * INR 3)
                        * (Cabs2 (Csub (mkC 1 0)
                                       (mkC (INR 3 * Re (Cmul draw_u draw_v))
                                            (INR 3 * Im (Cmul draw_u draw_v))))
                           + Cabs2 (mkC (INR 3 * Re (Cmul draw_u draw_v))
                                        (INR 3 * Im (Cmul draw_u draw_v)))))).
  { apply (pattern_norm 3 st0 draw_u draw_v); try exact HPX0;
      rewrite <- ?HU0, <- ?HV0; try reflexivity;
      intros i j _ _; reflexivity. }
  set (Q0 := 2 * (INR 3 * INR 3)
             * (Cabs2 (Csub (mkC 1 0)
                            (mkC (INR 3 * Re (Cmul draw_u draw_v))
                                 (INR 3 * Im (Cmul draw_u draw_v))))
                + Cabs2 (mkC (INR 3 * Re (Cmul draw_u draw_v))
                             (INR 3 * Im (Cmul draw_u draw_v))))) in Hn0.
  assert (HQ0 : 23 <= Q0).
  { unfold Q0, Cabs2, draw_u, draw_v. simpl. lra. }
  (* the first pass *)
  destruct (body_progress ref_lib p X0 m st0 _ _ HL Hg Hs0) as [Hgo0 _].
  destruct Hgo0 as (st1 & f1 & Eb1 & Hs1 & Hlen1);
    [rewrite Hlen0, Hix0; cbn; lia|].
  assert (HV0c : constant (V st0) draw_v)
    by (rewrite <- HV0; intros i j _ _; reflexivity).
  destruct (grey_pass_observed 3 p X0 m st0 st1 f1 draw_v ltac:(lia) Hlam Hg HP0 HPX0
              Hmask Hs0 HV0c ltac:(rewrite draw_v_abs2; lra) Eb1)
    as (Hrk1 & HV1c & Hb1pos & HPX1 & _ & HA1 & Hn1).
  destruct (Rlt_dec (rot p) 1) as [_|Hn]; [|contradiction].
  rewrite Hrk0 in Hrk1. change (rank_mult p) with (9 / 10) in Hrk1.
  rewrite shrunk_rank_example in Hrk1.
  set (a1 := next_factor 3 (reg_coef p) draw_v) in *.
  set (b1 := next_factor 3 (reg_coef p) a1) in *.
  rewrite Hrk1 in Hn1. change (Z.to_nat 2) with 2%nat in Hn1.
  rewrite draw_v_abs2 in HA1.
  assert (HA1' : 1 <= Cabs2 a1).
  { rewrite HA1. unfold gain. change (reg_coef p) with (1 / 1000).
    change (INR 3) with (1 + 1 + 1). lra. }
  pose proof (grey_norm_near 3 (reg_coef p) a1 ltac:(lia) ltac:(simpl; lra) HA1')
    as HQ1.
  cbv zeta in HQ1.
  set (Q1 := 2 * (INR 3 * INR 3)
             * (Cabs2 (Csub (mkC 1 0) (mkC (estimate 3 (reg_coef p) 2 a1) 0))
                + Cabs2 (mkC (estimate 3 (reg_coef p) 2 a1) 0))) in *.
  change (INR 3) with (1 + 1 + 1) in HQ1.
  destruct (body_norms ref_lib p X0 m st0 st1 f1 [] _ Eb1 Hns0 ltac:(rewrite Hix0; reflexivity))
    as (z1 & Hz1 & Hns1 & Hix1).
  change (max_iter p) with 3%Z in Hz1. change (Z.to_nat 3) with 3%nat in Hz1.
  inversion Hz1; subst z1. clear Hz1.
  simpl app in Hns1.
  destruct (loop_body_inv _ _ _ _ _ _ _ Eb1)
    as (_ & _ & _ & _ & _ & _ & _ & _ & _ & _ & _ & _ & _ & _ & _ & _ & _ & _
        & Hf1 & _).
  assert (Hc1 : converged p (norms st1) (ix st0) = false).
  { destruct (converged p (norms st1) (ix st0)) eqn:Hc; [|reflexivity].
    exfalso. apply converged_spec in Hc. destruct Hc as [_ Hc].
    rewrite Hns1, Hix0 in Hc. simpl in Hc. rewrite Hn0, Hn1 in Hc.
    revert Hc. apply norms_far; lra. }
  rewrite Hc1, Hix0 in Hf1. simpl in Hf1. subst f1.
  rewrite Hix0 in Hix1. simpl in Hix1.
  (* the second pass *)
  destruct (body_progress ref_lib p X0 m st1 _ _ HL Hg Hs1) as [Hgo1 _].
  destruct Hgo1 as (st2 & f2 & Eb2 & Hs2 & Hlen2);
    [rewrite Hlen1, Hlen0, Hix1; cbn; lia|].
  destruct (grey_pass_observed 3 p X0 m st1 st2 f2 b1 ltac:(lia) Hlam Hg HP0 HPX1
              Hmask Hs1 HV1c Hb1pos Eb2)
    as (Hrk2 & _ & _ & HPX2 & _ & HA2 & Hn2).
  destruct (Rlt_dec (rot p) 1) as [_|Hn]; [|contradiction].
  rewrite Hrk1 in Hrk2. change (rank_mult p) with (9 / 10) in Hrk2.
  rewrite shrunk_rank_two in Hrk2.
  set (a2 := next_factor 3 (reg_coef p) b1) in *.
  rewrite Hrk2 in Hn2. change (Z.to_nat 2) with 2%nat in Hn2.
  assert (HA2' : 1 <= Cabs2 a2).
  { rewrite HA2. unfold b1. rewrite next_factor_abs2, HA1.
    - unfold gain. change (reg_coef p) with (1 / 1000).
      change (INR 3) with (1 + 1 + 1). lra.
    - change (reg_coef p) with (1 / 1000). change (INR 3) with (1 + 1 + 1). lra. }
  pose proof (grey_norm_near 3 (reg_coef p) a2 ltac:(lia) ltac:(simpl; lra) HA2')
    as HQ2.
  cbv zeta in HQ2.
  set (Q2 := 2 * (INR 3 * INR 3)
             * (Cabs2 (Csub (mkC 1 0) (mkC (estimate 3 (reg_coef p) 2 a2) 0))
                + Cabs2 (mkC (estimate 3 (reg_coef p) 2 a2) 0))) in *.
  change (INR 3) with (1 + 1 + 1) in HQ2.
  destruct (body_norms ref_lib p X0 m st1 st2 f2 [recorded_norm st0] 2 Eb2 Hns1
              ltac:(rewrite Hix1; reflexivity))
    as (z2 & Hz2 & Hns2 & Hix2).
  inversion Hz2; subst z2. clear Hz2.
  simpl app in Hns2.
  destruct (loop_body_inv _ _ _ _ _ _ _ Eb2)
    as (_ & _ & _ & _ & _ & _ & _ & _ & _ & _ & _ & _ & _ & _ & _ & _ & _ & _
        & Hf2 & _).
  assert (Hc2 : converged p (norms st2) (ix st1) = true).
  { apply converged_spec. unfold tolerance_met.
    rewrite Hns2, Hix1. simpl. rewrite Hn1, Hn2.
    apply (norms_close Q1 Q2 (2 * ((1 + 1 + 1) * (1 + 1 + 1)) * (998 / 1000))
                       (2 * ((1 + 1 + 1) * (1 + 1 + 1)) * (1001 / 1000)));
      try assumption; lra. }
  rewrite Hc2 in Hf2. simpl in Hf2. subst f2.
  rewrite Hix1 in Hix2.
  destruct HPX2 as (HXr2 & HXc2 & _).
  exists X0, g', st0, st1, st2.
  split; [exact Ep|]. split; [exact Eb1|]. split; [exact Eb2|].
  split; [exact Hrk0|]. split; [exact Hrk1|]. split; [exact Hrk2|].
  split; [exact Hix2|]. split; [exact HXr2|]. split; [exact HXc2|].
  unfold lrqmc_run. fold p. rewrite Ep.
  destruct fuel as [|[|fuel]]; try lia.
  simpl. fold m. rewrite Eb1, Eb2. reflexivity.
Qed.

Lemma grey_pattern_entry (N : nat) (A : ndarray C) (i j : nat) :
  grey_pattern N A -> (i < N + N)%nat -> (j < N + N)%nat ->
  at2 A i j = mkC 1 0 \/ at2 A i j = C0.
Proof.
  intros (_ & _ & Hp) Hi Hj.
  destruct (Nat.lt_ge_cases i N) as [Hi1|Hi1], (Nat.lt_ge_cases j N) as [Hj1|Hj1].
  - left. apply (Hp i j); assumption.
  - right. replace j with (N + (j - N))%nat by lia. apply (Hp i (j - N)%nat); lia.
  - right. replace i with (N + (i - N))%nat by lia. apply (Hp (i - N)%nat j); lia.
  - left. replace i with (N + (i - N))%nat by lia.
    replace j with (N + (j - N))%nat by lia.
    apply (Hp (i - N)%nat (j - N)%nat); lia.
Qed.

Lemma estimate_two_range (N : nat) (lam : R) (a : C) :
  (1 <= N)%nat -> 0 < lam -> 0 < Cabs2 a -> 0 < estimate N lam 2 a < 1.
Proof.
  intros HN Hlam Ha.
  assert (HN1 : 1 <= INR N) by (apply (le_INR 1); exact HN).
  unfold estimate. change (INR 2) with (1 + 1).
  set (x := INR N * Cabs2 a). assert (Hx : 0 < x) by (unfold x; nra).
  replace (2 * INR N * Cabs2 a) with (2 * x) by (unfold x; ring).
  set (t' := (1 + 1) * x / (2 * x + lam)).
  assert (Hprod : t' * (2 * x + lam) = 2 * x) by (unfold t'; field; lra).
  split; apply Rnot_le_lt; intros Hc; nra.
Qed.

(** The run on the 2x2 grey image with the pixel (0, 1) missing, the
    default threshold and the tolerance 2: the first pass meets the
    tolerance and the run returns.  The product of the factors updated
    in that pass has a positive real entry at the missing pixel. *)
Lemma grey_missing_run (fuel : nat) :
  (1 <= fuel)%nat ->
  exists X0 g' st0 st1,
    prepare ref_lib 0%nat 0%nat grey_image one_missing None (example_params 3)
            (Some 0%Z)
    = Ok (X0, tile one_missing 2 2, g', st0) /\
    loop_body ref_lib (example_params 3) X0 (tile one_missing 2 2) st0
    = Ok (st1, false) /\
    lrqmc_run ref_lib fuel 0%nat 0%nat grey_image one_missing None
              (example_params 3) (Some 0%Z) = Some (Ok (st1, g')) /\
    rows (X st1) = 4%nat /\ cols (X st1) = 4%nat /\
    forall U1 V1 UV,
      update_U ref_lib (example_params 3) (X st0) (V st0) (c_rank st0) = Ok U1 ->
      update_V ref_lib (example_params 3) (X st0) U1 (c_rank st0) = Ok V1 ->
      dot U1 V1 = Ok UV ->
      0 < Re (at2 UV 0 1).
Proof.
  intros Hfuel.
  pose proof ref_lib_shapes as HL.
  set (p := example_params 3).
  set (m := tile one_missing 2 2).
  destruct (prepare_ok ref_lib 0%nat 0%nat grey_image one_missing None
              p (Some 0%Z) HL grey_valid)
    as (X0 & g' & st0 & Ep & Hs0 & Hlen0 & Hix0 & Hrk0).
  fold m in Ep, Hs0.
  change (dim0 grey_image + dim0 grey_image)%nat with (2 + 2)%nat in Hs0.
  change (dim1 grey_image + dim1 grey_image)%nat with (2 + 2)%nat in Hs0.
  change (initial_rank None (dim0 grey_image) (dim1 grey_image)) with 2%Z in Hrk0.
  destruct (prepare_inv _ _ _ _ _ _ _ _ _ _ _ _ Ep)
    as (_ & Eq & _ & HX & _ & _ & _ & _ & Hns0 & _).
  pose proof (prepare_factors _ _ _ _ _ _ _ _ _ _ _ _ Ep) as Ef.
  change (init_factors ref_lib 0%nat 0%nat (Some 0%Z) 2 2 2
          = Ok (U st0, V st0, g')) in Ef.
  rewrite example_factors in Ef. inversion Ef as [[HU0 HV0 Hg']]. clear Ef.
  pose proof (grey_embedding 2 _ _ _ Eq) as HP0.
  assert (HPX0 : grey_pattern 2 (X st0)) by (rewrite HX; exact HP0).
  assert (Hlam : 0 < reg_coef p) by (simpl; lra).
  assert (Hg : rank_mult p <= 1) by (simpl; lra).
  assert (HV0c : constant (V st0) draw_v)
    by (rewrite <- HV0; intros i j _ _; reflexivity).
  assert (Hvpos : 0 < Cabs2 draw_v) by (rewrite draw_v_abs2; lra).
  assert (HN1 : 1 <= INR 2) by (simpl; lra).
  (* the norm before the loop *)
  assert (Hn0 : recorded_norm st0
                = sqrt (2 * (INR 2 * INR 2)
                        * (Cabs2 (Csub (mkC 1 0)
                                       (mkC (INR 2 * Re (Cmul draw_u draw_v))
                                            (INR 2 * Im (Cmul draw_u draw_v))))
                           + Cabs2 (mkC (INR 2 * Re (Cmul draw_u draw_v))
                                        (INR 2 * Im (Cmul draw_u draw_v)))))).
  { apply (pattern_norm 2 st0 draw_u draw_v); try exact HPX0;
      rewrite <- ?HU0, <- ?HV0; try reflexivity;
      intros i j _ _; reflexivity. }
  assert (Hn0' : 2 <= recorded_norm st0).
  { rewrite Hn0. rewrite <- (sqrt_square 2) at 1 by lra.
    apply sqrt_le_1_alt. unfold Cabs2, draw_u, draw_v. simpl. lra. }
  (* the pass *)
  destruct (body_progress ref_lib p X0 m st0 _ _ HL Hg Hs0) as [Hgo0 _].
  destruct Hgo0 as (st1 & f1 & Eb1 & Hs1 & Hlen1);
    [rewrite Hlen0, Hix0; cbn; lia|].
  destruct (grey_pass 2 p X0 m st0 st1 f1 draw_v ltac:(lia) Hlam Hg HPX0 Hs0 HV0c
              Hvpos Eb1)
    as (Hrk1 & HU1c & HV1c & Hapos & _ & Hat).
  destruct (Rlt_dec (rot p) 1) as [Hr|_]; [simpl in Hr; lra|].
  set (a1 := next_factor 2 (reg_coef p) draw_v) in *.
  rewrite Hrk0 in Hrk1, Hat. change (Z.to_nat 2) with 2%nat in Hat.
  pose proof (estimate_two_range 2 (reg_coef p) a1 ltac:(lia) Hlam Hapos) as Ht.
  set (t := estimate 2 (reg_coef p) 2 a1) in *.
  destruct (body_shapes ref_lib p X0 m st0 st1 f1 _ _ HL Hg Hs0 Eb1)
    as (_ & RU1 & CU1 & _).
  destruct Hs1 as (HX0r & HX0c & Hmr & Hmc & HXr1 & HXc1 & HVr1 & HVc1 & _).
  rewrite Hrk1 in CU1, HVr1. change (Z.to_nat 2) with 2%nat in CU1, HVr1.
  destruct (dot_ok (U st1) (V st1)) as (UV2 & EUV2 & RUV2 & CUV2); [congruence|].
  pose proof (dot_constant _ _ _ _ _ EUV2 HU1c HV1c) as HUV2.
  rewrite CU1, (estimate_spec 2 (reg_coef p) 2 a1) in HUV2 by nra.
  fold t in HUV2.
  assert (Hn1 : recorded_norm st1 <= 4).
  { replace 4 with (sqrt (INR 4 * (INR 4 * 1))).
    2:{ change (INR 4) with (1 + 1 + 1 + 1).
        replace ((1 + 1 + 1 + 1) * ((1 + 1 + 1 + 1) * 1)) with (4 * 4) by lra.
        apply sqrt_square. lra. }
    apply (recorded_norm_le st1 (2 + 2) (2 + 2) UV2 1 HXr1 HXc1 EUV2);
      [congruence|congruence|].
    intros i j Hi Hj. rewrite Hat, HUV2 by lia.
    destruct (grey_pattern_entry 2 X0 i j HP0 Hi Hj) as [E|E]; rewrite E;
      destruct (at2 m i j); unfold Cabs2; simpl; nra. }
  pose proof (recorded_norm_nonneg st1) as Hn1'.
  destruct (body_norms ref_lib p X0 m st0 st1 f1 [] _ Eb1 Hns0
              ltac:(rewrite Hix0; reflexivity))
    as (z1 & Hz1 & Hns1 & Hix1).
  simpl app in Hns1.
  destruct (loop_body_inv _ _ _ _ _ _ _ Eb1)
    as (_ & _ & _ & _ & _ & _ & _ & _ & _ & _ & _ & _ & _ & _ & _ & _ & _ & _
        & Hf1 & _).
  assert (Hc1 : converged p (norms st1) (ix st0) = true).
  { apply converged_spec. unfold tolerance_met.
    rewrite Hns1, Hix0. simpl. split; [lra|].
    apply (Rmult_lt_reg_r (recorded_norm st0)); [lra|].
    unfold Rdiv. rewrite Rmult_assoc, Rinv_l, Rmult_1_r by lra.
    apply Rabs_def1; lra. }
  rewrite Hc1 in Hf1. simpl in Hf1. subst f1.
  exists X0, g', st0, st1.
  split; [exact Ep|]. split; [exact Eb1|]. split.
  { unfold lrqmc_run. fold p. rewrite Ep. destruct fuel as [|fuel]; [lia|].
    simpl. fold m. rewrite Eb1. reflexivity. }
  split; [exact HXr1|]. split; [exact HXc1|].
  intros U1 V1 UV EU EV EUV.
  destruct Hs0 as (_ & _ & _ & _ & _ & _ & HVr0 & HVc0 & _).
  rewrite Hrk0 in EU, EV, HVr0.
  destruct (ref_update_U 2 p (X st0) (V st0) U1 2 draw_v HPX0 HVr0 HVc0 HV0c
              ltac:(nra) EU) as (RU & CU & HUc).
  fold a1 in HUc.
  destruct (ref_update_V 2 p (X st0) U1 V1 2 a1 HPX0 RU CU HUc ltac:(nra) EV)
    as (RV & CV & HVc).
  pose proof (dot_constant _ _ _ _ _ EUV HUc HVc) as HUV.
  rewrite CU in HUV. change (Z.to_nat 2) with 2%nat in HUV.
  rewrite (estimate_spec 2 (reg_coef p) 2 a1) in HUV by nra.
  destruct (dot_inv _ _ _ EUV) as (_ & RUV & CUV & _).
  rewrite HUV by (rewrite ?RUV, ?CUV, ?RU, ?CV; lia).
  cbn [Re]. apply Ht.
Qed.

(** ** When a run stops *)

(** A run that returns has stopped on the convergence test, at the
    first pass that meets the tolerance.  With [l] the states at the
    start of the passes the run made and [st] the state it returns from,
    [ix st] is the index of the last pass: the run made [ix st + 1]
    passes, [ix st < max_iter], and in the norms returned the relative
    change [abs(norms[i+1] - norms[i])/norms[i]] is below [rel_tol] at
    [i = ix st], with [norms[i]] not zero, and is not so at any
    [i < ix st]. *)
Theorem lrqmc_stops_at_first_convergence (L : NumLib) (fuel : nat) (g os : rng L)
        (qmat : tensor) (mask : ndarray bool) (init_rank : option Z) (p : params)
        (random_state : option Z) (out : output) :
  lrqmc L fuel g os qmat mask init_rank p true random_state = Some (Ok out) ->
  exists X0 mask_c g' st0 l st ns,
    prepare L g os qmat mask init_rank p random_state = Ok (X0, mask_c, g', st0) /\
    passes L p X0 mask_c st0 l st /\
    lrqmc_run L fuel g os qmat mask init_rank p random_state = Some (Ok (st, g')) /\
    norms_out out = Some ns /\
    length l = S (ix st) /\
    (Z.of_nat (ix st) < max_iter p)%Z /\
    tolerance_met ns (ix st) (rel_tol p) /\
    forall i, (i < ix st)%nat -> ~ tolerance_met ns i (rel_tol p).
Proof.
  intros Hout. unfold lrqmc in Hout.
  destruct (lrqmc_run L fuel g os qmat mask init_rank p random_state)
    as [[[st g']|e]|] eqn:Hrun; try discriminate.
  destruct (lrqmc_run_inv L fuel g os qmat mask init_rank p random_state st g' Hrun)
    as (X0 & mask_c & st0 & l & Ep & Hl).
  destruct (prepare_inv L g os g' qmat mask mask_c init_rank p random_state X0 st0 Ep)
    as (_ & _ & _ & _ & _ & Hix & _ & Hmax & Hns & _).
  assert (Hpre : length (@nil R) = ix st0) by (rewrite Hix; reflexivity).
  destruct (passes_norms L p X0 mask_c st0 st l Hl [] _ Hns Hpre)
    as (Hle & _ & Hk).
  destruct (passes_tests L p X0 mask_c st0 st l Hl [] _ Hns Hpre)
    as (Hearlier & Hlast).
  inversion Hout as [Ho]. destruct (cm2qm (X st)) as [Q|e]; [|discriminate].
  simpl in Ho. inversion Ho; subst out. simpl.
  exists X0, mask_c, g', st0, l, st, (norms st).
  split; [exact Ep|]. split; [exact Hl|]. split; [reflexivity|].
  split; [reflexivity|]. split; [lia|].
  assert (Hlt : (Z.of_nat (ix st) < max_iter p)%Z) by lia.
  split; [exact Hlt|]. split.
  - apply converged_spec. destruct Hlast as [Hc|Hm]; [exact Hc|lia].
  - intros i Hi Ht. apply converged_spec in Ht.
    rewrite Hearlier in Ht by lia. discriminate Ht.
Qed.

Lemma lrqmc_stops_at_first_convergence_witness :
  exists out ns,
    lrqmc ref_lib 4 0%nat 0%nat (grey_square 3) (all_observed 3) None
          (keen_params 3) true (Some 0%Z) = Some (Ok out) /\
    norms_out out = Some ns /\
    tolerance_met ns 1 (1 / 100) /\ ~ tolerance_met ns 0 (1 / 100).
Proof.
  destruct (grey_run 4 ltac:(lia))
    as (X0 & g' & st0 & st1 & st2 & _ & _ & _ & _ & _ & _ & Hix & HXr & HXc & Hrun).
  destruct (cm2qm_ok (X st2) 3 3 HXr HXc) as (Q & EQ & _).
  assert (Hout : lrqmc ref_lib 4 0%nat 0%nat (grey_square 3) (all_observed 3) None
                       (keen_params 3) true (Some 0%Z)
                 = Some (Ok {| restored := Q; factor_U := U st2; factor_V := V st2;
                               norms_out := Some (norms st2) |})).
  { unfold lrqmc. rewrite Hrun, EQ. reflexivity. }
  destruct (lrqmc_stops_at_first_convergence _ _ _ _ _ _ _ _ _ _ Hout)
    as (X0' & mc & g1 & s0 & l & st & ns & _ & _ & Hrun' & Hns & _ & _ & Hmet & Hnot).
  rewrite Hrun in Hrun'. inversion Hrun'; subst st g1.
  rewrite Hix in Hmet, Hnot.
  eexists. exists ns. split; [exact Hout|]. split; [exact Hns|].
  split; [exact Hmet|]. apply Hnot. lia.
Defined.

(** ** The pixels that were missing *)

(** In the image a run returns, the quaternion at a missing pixel is the
    quaternion the input image holds there plus the one read off the
    product [U.dot(V)] of the factors as updated in the last pass of the
    run, from the state [s] that pass started in (before any cut of the
    rank): the content of the input at missing pixels is not
    discarded. *)
Theorem lrqmc_unobserved_pixels (L : NumLib) (fuel : nat) (g os : rng L)
        (qmat : tensor) (mask : ndarray bool) (init_rank : option Z) (p : params)
        (return_norms : bool) (random_state : option Z) (out : output) :
  lrqmc L fuel g os qmat mask init_rank p return_norms random_state
  = Some (Ok out) ->
  exists X0 mask_c g' st0 l s st U1 V1 UV,
    prepare L g os qmat mask init_rank p random_state = Ok (X0, mask_c, g', st0) /\
    passes L p X0 mask_c st0 (l ++ [s]) st /\
    lrqmc_run L fuel g os qmat mask init_rank p random_state = Some (Ok (st, g')) /\
    update_U L p (X s) (V s) (c_rank s) = Ok U1 /\
    update_V L p (X s) U1 (c_rank s) = Ok V1 /\
    dot U1 V1 = Ok UV /\
    forall i j, (i < dim0 qmat)%nat -> (j < dim1 qmat)%nat ->
      at2 mask i j = false ->
      pixel (restored out) i j
      = (at3 qmat i j 0 + Re (at2 UV i j),
         at3 qmat i j 1 + Im (at2 UV i j),
         at3 qmat i j 2 + Re (at2 UV i (dim1 qmat + j)),
         at3 qmat i j 3 + Im (at2 UV i (dim1 qmat + j))).
Proof.
  intros Hout. unfold lrqmc in Hout.
  destruct (lrqmc_run L fuel g os qmat mask init_rank p random_state)
    as [[[st g']|e]|] eqn:Hrun; try discriminate.
  destruct (lrqmc_run_inv L fuel g os qmat mask init_rank p random_state st g' Hrun)
    as (X0 & mask_c & st0 & l0 & Ep & Hl).
  destruct (prepare_inv L g os g' qmat mask mask_c init_rank p random_state X0 st0 Ep)
    as (H4 & Eq & Hmc & _).
  destruct (passes_last_state L p X0 _ st0 st l0 Hl) as (l & s & -> & Hb).
  destruct (loop_body_inv L p X0 _ s st false Hb)
    as (U1 & V1 & UV & kk & mu & UV2 & D & EU & EV & EUV & ER & _).
  destruct (reimpose_inv X0 _ U1 V1 UV (X st) EUV ER)
    as (Hmr & Hmcc & _ & _ & RX & CX & Hat).
  destruct (qm2cm_ok qmat (Some mask) H4) as (Xc & Eq' & RX0 & CX0 & Hq).
  rewrite Eq in Eq'. inversion Eq'; subst Xc. clear Eq'.
  rewrite Hmc in Hmr, Hmcc, Hat.
  simpl in Hmr, Hmcc.
  assert (HN : rows mask = dim0 qmat) by lia.
  assert (HM : cols mask = dim1 qmat) by lia.
  destruct (cm2qm_ok (X st) (dim0 qmat) (dim1 qmat)) as (Q & EQ & _ & _ & _ & HQ);
    [congruence|congruence|].
  rewrite EQ in Hout. simpl in Hout. inversion Hout; subst out. simpl.
  exists X0, mask_c, g', st0, l, s, st, U1, V1, UV.
  split; [exact Ep|]. split; [exact Hl|]. split; [reflexivity|].
  split; [exact EU|]. split; [exact EV|]. split; [exact EUV|].
  intros i j Hi Hj Hm.
  destruct (Hq i j Hi Hj) as (Ha & Hb' & _ & _).
  destruct (HQ i j) as (Q0 & Q1 & Q2 & Q3).
  assert (Hleft : at2 (X st) i j = Cadd (at2 X0 i j) (at2 UV i j)).
  { rewrite Hat. simpl. rewrite HN, HM, !Nat.mod_small by lia. rewrite Hm.
    reflexivity. }
  assert (Hright : at2 (X st) i (dim1 qmat + j)
                   = Cadd (at2 X0 i (dim1 qmat + j)) (at2 UV i (dim1 qmat + j))).
  { rewrite Hat. simpl. rewrite HN, HM.
    replace (dim1 qmat + j)%nat with (j + 1 * dim1 qmat)%nat by lia.
    rewrite Nat.Div0.mod_add, !Nat.mod_small by lia. rewrite Hm. reflexivity. }
  unfold pixel. rewrite Q0, Q1, Q2, Q3, Hleft, Hright, Ha, Hb'. reflexivity.
Qed.

Lemma lrqmc_unobserved_pixels_witness :
  exists out,
    lrqmc ref_lib 4 0%nat 0%nat grey_image one_missing None (example_params 3)
          false (Some 0%Z) = Some (Ok out) /\
    at3 grey_image 0 1 0 = 1 /\ 1 < at3 (restored out) 0 1 0.
Proof.
  destruct (grey_missing_run 4 ltac:(lia))
    as (X0 & g' & st0 & st1 & Ep & Eb & Hrun & HXr & HXc & Hest).
  destruct (cm2qm_ok (X st1) 2 2 HXr HXc) as (Q & EQ & _).
  assert (Hout : lrqmc ref_lib 4 0%nat 0%nat grey_image one_missing None
                       (example_params 3) false (Some 0%Z)
                 = Some (Ok {| restored := Q; factor_U := U st1; factor_V := V st1;
                               norms_out := None |})).
  { unfold lrqmc. rewrite Hrun, EQ. reflexivity. }
  destruct (lrqmc_unobserved_pixels _ _ _ _ _ _ _ _ _ _ _ Hout)
    as (X0' & mc & g1 & s0 & l & s & st & U1 & V1 & UV & Ep' & Hl & _ & EU & EV & EUV
        & Hpix).
  rewrite Ep in Ep'. inversion Ep'; subst X0' mc g1 s0.
  destruct (passes_single _ _ _ _ _ _ _ _ Eb Hl) as [Hls _].
  assert (Hs : s = st0).
  { destruct l as [|x [|y l]]; inversion Hls; reflexivity. }
  subst s.
  pose proof (Hest U1 V1 UV EU EV EUV) as Hpos.
  eexists. split; [exact Hout|]. split; [reflexivity|].
  assert (E : pixel Q 0 1
              = (at3 grey_image 0 1 0 + Re (at2 UV 0 1),
                 at3 grey_image 0 1 1 + Im (at2 UV 0 1),
                 at3 grey_image 0 1 2 + Re (at2 UV 0 (dim1 grey_image + 1)),
                 at3 grey_image 0 1 3 + Im (at2 UV 0 (dim1 grey_image + 1))))
    by (apply (Hpix 0%nat 1%nat); simpl; first [lia|reflexivity]).
  unfold pixel in E. injection E as E0 _ _ _. simpl restored. rewrite E0.
  simpl at3. lra.
Defined.

(** ** The rank on a run that cuts it *)

(** On the 3x3 grey image with [rot = 1/2], the eigenvalue test of the
    first pass fires and the rank goes from 3 to 2; the run returns
    after a second pass. *)
Lemma rank_never_grows_witness :
  exists X0 mask_c g' st0 st1 st U1 G k,
    prepare ref_lib 0%nat 0%nat (grey_square 3) (all_observed 3) None
            (keen_params 3) (Some 0%Z) = Ok (X0, mask_c, g', st0) /\
    loop_body ref_lib (keen_params 3) X0 mask_c st0 = Ok (st1, true) /\
    lrqmc_run ref_lib 4 0%nat 0%nat (grey_square 3) (all_observed 3) None
              (keen_params 3) (Some 0%Z) = Some (Ok (st, g')) /\
    update_U ref_lib (keen_params 3) (X st0) (V st0) (c_rank st0) = Ok U1 /\
    dot (ctrans U1) U1 = Ok G /\
    first_largest_ratio (rev (np_sort (eigvalsh ref_lib G))) k /\
    exceeds (xdiv (IZR (3 - 1) * nth k (rev (np_sort (eigvalsh ref_lib G))) 0)
                  (list_sum (rev (np_sort (eigvalsh ref_lib G)))
                   - nth k (rev (np_sort (eigvalsh ref_lib G))) 0))
            (1 / 2) /\
    c_rank st0 = 3%Z /\ c_rank st1 = 2%Z /\ (c_rank st <= 3)%Z.
Proof.
  destruct (grey_run 4 ltac:(lia))
    as (X0 & g' & st0 & st1 & st2 & Ep & Eb1 & _ & Hrk0 & Hrk1 & _ & _ & _ & _ & Hrun).
  destruct (rank_never_grows ref_lib (keen_params 3) ref_lib_shapes)
    as [Hpass Hruns]; [simpl; lra|].
  destruct (prepare_inv _ _ _ _ _ _ _ _ _ _ _ _ Ep)
    as (_ & _ & _ & _ & _ & _ & Hr0 & _ & _ & HV0).
  destruct (Hpass _ _ _ _ _ (HV0 ref_lib_shapes) Hr0 Eb1)
    as (_ & _ & _ & U1 & V1 & G & k & EU & _ & EG & Hfirst & Hfire & Hnot).
  destruct (Hruns _ _ _ _ _ _ _ _ _ Hrun)
    as (X0' & mc & s0 & l & _ & _ & _ & _ & _ & Hle).
  cbv zeta in Hfire, Hnot. rewrite Hrk0 in Hfire, Hnot.
  exists X0, (tile (all_observed 3) 2 2), g', st0, st1, st2, U1, G, k.
  split; [exact Ep|]. split; [exact Eb1|]. split; [exact Hrun|].
  split; [exact EU|]. split; [exact EG|].
  split; [exact Hfirst|]. split.
  - destruct (exceeds_dec
                (xdiv (IZR (3 - 1) * nth k (rev (np_sort (eigvalsh ref_lib G))) 0)
                      (list_sum (rev (np_sort (eigvalsh ref_lib G)))
                       - nth k (rev (np_sort (eigvalsh ref_lib G))) 0))
                (rot (keen_params 3))) as [He|Hne]; [exact He|].
    destruct (Hnot Hne) as (Hsame & _). rewrite Hrk1 in Hsame. discriminate.
  - split; [exact Hrk0|]. split; [exact Hrk1|exact Hle].
Defined.
